(** * Claude Voyager: the feature-lifecycle orchestration core

    A shallow embedding of the content script ([src/pages/content/index.ts])
    and of the parts of the DOM service it relies on
    ([src/core/services/DOMService.ts]): the feature registry, the
    activation state machine, settings sync, SPA navigation detection, the
    message-observer retry loop and the named MutationObserver registry.

    Module-level mutable bindings of the TypeScript sources become fields of
    an explicit state record that every function threads; a JavaScript
    exception is an explicit [Completion]. What the environment supplies
    (the stored settings an [await] resolves to, the current pathname, the
    result of a DOM query) is an argument of the function that reads it.

    After the core come the services and utilities around it: the logger's
    level filter, the normalisation of stored settings and the feature
    toggle of the background worker, [debounce] and [throttle] with their
    clock, the DOM helpers ([waitForElement], injected styles, the chat
    messages), the message dispatch, and the two features [widthAdjust] and
    [tabTitleSync] as modules of the core. *)

From stdpp Require Import gmap strings list.
From Stdlib Require Import ZArith Ascii String Lia.
From Stdlib Require QArith.

Local Open Scope string_scope.

(** How a JavaScript call completes: it returns, or it throws. *)
Inductive Completion := Normal | Throw.

(** DOM nodes are compared by identity only. *)
Definition Node := nat.

(* ================================================================== *)
(** * DOMService.ts *)
(* ================================================================== *)

Module DOMService.

(** ** The two pathname regular expressions

    [getConversationId] uses [/\/chat\/([a-f0-9-]+)/i] and [isChatPage]
    uses [/^\/chat\/[a-f0-9-]+$/i]. Both are built from four kinds of
    pattern items, matched by a backtracking matcher in the order the
    ECMAScript semantics prescribes (leftmost start, greedy repetition). *)

Inductive Item :=
  | Chr (c : ascii)                                 (* a literal character *)
  | PlusClass (cls : ascii -> bool) (capture : bool) (* [...]+, maybe group 1 *)
  | Bol                                             (* ^ (no m flag) *)
  | Eol.                                            (* $ (no m flag) *)

(** Canonicalisation of the [i] flag on the ASCII letters. *)
Definition toUpperCase (c : ascii) : ascii :=
  let n := nat_of_ascii c in
  if (97 <=? n)%nat && (n <=? 122)%nat then ascii_of_nat (n - 32) else c.

Definition chrEq (ignoreCase : bool) (c d : ascii) : bool :=
  if ignoreCase then Ascii.eqb (toUpperCase c) (toUpperCase d) else Ascii.eqb c d.

Definition inRange (lo hi c : ascii) : bool :=
  (nat_of_ascii lo <=? nat_of_ascii c)%nat && (nat_of_ascii c <=? nat_of_ascii hi)%nat.

(** The class [[a-f0-9-]]. *)
Definition hexDash (c : ascii) : bool :=
  inRange "a" "f" c || inRange "0" "9" c || Ascii.eqb c "-".

Definition toLowerCase (c : ascii) : ascii :=
  let n := nat_of_ascii c in
  if (65 <=? n)%nat && (n <=? 90)%nat then ascii_of_nat (n + 32) else c.

(** A class under the [i] flag: a character belongs to it when some member
    has the same canonical form; over ASCII the candidates are the
    character itself and its two case variants. *)
Definition classMatches (ignoreCase : bool) (cls : ascii -> bool) (c : ascii) : bool :=
  if ignoreCase then cls c || cls (toUpperCase c) || cls (toLowerCase c) else cls c.

(** Greedy repetition with backtracking: consume as many class characters
    as possible, and give characters back one at a time while the
    continuation [k] fails. [taken] is the text consumed so far. *)
Fixpoint starGreedy {R} (cls : ascii -> bool)
    (k : string -> nat -> string -> option R)
    (taken : string) (pos : nat) (s : string) : option R :=
  match s with
  | String d s' =>
      if cls d then
        match starGreedy cls k (taken +:+ String d "") (S pos) s' with
        | Some r => Some r
        | None => k taken pos s
        end
      else k taken pos s
  | EmptyString => k taken pos s
  end.

(** Match the items at position [pos], the rest of the input being [s].
    The result is the text of capture group 1, when the match succeeds. *)
Fixpoint matchItems (ignoreCase : bool) (items : list Item) (pos : nat) (s : string)
    : option (option string) :=
  match items with
  | [] => Some None
  | Chr c :: r =>
      match s with
      | String d s' =>
          if chrEq ignoreCase c d then matchItems ignoreCase r (S pos) s' else None
      | EmptyString => None
      end
  | Bol :: r => if (pos =? 0)%nat then matchItems ignoreCase r pos s else None
  | Eol :: r =>
      match s with
      | EmptyString => matchItems ignoreCase r pos s
      | String _ _ => None
      end
  | PlusClass cls capture :: r =>
      match s with
      | String d s' =>
          if classMatches ignoreCase cls d then
            starGreedy (classMatches ignoreCase cls)
              (fun taken pos' rest =>
                 match matchItems ignoreCase r pos' rest with
                 | Some g => Some (if capture then Some taken else g)
                 | None => None
                 end)
              (String d "") (S pos) s'
          else None
      | EmptyString => None
      end
  end.

(** [RegExp.prototype.exec] without the [g] or [y] flag: try every start
    position from the left, the end of the input included. *)
Fixpoint exec (ignoreCase : bool) (items : list Item) (pos : nat) (s : string)
    : option (option string) :=
  match matchItems ignoreCase items pos s with
  | Some g => Some g
  | None =>
      match s with
      | String _ s' => exec ignoreCase items (S pos) s'
      | EmptyString => None
      end
  end.

Definition literal (s : string) : list Item := Chr <$> list_ascii_of_string s.

(** [/\/chat\/([a-f0-9-]+)/i] *)
Definition conversationIdRegExp : list Item :=
  literal "/chat/" ++ [PlusClass hexDash true].

(** [/^\/chat\/[a-f0-9-]+$/i] *)
Definition chatPageRegExp : list Item :=
  [Bol] ++ literal "/chat/" ++ [PlusClass hexDash false; Eol].

(** [getConversationId()]: [match?.[1] ?? null], the pathname being
    [window.location.pathname]. *)
Definition getConversationId (pathname : string) : option string :=
  match exec true conversationIdRegExp 0 pathname with
  | Some (Some id) => Some id
  | _ => None
  end.

(** [isChatPage()]: [RegExp.prototype.test]. *)
Definition isChatPage (pathname : string) : bool :=
  match exec true chatPageRegExp 0 pathname with
  | Some _ => true
  | None => false
  end.

(** [s] is [lit], character by character, up to the [i] flag. *)
Fixpoint sameText (ignoreCase : bool) (lit s : string) : bool :=
  match lit, s with
  | EmptyString, EmptyString => true
  | String c lit', String d s' => chrEq ignoreCase c d && sameText ignoreCase lit' s'
  | _, _ => false
  end.

(** Every character of [s] is in the class. *)
Fixpoint allIn (cls : ascii -> bool) (s : string) : bool :=
  match s with
  | EmptyString => true
  | String d s' => cls d && allIn cls s'
  end.

(** The longest prefix of [s] made of class characters. *)
Fixpoint takeWhile (cls : ascii -> bool) (s : string) : string :=
  match s with
  | EmptyString => EmptyString
  | String d s' => if cls d then String d (takeWhile cls s') else EmptyString
  end.

(** [s] begins with [/chat/] (in any letter case) and one hex digit or
    dash at least. *)
Definition startsChat (s : string) : Prop :=
  exists lit d r,
    s = lit +:+ String d r
    /\ sameText true "/chat/" lit = true
    /\ classMatches true hexDash d = true.

(** ** The named MutationObserver registry

    [const observers = new Map<string, ObserverEntry>()] maps a logical
    name to the observer object installed under it. A [MutationObserver]
    object is identified by an allocation number; the browser's side of
    the story is the table of observers that are currently connected
    (observing a target), which is what decides whose callback a mutation
    reaches. [Callback] is the type of the callbacks the clients pass. *)

Record MutationObserverInit := { childList : bool; subtree : bool }.

Record ObserverEntry := { observer : nat; target : Node }.

Section Observers.
Context {Callback : Type}.

(** A connected observer: what it watches and whom it calls. [mo_name]
    is a ghost field, the name under which [observe] created it. *)
Record Connected := {
  mo_name : string;
  mo_target : Node;
  mo_callback : Callback;
  mo_options : MutationObserverInit;
}.

Record Registry := {
  observers : gmap string ObserverEntry;
  connected : gmap nat Connected;
  nextObserver : nat;
}.

Definition empty : Registry :=
  {| observers := ∅; connected := ∅; nextObserver := 0 |}.

(** [unobserve(name)]: disconnect and remove a named observer. *)
Definition unobserve (name : string) (d : Registry) : Registry :=
  match observers d !! name with
  | Some entry =>
      {| observers := delete name (observers d);
         connected := delete (observer entry) (connected d);
         nextObserver := nextObserver d |}
  | None => d
  end.

(** [observe(name, target, callback, options)]: clean up the existing
    observer with this name, then create, connect and record a new one. *)
Definition observe (name : string) (tgt : Node) (callback : Callback)
    (options : MutationObserverInit) (d : Registry) : Registry :=
  let d1 := unobserve name d in
  let o := nextObserver d1 in
  {| observers := <[name := {| observer := o; target := tgt |}]> (observers d1);
     connected :=
       <[o := {| mo_name := name; mo_target := tgt;
                 mo_callback := callback; mo_options := options |}]> (connected d1);
     nextObserver := S o |}.

(** [disconnectAll()]: disconnect every registered observer and clear
    the registry. *)
Definition disconnectAll (d : Registry) : Registry :=
  {| observers := ∅;
     connected :=
       map_fold (fun _ entry c => delete (observer entry) c) (connected d) (observers d);
     nextObserver := nextObserver d |}.

(** The calls a client can make on the registry. *)
Inductive Op :=
  | OpObserve (name : string) (tgt : Node) (callback : Callback)
      (options : MutationObserverInit)
  | OpUnobserve (name : string)
  | OpDisconnectAll.

Definition apply (op : Op) (d : Registry) : Registry :=
  match op with
  | OpObserve name tgt callback options => observe name tgt callback options d
  | OpUnobserve name => unobserve name d
  | OpDisconnectAll => disconnectAll d
  end.

Definition run (ops : list Op) (d : Registry) : Registry :=
  foldl (fun d op => apply op d) d ops.

(** The connected observers that were created under [name]. *)
Definition liveWatches (name : string) (d : Registry) : list (nat * Connected) :=
  filter (fun p => bool_decide (mo_name p.2 = name)) (map_to_list (connected d)).

(** The browser delivers a mutation to every connected observer whose
    target sees it; [visible] says which targets do. The result lists
    the observers whose callback fires. *)
Definition notified (visible : Node -> bool) (d : Registry) : list (nat * Connected) :=
  filter (fun p => visible (mo_target p.2)) (map_to_list (connected d)).

(** The registry and the browser agree: every registered entry is a
    connected observer created under that name, every connected
    observer is the entry registered under its name, and object
    numbers below [nextObserver] are the ones already used. *)
Definition consistent (d : Registry) : Prop :=
  (forall name e, observers d !! name = Some e ->
     exists c, connected d !! observer e = Some c
               /\ mo_name c = name /\ mo_target c = target e)
  /\ (forall o c, connected d !! o = Some c ->
        exists e, observers d !! mo_name c = Some e /\ observer e = o)
  /\ (forall o, is_Some (connected d !! o) -> o < nextObserver d).

(** An observer object that was created and is no longer connected. *)
Definition disconnected (o : nat) (d : Registry) : Prop :=
  o < nextObserver d /\ connected d !! o = None.

End Observers.

Arguments Connected : clear implicits.
Arguments Registry : clear implicits.
Arguments Op : clear implicits.

End DOMService.

(* ================================================================== *)
(** * pages/content/index.ts *)
(* ================================================================== *)

Module Content.

(** ** Settings ([core/types]) *)

Inductive Locale := en | de.

(** [FeatureToggles] is a JavaScript object: its own string keys in
    insertion order, each with a flag. [Object.keys] lists the keys;
    a property read finds the key's flag. *)
Definition FeatureToggles := list (string * bool).

Record VoyagerSettings := {
  locale : Locale;
  settings_features : FeatureToggles;
  chatWidth : Z;
  schemaVersion : Z;
}.

Definition Object_keys (o : FeatureToggles) : list string := o.*1.

(** [o[key]], read for its truthiness: a missing property is [undefined]. *)
Fixpoint get (o : FeatureToggles) (key : string) : bool :=
  match o with
  | [] => false
  | (k, v) :: o' => if String.eqb k key then v else get o' key
  end.

(** ** [Set<FeatureKey>]: membership with insertion order *)

Definition Set_has (key : string) (s : list string) : bool :=
  bool_decide (key ∈ s).

Definition Set_add (key : string) (s : list string) : list string :=
  if Set_has key s then s else s ++ [key].

Definition Set_delete (key : string) (s : list string) : list string :=
  filter (fun k => k ≠ key) s.

(** ** Observable events *)

(** Every call the core makes into a feature module is recorded, with the
    registry key it was looked up under. *)
Inductive Call :=
  | CallInit (key : string) (settings : VoyagerSettings)
  | CallDestroy (key : string)
  | CallOnNavigate (key : string) (conversationId : option string)
  | CallOnMessagesChanged (key : string) (container : Node).

(** How often each method of the module under [key] was called. *)
Definition isInit (key : string) (c : Call) : bool :=
  match c with CallInit k _ => String.eqb k key | _ => false end.

Definition isDestroy (key : string) (c : Call) : bool :=
  match c with CallDestroy k => String.eqb k key | _ => false end.

Definition isOnNavigate (key : string) (c : Call) : bool :=
  match c with CallOnNavigate k _ => String.eqb k key | _ => false end.

Definition isOnMessagesChanged (key : string) (c : Call) : bool :=
  match c with CallOnMessagesChanged k _ => String.eqb k key | _ => false end.

Definition count (p : Call -> bool) (cs : list Call) : nat :=
  List.length (List.filter p cs).

Definition initCalls (key : string) cs := count (isInit key) cs.
Definition destroyCalls (key : string) cs := count (isDestroy key) cs.
Definition onNavigateCalls (key : string) cs := count (isOnNavigate key) cs.
Definition onMessagesChangedCalls (key : string) cs := count (isOnMessagesChanged key) cs.

Inductive LogLevel := Debug | Info | Warn | Error.

(** The [Logger] calls of the file, by what they report. *)
Inductive LogEntry :=
  | LogFeatureRegistered (key : string)
  | LogNotRegistered (key : string)
  | LogFeatureActivated (key : string)
  | LogActivateFailed (key : string)
  | LogDestroyError (key : string)
  | LogFeatureDeactivated (key : string)
  | LogNavigationDetected (path : string) (conversationId : option string)
  | LogObserverDisabled
  | LogContainerRetry (delay : Z) (retry maxRetries : nat)
  | LogObserverInitialized.

Definition level (e : LogEntry) : LogLevel :=
  match e with
  | LogFeatureRegistered _ | LogNotRegistered _ => Debug
  | LogFeatureActivated _ | LogFeatureDeactivated _
  | LogNavigationDetected _ _ | LogObserverInitialized => Info
  | LogContainerRetry _ _ _ => Warn
  | LogActivateFailed _ | LogDestroyError _ | LogObserverDisabled => Error
  end.

(** What a pending [setTimeout] will run. *)
Inductive TimerAction :=
  | RunSetupMessageObserver (retryCount : nat)
  | RunApplySidebarPinning
  | RunOnMutation (container : Node).

Record Timer := { timer_id : nat; timer_delay : Z; timer_action : TimerAction }.

(** The callback [setupMessageObserver] hands to [DOM.observe]: the
    debounced [onMutation] closure, which captures its container. *)
Inductive MutationCallback := OnMutation (container : Node).

Definition MESSAGE_OBSERVER_MAX_RETRIES : nat := 6.

Section WithWorld.

(** Whatever the feature modules own (their DOM nodes, timers, internal
    flags): opaque to the core, read and written only by their methods. *)
Context {World : Type}.

(** ** [FeatureModule] *)
Record FeatureModule := {
  key : string;
  init : VoyagerSettings -> World -> Completion * World;
  destroy : World -> Completion * World;
  onNavigate : option (option string -> World -> Completion * World);
  onMessagesChanged : option (Node -> World -> Completion * World);
}.

(** ** The module-level state of the content script *)
Record State := {
  features : gmap string FeatureModule;
  activeFeatures : list string;
  lastPath : string;
  messageObserverRetryTimer : option nat;
  sidebarPinningEnabled : bool;
  (* the environment *)
  timers : list Timer;
  nextTimer : nat;
  dom : DOMService.Registry MutationCallback;
  (* the [timer] variable of each debounced [onMutation] closure, by the
     observer object the closure was created for *)
  debounceTimers : gmap nat nat;
  world : World;
  (* instrumentation *)
  calls : list Call;
  log : list LogEntry;
}.

Definition set_features f (st : State) : State :=
  {| features := f; activeFeatures := activeFeatures st; lastPath := lastPath st;
     messageObserverRetryTimer := messageObserverRetryTimer st;
     sidebarPinningEnabled := sidebarPinningEnabled st; timers := timers st;
     nextTimer := nextTimer st; dom := dom st;
     debounceTimers := debounceTimers st; world := world st;
     calls := calls st; log := log st |}.

Definition set_activeFeatures a (st : State) : State :=
  {| features := features st; activeFeatures := a; lastPath := lastPath st;
     messageObserverRetryTimer := messageObserverRetryTimer st;
     sidebarPinningEnabled := sidebarPinningEnabled st; timers := timers st;
     nextTimer := nextTimer st; dom := dom st;
     debounceTimers := debounceTimers st; world := world st;
     calls := calls st; log := log st |}.

Definition set_lastPath p (st : State) : State :=
  {| features := features st; activeFeatures := activeFeatures st; lastPath := p;
     messageObserverRetryTimer := messageObserverRetryTimer st;
     sidebarPinningEnabled := sidebarPinningEnabled st; timers := timers st;
     nextTimer := nextTimer st; dom := dom st;
     debounceTimers := debounceTimers st; world := world st;
     calls := calls st; log := log st |}.

Definition set_messageObserverRetryTimer t (st : State) : State :=
  {| features := features st; activeFeatures := activeFeatures st;
     lastPath := lastPath st; messageObserverRetryTimer := t;
     sidebarPinningEnabled := sidebarPinningEnabled st; timers := timers st;
     nextTimer := nextTimer st; dom := dom st;
     debounceTimers := debounceTimers st; world := world st;
     calls := calls st; log := log st |}.

Definition set_sidebarPinningEnabled b (st : State) : State :=
  {| features := features st; activeFeatures := activeFeatures st;
     lastPath := lastPath st;
     messageObserverRetryTimer := messageObserverRetryTimer st;
     sidebarPinningEnabled := b; timers := timers st;
     nextTimer := nextTimer st; dom := dom st;
     debounceTimers := debounceTimers st; world := world st;
     calls := calls st; log := log st |}.

Definition set_timers ts n (st : State) : State :=
  {| features := features st; activeFeatures := activeFeatures st;
     lastPath := lastPath st;
     messageObserverRetryTimer := messageObserverRetryTimer st;
     sidebarPinningEnabled := sidebarPinningEnabled st; timers := ts;
     nextTimer := n; dom := dom st;
     debounceTimers := debounceTimers st; world := world st;
     calls := calls st; log := log st |}.

Definition set_dom d (st : State) : State :=
  {| features := features st; activeFeatures := activeFeatures st;
     lastPath := lastPath st;
     messageObserverRetryTimer := messageObserverRetryTimer st;
     sidebarPinningEnabled := sidebarPinningEnabled st; timers := timers st;
     nextTimer := nextTimer st; dom := d;
     debounceTimers := debounceTimers st; world := world st;
     calls := calls st; log := log st |}.

Definition set_debounceTimers t (st : State) : State :=
  {| features := features st; activeFeatures := activeFeatures st;
     lastPath := lastPath st;
     messageObserverRetryTimer := messageObserverRetryTimer st;
     sidebarPinningEnabled := sidebarPinningEnabled st; timers := timers st;
     nextTimer := nextTimer st; dom := dom st;
     debounceTimers := t; world := world st;
     calls := calls st; log := log st |}.

(** A feature method ran: the world it left behind, and the record of
    the call. *)
Definition called (c : Call) (w : World) (st : State) : State :=
  {| features := features st; activeFeatures := activeFeatures st;
     lastPath := lastPath st;
     messageObserverRetryTimer := messageObserverRetryTimer st;
     sidebarPinningEnabled := sidebarPinningEnabled st; timers := timers st;
     nextTimer := nextTimer st; dom := dom st;
     debounceTimers := debounceTimers st; world := w;
     calls := calls st ++ [c]; log := log st |}.

(** A [Logger] call: it is recorded as its entry, and it returns. What of
    it reaches the console is the matter of [LoggerService] below. *)
Definition logged (e : LogEntry) (st : State) : State :=
  {| features := features st; activeFeatures := activeFeatures st;
     lastPath := lastPath st;
     messageObserverRetryTimer := messageObserverRetryTimer st;
     sidebarPinningEnabled := sidebarPinningEnabled st; timers := timers st;
     nextTimer := nextTimer st; dom := dom st;
     debounceTimers := debounceTimers st; world := world st;
     calls := calls st; log := log st ++ [e] |}.

(** [setTimeout(action, delay)]: the new timer's id. Ids start at 1 and
    are never reused, as in a browser. *)
Definition setTimeout (action : TimerAction) (delay : Z) (st : State) : nat * State :=
  let id := nextTimer st in
  (id, set_timers
         (timers st ++ [{| timer_id := id; timer_delay := delay; timer_action := action |}])
         (S id) st).

Definition clearTimeout (id : nat) (st : State) : State :=
  set_timers (filter (fun t => timer_id t ≠ id) (timers st)) (nextTimer st) st.

(** ** Feature registration *)

Definition registerFeature (module : FeatureModule) (st : State) : State :=
  logged (LogFeatureRegistered (key module))
    (set_features (<[key module := module]> (features st)) st).

(** ** Lifecycle *)

(** Activate a feature if it is registered and not already active. The
    [try] block is [init] followed by [activeFeatures.add]; the [catch]
    only logs. *)
Definition activateFeature (key : string) (settings : VoyagerSettings)
    (st : State) : State :=
  if Set_has key (activeFeatures st) then st
  else
    match features st !! key with
    | None => logged (LogNotRegistered key) st
    | Some module =>
        let '(c, w) := init module settings (world st) in
        let st1 := called (CallInit key settings) w st in
        match c with
        | Normal =>
            logged (LogFeatureActivated key)
              (set_activeFeatures (Set_add key (activeFeatures st1)) st1)
        | Throw => logged (LogActivateFailed key) st1
        end
    end.

(** Deactivate a feature: [destroy] runs inside its own [try], the
    removal from the set comes after it. *)
Definition deactivateFeature (key : string) (st : State) : State :=
  if negb (Set_has key (activeFeatures st)) then st
  else
    let st2 :=
      match features st !! key with
      | Some module =>
          let '(c, w) := destroy module (world st) in
          let st1 := called (CallDestroy key) w st in
          match c with
          | Normal => st1
          | Throw => logged (LogDestroyError key) st1
          end
      | None => st
      end in
    logged (LogFeatureDeactivated key)
      (set_activeFeatures (Set_delete key (activeFeatures st2)) st2).

(** [setSidebarPinningEnabled]: only the flag is part of this model; the
    sidebar rewriting it triggers touches none of the state above. *)
Definition setSidebarPinningEnabled (enabled : bool) (st : State) : State :=
  if Bool.eqb (sidebarPinningEnabled st) enabled then st
  else set_sidebarPinningEnabled enabled st.

(** The [for] loop of [syncFeatures]. *)
Definition syncLoop (settings : VoyagerSettings) (featureKeys : list string)
    (st : State) : State :=
  foldl (fun st key =>
           if get (settings_features settings) key
           then activateFeature key settings st
           else deactivateFeature key st)
        st featureKeys.

(** Sync active features with current settings. [settings] is what
    [await Storage.getSettings()] resolved to. *)
Definition syncFeatures (settings : VoyagerSettings) (st : State) : State :=
  let featureKeys := Object_keys (settings_features settings) in
  let st1 := syncLoop settings featureKeys st in
  setSidebarPinningEnabled (get (settings_features settings) "folders") st1.

(** The keys the loop of [syncFeatures] visits before it comes to
    [key]. *)
Fixpoint keysBefore (key : string) (featureKeys : list string) : list string :=
  match featureKeys with
  | [] => []
  | k :: rest => if String.eqb k key then [] else k :: keysBefore key rest
  end.

(** The world in which the loop of [syncFeatures] comes to [key]: what
    the features visited before it have left. *)
Definition worldAt (settings : VoyagerSettings) (key : string) (st : State) : World :=
  world (syncLoop settings (keysBefore key (Object_keys (settings_features settings))) st).

(** ** Navigation detection *)

(** The loop [for (const key of activeFeatures)] of [checkNavigation],
    with [module?.onNavigate?.(conversationId)] as its body. Nothing
    catches inside the loop: a throwing [onNavigate] ends it. *)
Fixpoint notifyNavigate (keys : list string) (conversationId : option string)
    (st : State) : Completion * State :=
  match keys with
  | [] => (Normal, st)
  | key :: rest =>
      match features st !! key with
      | Some module =>
          match onNavigate module with
          | Some f =>
              let '(c, w) := f conversationId (world st) in
              let st1 := called (CallOnNavigate key conversationId) w st in
              match c with
              | Normal => notifyNavigate rest conversationId st1
              | Throw => (Throw, st1)
              end
          | None => notifyNavigate rest conversationId st
          end
      | None => notifyNavigate rest conversationId st
      end
  end.

(** [checkNavigation()], [pathname] being [window.location.pathname]
    (read by the function and again by [DOM.getConversationId]). The
    direct call of [applySidebarPinning] only rewrites the sidebar. *)
Definition checkNavigation (pathname : string) (st : State) : Completion * State :=
  let currentPath := pathname in
  if String.eqb currentPath (lastPath st) then (Normal, st)
  else
    let st1 := set_lastPath currentPath st in
    let conversationId := DOMService.getConversationId pathname in
    let st2 := logged (LogNavigationDetected currentPath conversationId) st1 in
    match notifyNavigate (activeFeatures st2) conversationId st2 with
    | (Throw, st3) => (Throw, st3)
    | (Normal, st3) =>
        let st4 :=
          if sidebarPinningEnabled st3
          then (setTimeout RunApplySidebarPinning 250 st3).2
          else st3 in
        (Normal, (setTimeout (RunSetupMessageObserver 0) 300 st4).2)
    end.

(** ** Message observer *)

(** [Math.min(1000 * 2 ** retryCount, 10_000)] *)
Definition retryDelay (retryCount : nat) : Z :=
  Z.min (1000 * 2 ^ Z.of_nat retryCount) 10000.

(** [setupMessageObserver(retryCount)]; [container] is what
    [DOM.query('mainContent')] returns at the time of the call. The
    callback [OnMutation c] is the closure [debounce(..., 150)] returns,
    made anew for the observer object [o] that [DOM.observe] creates: its
    [timer] variable starts undefined. *)
Definition setupMessageObserver (container : option Node) (retryCount : nat)
    (st : State) : State :=
  match container with
  | None =>
      if (MESSAGE_OBSERVER_MAX_RETRIES <=? retryCount)%nat
      then logged LogObserverDisabled st
      else
        let delay := retryDelay retryCount in
        let st1 :=
          logged (LogContainerRetry delay (retryCount + 1) MESSAGE_OBSERVER_MAX_RETRIES)
            st in
        let '(id, st2) :=
          setTimeout (RunSetupMessageObserver (retryCount + 1)) delay st1 in
        set_messageObserverRetryTimer (Some id) st2
  | Some c =>
      let st1 :=
        match messageObserverRetryTimer st with
        | Some id => set_messageObserverRetryTimer None (clearTimeout id st)
        | None => st
        end in
      let d :=
        DOMService.observe "messages" c (OnMutation c)
          {| DOMService.childList := true; DOMService.subtree := true |}
          (dom st1) in
      let o := Nat.pred (DOMService.nextObserver d) in
      let st2 := set_debounceTimers (delete o (debounceTimers st1)) (set_dom d st1) in
      logged LogObserverInitialized st2
  end.

(** The function that [setupMessageObserver] passes to [debounce]: the
    loop over [activeFeatures], read when the function runs. Nothing
    catches inside the loop. *)
Fixpoint notifyMessagesChanged (keys : list string) (container : Node)
    (st : State) : Completion * State :=
  match keys with
  | [] => (Normal, st)
  | key :: rest =>
      match features st !! key with
      | Some module =>
          match onMessagesChanged module with
          | Some f =>
              let '(c, w) := f container (world st) in
              let st1 := called (CallOnMessagesChanged key container) w st in
              match c with
              | Normal => notifyMessagesChanged rest container st1
              | Throw => (Throw, st1)
              end
          | None => notifyMessagesChanged rest container st
          end
      | None => notifyMessagesChanged rest container st
      end
  end.

Definition onMutation (container : Node) (st : State) : Completion * State :=
  notifyMessagesChanged (activeFeatures st) container st.

(** A call of the function [debounce(fn, ms)] returned
    ([core/utils/debounce.ts]): [clearTimeout(timer)], then
    [timer = setTimeout(() => fn(...args), ms)]. The closure is the one
    made for the observer object [o]; [action] is its [fn]. *)
Definition debounce (o : nat) (action : TimerAction) (ms : Z) (st : State) : State :=
  let st1 :=
    match debounceTimers st !! o with
    | Some id => clearTimeout id st
    | None => st
    end in
  let '(id, st2) := setTimeout action ms st1 in
  set_debounceTimers (<[o := id]> (debounceTimers st2)) st2.

(** The browser reports mutations to the observer object [o]: if it is
    connected, its callback runs. *)
Definition mutationCallback (o : nat) (st : State) : State :=
  match DOMService.connected (dom st) !! o with
  | Some c =>
      match DOMService.mo_callback c with
      | OnMutation container => debounce o (RunOnMutation container) 150 st
      end
  | None => st
  end.

(** Both notification loops are instances of one scheme, used to reason
    about them together: [hook] selects the optional method (with its
    argument already supplied) and [mk] names the call. *)
Fixpoint notify (hook : FeatureModule -> option (World -> Completion * World))
    (mk : string -> Call) (keys : list string) (st : State) : Completion * State :=
  match keys with
  | [] => (Normal, st)
  | key :: rest =>
      match features st !! key ≫= hook with
      | Some f =>
          let '(c, w) := f (world st) in
          let st1 := called (mk key) w st in
          match c with
          | Normal => notify hook mk rest st1
          | Throw => (Throw, st1)
          end
      | None => notify hook mk rest st
      end
  end.

Definition navigateHook (conversationId : option string) (m : FeatureModule) :=
  (fun f => f conversationId) <$> onNavigate m.

Definition messagesChangedHook (container : Node) (m : FeatureModule) :=
  (fun f => f container) <$> onMessagesChanged m.

(** [st] after feature methods ran: they leave the world [w] and the
    calls [cs], and nothing else changes. *)
Definition withCalls (cs : list Call) (w : World) (st : State) : State :=
  {| features := features st; activeFeatures := activeFeatures st;
     lastPath := lastPath st;
     messageObserverRetryTimer := messageObserverRetryTimer st;
     sidebarPinningEnabled := sidebarPinningEnabled st; timers := timers st;
     nextTimer := nextTimer st; dom := dom st;
     debounceTimers := debounceTimers st; world := w;
     calls := calls st ++ cs; log := log st |}.

(** The keys of [keys] whose registered module implements the hook. *)
Definition hooked (hook : FeatureModule -> option (World -> Completion * World))
    (st : State) (keys : list string) : list string :=
  filter (fun key => is_Some (features st !! key ≫= hook)) keys.

(** ** Message handling *)

(** The [SETTINGS_CHANGED] handler. *)
Definition onSettingsChanged (settings : VoyagerSettings) (st : State) : State :=
  syncFeatures settings st.

(** The [FEATURE_TOGGLE] handler; [settings] is what
    [Storage.getSettings()] resolves to (read when [enabled]). *)
Definition onFeatureToggle (key : string) (enabled : bool)
    (settings : VoyagerSettings) (st : State) : State :=
  let st1 :=
    if enabled then activateFeature key settings st
    else deactivateFeature key st in
  if String.eqb key "folders" then setSidebarPinningEnabled enabled st1 else st1.

(** ** The event loop *)

(** A pending timer fires: it leaves the queue and its action runs.
    [query] is what [DOM.query('mainContent')] returns at that time. *)
Definition fireTimer (id : nat) (query : option Node) (st : State) : State :=
  match List.find (fun t => (timer_id t =? id)%nat) (timers st) with
  | None => st
  | Some t =>
      let st1 := clearTimeout id st in
      match timer_action t with
      | RunSetupMessageObserver retryCount => setupMessageObserver query retryCount st1
      | RunApplySidebarPinning => st1
      | RunOnMutation container => (onMutation container st1).2
      end
  end.

(** What the page can do to the running content script. *)
Inductive Event :=
  | SettingsChanged (settings : VoyagerSettings)
  | FeatureToggle (key : string) (enabled : bool) (settings : VoyagerSettings)
  | NavigationCheck (pathname : string)
  | MutationsObserved (o : nat)
  | TimerFired (id : nat) (query : option Node).

(** One turn of the event loop. An exception that escapes a callback is
    reported by the browser and the page goes on with the state the
    callback left. *)
Definition step (e : Event) (st : State) : State :=
  match e with
  | SettingsChanged settings => onSettingsChanged settings st
  | FeatureToggle key enabled settings => onFeatureToggle key enabled settings st
  | NavigationCheck pathname => (checkNavigation pathname st).2
  | MutationsObserved o => mutationCallback o st
  | TimerFired id query => fireTimer id query st
  end.

Definition run (events : list Event) (st : State) : State :=
  foldl (fun st e => step e st) st events.

(** The state of a freshly injected script, before any registration. *)
Definition initial (pathname : string) (w : World) : State :=
  {| features := ∅; activeFeatures := []; lastPath := pathname;
     messageObserverRetryTimer := None; sidebarPinningEnabled := false;
     timers := []; nextTimer := 1; dom := DOMService.empty;
     debounceTimers := ∅; world := w;
     calls := []; log := [] |}.

(** Fire the pending timers in the order they were set, [DOM.query]
    finding no container at any of them, at most [fuel] times. *)
Fixpoint drainNotFound (fuel : nat) (st : State) : State :=
  match fuel with
  | O => st
  | S fuel' =>
      match timers st with
      | [] => st
      | t :: _ => drainNotFound fuel' (fireTimer (timer_id t) None st)
      end
  end.

(** ** Reachable states

    What registration, activation and deactivation maintain: an active
    key is a registered one, and the active set has no repetition. *)
Definition wf (st : State) : Prop :=
  NoDup (activeFeatures st)
  /\ forall key, key ∈ activeFeatures st -> is_Some (features st !! key).

(** [key] fares the same in [st'] as in [st]: same activation state,
    same numbers of lifecycle calls. *)
Definition untouched (key : string) (st st' : State) : Prop :=
  (key ∈ activeFeatures st' <-> key ∈ activeFeatures st)
  /\ initCalls key (calls st') = initCalls key (calls st)
  /\ destroyCalls key (calls st') = destroyCalls key (calls st).

(** [key], Inactive in [st], is Inactive in [st'] and none of its
    methods other than [onNavigate] and [init] ran in between. *)
Definition quiet (key : string) (st st' : State) : Prop :=
  (key ∉ activeFeatures st')
  /\ onMessagesChangedCalls key (calls st') = onMessagesChangedCalls key (calls st)
  /\ destroyCalls key (calls st') = destroyCalls key (calls st).

(** The timer and the warning of the [k]-th retry, [first] being the id
    of the first retry's timer. *)
Definition retryTimer (first : nat) (k : nat) : Timer :=
  {| timer_id := first + k; timer_delay := retryDelay k;
     timer_action := RunSetupMessageObserver (S k) |}.

Definition retryWarning (k : nat) : LogEntry :=
  LogContainerRetry (retryDelay k) (S k) MESSAGE_OBSERVER_MAX_RETRIES.

(** Does the event try to activate [key]? *)
Definition activates (key : string) (e : Event) : bool :=
  match e with
  | SettingsChanged settings => get (settings_features settings) key
  | FeatureToggle k enabled _ => enabled && String.eqb k key
  | _ => false
  end.

End WithWorld.

Arguments FeatureModule : clear implicits.
Arguments State : clear implicits.

End Content.

(* ================================================================== *)
(** * Sample modules and states *)
(* ================================================================== *)

Module Samples.
Import Content.

(** The world of the sample modules counts the resources they hold. *)
Definition steady (k : string) : FeatureModule nat :=
  {| key := k;
     init := fun _ w => (Normal, S w);
     destroy := fun w => (Normal, pred w);
     onNavigate := Some (fun _ w => (Normal, w));
     onMessagesChanged := Some (fun _ w => (Normal, w)) |}.

(** A module whose [init] always throws. *)
Definition crashing (k : string) : FeatureModule nat :=
  {| key := k;
     init := fun _ w => (Throw, w);
     destroy := fun w => (Normal, w);
     onNavigate := None;
     onMessagesChanged := None |}.

(** A module whose [destroy] and notification hooks throw. *)
Definition fragile (k : string) : FeatureModule nat :=
  {| key := k;
     init := fun _ w => (Normal, S w);
     destroy := fun w => (Throw, w);
     onNavigate := Some (fun _ w => (Throw, w));
     onMessagesChanged := Some (fun _ w => (Throw, w)) |}.

Definition settingsOf (toggles : FeatureToggles) : VoyagerSettings :=
  {| locale := en; settings_features := toggles; chatWidth := 800; schemaVersion := 1 |}.

Definition registered (modules : list (FeatureModule nat)) : State nat :=
  foldl (fun st m => registerFeature m st) (initial "/new" 0) modules.

(** What happens after [timeline] has been toggled off: mutations under
    observer 0, their debounce timers, a navigation, another settings
    change that keeps [timeline] disabled. *)
Definition afterToggle : list (Event) :=
  [MutationsObserved 0; MutationsObserved 0; TimerFired 2 None;
   NavigationCheck "/chat/aa";
   SettingsChanged (settingsOf [("timeline", false); ("export", true)]);
   MutationsObserved 0; TimerFired 4 None].

End Samples.

(* ================================================================== *)
(** * core/services/LoggerService.ts *)
(* ================================================================== *)

Module LoggerService.
Import Content.

Definition LOG_PREFIX : string := "[Voyager]".

Definition LEVEL_PRIORITY (l : LogLevel) : nat :=
  match l with Debug => 0 | Info => 1 | Warn => 2 | Error => 3 end.

(** One call of a [console] method: the method is the level's own. The
    further [data] arguments are handed on as they are. *)
Record ConsoleCall := {
  console_method : LogLevel;
  console_prefix : string;
  console_message : string;
}.

(** The logger: its [minLevel] field, and what it has written. *)
Record Logger := { minLevel : LogLevel; console : list ConsoleCall }.

Definition initial : Logger := {| minLevel := Info; console := [] |}.

Definition setLevel (l : LogLevel) (lg : Logger) : Logger :=
  {| minLevel := l; console := console lg |}.

(** [log(level, tag, message)]; [timestamp] is what
    [new Date().toISOString().slice(11, 23)] gives at the call. *)
Definition log (l : LogLevel) (timestamp tag message : string) (lg : Logger) : Logger :=
  if (LEVEL_PRIORITY l <? LEVEL_PRIORITY (minLevel lg))%nat then lg
  else
    let prefix := LOG_PREFIX +:+ "[" +:+ timestamp +:+ "][" +:+ tag +:+ "]" in
    {| minLevel := minLevel lg;
       console := console lg ++ [{| console_method := l; console_prefix := prefix;
                                    console_message := message |}] |}.

(** A call of [debug], [info], [warn] or [error], by its level. *)
Record LogCall := {
  call_level : LogLevel; call_timestamp : string;
  call_tag : string; call_message : string;
}.

Definition logAll (cs : list LogCall) (lg : Logger) : Logger :=
  foldl (fun lg c => log (call_level c) (call_timestamp c) (call_tag c) (call_message c) lg)
    lg cs.

Definition written (c : LogCall) : ConsoleCall :=
  {| console_method := call_level c;
     console_prefix :=
       LOG_PREFIX +:+ "[" +:+ call_timestamp c +:+ "][" +:+ call_tag c +:+ "]";
     console_message := call_message c |}.

End LoggerService.

(* ================================================================== *)
(** * core/services/StorageService.ts: settings *)
(* ================================================================== *)

Module StorageService.
Import Content.

(** The values storage can hold. Numbers are the integers (widths and
    schema versions are); an object is its own properties in insertion
    order, none of them an array index. *)
#[local] Set Warnings "-register-all".
Inductive JSValue :=
  | JUndefined
  | JNull
  | JBoolean (b : bool)
  | JNumber (n : Z)
  | JString (s : string)
  | JObject (props : list (string * JSValue)).

Definition Obj := list (string * JSValue).

(** [o[key]] *)
Fixpoint getProp (o : Obj) (key : string) : JSValue :=
  match o with
  | [] => JUndefined
  | (k, v) :: o' => if String.eqb k key then v else getProp o' key
  end.

(** [o[key] = v]: an existing property keeps its place, a new one goes
    to the end. *)
Fixpoint setProp (key : string) (v : JSValue) (o : Obj) : Obj :=
  match o with
  | [] => [(key, v)]
  | (k, w) :: o' => if String.eqb k key then (k, v) :: o' else (k, w) :: setProp key v o'
  end.

(** [{...base, ...src}] *)
Definition spread (base src : Obj) : Obj :=
  foldl (fun acc p => setProp p.1 p.2 acc) base src.

(** [v[key]] for a key that is neither [length] nor an index: only an
    object has it. *)
Definition propOf (v : JSValue) (key : string) : JSValue :=
  match v with
  | JObject o => getProp o key
  | _ => JUndefined
  end.

(** [core/types]: the defaults. *)
Definition DEFAULT_FEATURE_TOGGLES : FeatureToggles :=
  [("timeline", false); ("folders", false); ("prompts", false); ("export", false);
   ("widthAdjust", false); ("tabTitleSync", false); ("formulaCopy", false)].

Definition CURRENT_SCHEMA_VERSION : Z := 1.

Definition togglesObject (t : FeatureToggles) : JSValue :=
  JObject ((fun p => (p.1, JBoolean p.2)) <$> t).

Definition DEFAULT_SETTINGS : Obj :=
  [("locale", JString "en");
   ("features", togglesObject DEFAULT_FEATURE_TOGGLES);
   ("chatWidth", JNumber 800);
   ("schemaVersion", JNumber CURRENT_SCHEMA_VERSION)].

(** [normalizedFeatures[key] = b] on the typed toggles. *)
Fixpoint setToggle (key : string) (b : bool) (t : FeatureToggles) : FeatureToggles :=
  match t with
  | [] => [(key, b)]
  | (k, w) :: t' => if String.eqb k key then (k, b) :: t' else (k, w) :: setToggle key b t'
  end.

(** The loop of [normalizeSettings] over the keys of the defaults;
    [rawFeatures] is [settings.features ?? {}]. *)
Definition normalizeFeatures (rawFeatures : JSValue) : FeatureToggles :=
  let keys := Object_keys DEFAULT_FEATURE_TOGGLES in
  foldl (fun normalizedFeatures key =>
           let value := propOf rawFeatures key in
           setToggle key
             (match value with
              | JBoolean b => b
              | _ => get DEFAULT_FEATURE_TOGGLES key
              end)
             normalizedFeatures)
        DEFAULT_FEATURE_TOGGLES keys.

(** [settings.features ?? {}] *)
Definition rawFeaturesOf (settings : Obj) : JSValue :=
  match getProp settings "features" with
  | JUndefined | JNull => JObject []
  | v => v
  end.

(** [normalizeSettings(settings)] *)
Definition normalizeSettings (settings : Obj) : Obj :=
  let normalizedFeatures := normalizeFeatures (rawFeaturesOf settings) in
  setProp "schemaVersion" (JNumber CURRENT_SCHEMA_VERSION)
    (setProp "features" (togglesObject normalizedFeatures)
       (spread (spread [] DEFAULT_SETTINGS) settings)).

(** A stored [features] value at its type [FeatureToggles]: the boolean
    properties of the object. *)
Definition togglesOf (v : JSValue) : FeatureToggles :=
  match v with
  | JObject o =>
      omap (fun p => match p.2 with JBoolean b => Some (p.1, b) | _ => None end) o
  | _ => []
  end.

(** The updater of the background's [FEATURE_TOGGLE] handler:
    [{...current, features: {...current.features, [key]: enabled}}]. *)
Definition spreadValue (v : JSValue) : Obj :=
  match v with JObject o => spread [] o | _ => [] end.

Definition toggleUpdater (key : string) (enabled : bool) (current : Obj) : Obj :=
  setProp "features"
    (JObject (setProp key (JBoolean enabled) (spreadValue (getProp current "features"))))
    (spread [] current).

End StorageService.

(* ================================================================== *)
(** * core/utils/debounce.ts, with the clock *)
(* ================================================================== *)

(** The two closures on their own, with the time at which things happen.
    A timer set for a delay cannot fire before the delay has passed; it
    may fire any time after. *)
Module Utils.

Section Timed.
Context {Args : Type}.

(** A timer pending in the browser: its id, the time before which it
    cannot fire, the arguments its callback holds. *)
Record Pending := { p_id : nat; p_due : Z; p_args : Args }.

(** [clearTimeout(timer)]; [clearTimeout(undefined)] and the id of a
    timer that has fired do nothing. *)
Definition clearTimeout (timer : option nat) (queue : list Pending) : list Pending :=
  match timer with
  | Some id => filter (fun p => p_id p <> id) queue
  | None => queue
  end.

(** What happens to a closure: it is called, or the browser gets to the
    timer [id]; [elapsed] is the time since the event before. *)
Inductive Event :=
  | Call (elapsed : N) (args : Args)
  | Fire (elapsed : N) (id : nat).

(** ** [debounce(fn, ms)] *)

(** One run of [fn]: when, with which arguments, and how many calls of
    the closure had been made by then. *)
Record Run := { r_time : Z; r_args : Args; r_calls : nat }.

(** The closure's [timer], its timers pending, the clock; and, for the
    statements, the calls made and the runs of [fn]. *)
Record Debounced := {
  d_timer : option nat;
  d_queue : list Pending;
  d_nextId : nat;
  d_clock : Z;
  d_calls : list (Z * Args);
  d_runs : list Run;
}.

Definition d_fresh (now : Z) : Debounced :=
  {| d_timer := None; d_queue := []; d_nextId := 1; d_clock := now;
     d_calls := []; d_runs := [] |}.

(** [clearTimeout(timer); timer = setTimeout(() => fn(...args), ms)] *)
Definition d_call (ms : Z) (elapsed : N) (args : Args) (s : Debounced) : Debounced :=
  let now := (d_clock s + Z.of_N elapsed)%Z in
  let queue := clearTimeout (d_timer s) (d_queue s) in
  let id := d_nextId s in
  {| d_timer := Some id;
     d_queue := queue ++ [{| p_id := id; p_due := (now + Z.max 0 ms)%Z; p_args := args |}];
     d_nextId := S id;
     d_clock := now;
     d_calls := d_calls s ++ [(now, args)];
     d_runs := d_runs s |}.

(** The timer [id] fires, if it is pending and due: [fn(...args)]. *)
Definition d_fire (elapsed : N) (id : nat) (s : Debounced) : Debounced :=
  let now := (d_clock s + Z.of_N elapsed)%Z in
  match List.find (fun p => (p_id p =? id)%nat) (d_queue s) with
  | Some p =>
      if (p_due p <=? now)%Z then
        {| d_timer := d_timer s;
           d_queue := filter (fun q => p_id q <> id) (d_queue s);
           d_nextId := d_nextId s;
           d_clock := now;
           d_calls := d_calls s;
           d_runs := d_runs s ++ [{| r_time := now; r_args := p_args p;
                                     r_calls := List.length (d_calls s) |}] |}
      else
        {| d_timer := d_timer s; d_queue := d_queue s; d_nextId := d_nextId s;
           d_clock := now; d_calls := d_calls s; d_runs := d_runs s |}
  | None =>
      {| d_timer := d_timer s; d_queue := d_queue s; d_nextId := d_nextId s;
         d_clock := now; d_calls := d_calls s; d_runs := d_runs s |}
  end.

Definition d_step (ms : Z) (e : Event) (s : Debounced) : Debounced :=
  match e with
  | Call elapsed args => d_call ms elapsed args s
  | Fire elapsed id => d_fire elapsed id s
  end.

Definition d_run (ms : Z) (es : list Event) (s : Debounced) : Debounced :=
  foldl (fun s e => d_step ms e s) s es.

(** What a run of [fn] has to do with the calls: it answers the call
    made last before it, with that call's arguments, no sooner than the
    delay after it; the calls after it come after it. *)
Definition answers (ms : Z) (calls : list (Z * Args)) (r : Run) : Prop :=
  exists c,
    calls !! pred (r_calls r) = Some (c, r_args r)
    /\ (0 < r_calls r <= List.length calls)%nat
    /\ (c + Z.max 0 ms <= r_time r)%Z
    /\ forall j c' a', (r_calls r <= j)%nat -> calls !! j = Some (c', a') -> (r_time r <= c')%Z.

Definition d_inv (ms : Z) (s : Debounced) : Prop :=
  (forall c a, (c, a) ∈ d_calls s -> (c <= d_clock s)%Z)
  /\ (forall r, r ∈ d_runs s -> (r_time r <= d_clock s)%Z /\ answers ms (d_calls s) r)
  /\ NoDup (r_calls <$> d_runs s)
  /\ (d_queue s = []
      \/ exists id c a,
           d_timer s = Some id
           /\ d_queue s = [{| p_id := id; p_due := (c + Z.max 0 ms)%Z; p_args := a |}]
           /\ last (d_calls s) = Some (c, a)
           /\ forall r, r ∈ d_runs s -> (r_calls r < List.length (d_calls s))%nat).

(** ** [throttle(fn, ms)] *)

(** [lastCall], [timer], the timers pending, the clock ([Date.now()]);
    and the runs of [fn]: when, and with which arguments. *)
Record Throttled := {
  t_lastCall : Z;
  t_timer : option nat;
  t_queue : list Pending;
  t_nextId : nat;
  t_clock : Z;
  t_runs : list (Z * Args);
}.

(** Timer ids are positive, so that [!timer] tells whether [timer] is
    [undefined]. *)
Definition t_fresh (now : Z) : Throttled :=
  {| t_lastCall := 0; t_timer := None; t_queue := []; t_nextId := 1; t_clock := now;
     t_runs := [] |}.

Definition t_call (ms : Z) (elapsed : N) (args : Args) (s : Throttled) : Throttled :=
  let now := (t_clock s + Z.of_N elapsed)%Z in
  let remaining := (ms - (now - t_lastCall s))%Z in
  if (remaining <=? 0)%Z then
    {| t_lastCall := now;
       t_timer := t_timer s;
       t_queue := clearTimeout (t_timer s) (t_queue s);
       t_nextId := t_nextId s;
       t_clock := now;
       t_runs := t_runs s ++ [(now, args)] |}
  else
    match t_timer s with
    | None =>
        let id := t_nextId s in
        {| t_lastCall := t_lastCall s;
           t_timer := Some id;
           t_queue := t_queue s ++ [{| p_id := id; p_due := (now + remaining)%Z;
                                       p_args := args |}];
           t_nextId := S id;
           t_clock := now;
           t_runs := t_runs s |}
    | Some _ =>
        {| t_lastCall := t_lastCall s; t_timer := t_timer s; t_queue := t_queue s;
           t_nextId := t_nextId s; t_clock := now; t_runs := t_runs s |}
    end.

(** The timer [id] fires, if it is pending and due:
    [lastCall = Date.now(); timer = undefined; fn(...args)]. *)
Definition t_fire (elapsed : N) (id : nat) (s : Throttled) : Throttled :=
  let now := (t_clock s + Z.of_N elapsed)%Z in
  match List.find (fun p => (p_id p =? id)%nat) (t_queue s) with
  | Some p =>
      if (p_due p <=? now)%Z then
        {| t_lastCall := now;
           t_timer := None;
           t_queue := filter (fun q => p_id q <> id) (t_queue s);
           t_nextId := t_nextId s;
           t_clock := now;
           t_runs := t_runs s ++ [(now, p_args p)] |}
      else
        {| t_lastCall := t_lastCall s; t_timer := t_timer s; t_queue := t_queue s;
           t_nextId := t_nextId s; t_clock := now; t_runs := t_runs s |}
  | None =>
      {| t_lastCall := t_lastCall s; t_timer := t_timer s; t_queue := t_queue s;
         t_nextId := t_nextId s; t_clock := now; t_runs := t_runs s |}
  end.

Definition t_step (ms : Z) (e : Event) (s : Throttled) : Throttled :=
  match e with
  | Call elapsed args => t_call ms elapsed args s
  | Fire elapsed id => t_fire elapsed id s
  end.

Definition t_run (ms : Z) (es : list Event) (s : Throttled) : Throttled :=
  foldl (fun s e => t_step ms e s) s es.

(** Successive times at least [ms] apart. *)
Fixpoint spaced (ms : Z) (times : list Z) : Prop :=
  match times with
  | t1 :: ((t2 :: _) as rest) => (t1 + ms <= t2)%Z /\ spaced ms rest
  | _ => True
  end.

(** What holds of a throttled closure between events: the runs so far
    are [ms] apart, the last of them is at [lastCall], and a pending timer
    is the one [timer] names, due [ms] after [lastCall]. *)
Definition t_inv (ms : Z) (s : Throttled) : Prop :=
  spaced ms (t_runs s).*1
  /\ (forall t, last (t_runs s).*1 = Some t -> t = t_lastCall s)
  /\ (t_queue s = []
      \/ exists id a,
           t_timer s = Some id
           /\ t_queue s = [{| p_id := id; p_due := (t_lastCall s + ms)%Z; p_args := a |}]).

End Timed.

Arguments Pending : clear implicits.
Arguments Event : clear implicits.
Arguments Run : clear implicits.
Arguments Debounced : clear implicits.
Arguments Throttled : clear implicits.

End Utils.

(* ================================================================== *)
(** * core/services/DOMService.ts: queries, styles, messages *)
(* ================================================================== *)

Module DOM.

(** ** [waitForElement] *)

(** One run of the interval's callback: what [this.query(key)] returns
    and what [Date.now()] reads. *)
Record Tick := { tick_query : option Node; tick_now : Z }.

(** The promise: not resolved yet (the interval is still set), or
    resolved with an element or with [null]. *)
Inductive Waiting :=
  | StillWaiting
  | Resolved (el : option Node).

(** The interval's callback, tick after tick, until it clears the
    interval. *)
Fixpoint poll (timeout startTime : Z) (ticks : list Tick) : Waiting :=
  match ticks with
  | [] => StillWaiting
  | t :: rest =>
      match tick_query t with
      | Some el => Resolved (Some el)
      | None =>
          if (timeout <? tick_now t - startTime)%Z then Resolved None
          else poll timeout startTime rest
      end
  end.

(** A tick that finds nothing and is within the timeout: polling goes on. *)
Definition idle (timeout startTime : Z) (t : Tick) : Prop :=
  tick_query t = None /\ (tick_now t - startTime <= timeout)%Z.

(** [waitForElement(key, { timeout })]: [existing] is the first query,
    [startTime] the clock when polling starts. *)
Definition waitForElement (timeout : Z) (existing : option Node) (startTime : Z)
    (ticks : list Tick) : Waiting :=
  match existing with
  | Some el => Resolved (Some el)
  | None => poll timeout startTime ticks
  end.

(** ** [injectStyles], [removeStyles] *)

Section Styles.
Context {Text : Type}.

(** A [style] element of the head that carries [data-voyager-style]:
    the attribute's value and the text. The head lists them in document
    order. The ids are plain names, which the selector
    [style[data-voyager-style=id]] can quote. *)
Record StyleElement := { data_voyager_style : string; textContent : Text }.

Definition Head := list StyleElement.

Definition styleIds (styles : Head) : list string := data_voyager_style <$> styles.

(** An id that the selector [style[data-voyager-style=id]] quotes as it
    is: printable characters, none of them the double quote or the
    backslash. For any other id the selector is not that of the id
    ([querySelector] throws, or selects by another value), and the
    functions below do not speak of it. *)
Definition plainChar (c : ascii) : bool :=
  let n := nat_of_ascii c in
  (32 <=? n)%nat && (n <=? 126)%nat && negb (n =? 34)%nat && negb (n =? 92)%nat.

Fixpoint plainId (id : string) : bool :=
  match id with
  | EmptyString => true
  | String c rest => plainChar c && plainId rest
  end.

(** [document.querySelector] for the style of a plain [id]: the first
    one whose attribute is [id]. *)
Definition queryStyle (id : string) (styles : Head) : option StyleElement :=
  List.find (fun el => String.eqb (data_voyager_style el) id) styles.

(** [existing.textContent = css] on the first style of [id]. *)
Fixpoint setTextContent (id : string) (css : Text) (styles : Head) : Head :=
  match styles with
  | [] => []
  | el :: rest =>
      if String.eqb (data_voyager_style el) id
      then {| data_voyager_style := data_voyager_style el; textContent := css |} :: rest
      else el :: setTextContent id css rest
  end.

(** [el.remove()] on the first style of [id]. *)
Fixpoint removeFirst (id : string) (styles : Head) : Head :=
  match styles with
  | [] => []
  | el :: rest =>
      if String.eqb (data_voyager_style el) id then rest
      else el :: removeFirst id rest
  end.

Definition injectStyles (id : string) (css : Text) (styles : Head) : Head :=
  match queryStyle id styles with
  | Some _ => setTextContent id css styles
  | None => (styles ++ [{| data_voyager_style := id; textContent := css |}])%list
  end.

Definition removeStyles (id : string) (styles : Head) : Head :=
  match queryStyle id styles with
  | Some _ => removeFirst id styles
  | None => styles
  end.

(** Calls of the two, in sequence. *)
Inductive StyleOp :=
  | Inject (id : string) (css : Text)
  | Remove (id : string).

Definition opId (op : StyleOp) : string :=
  match op with
  | Inject id _ => id
  | Remove id => id
  end.

Definition applyStyleOp (op : StyleOp) (styles : Head) : Head :=
  match op with
  | Inject id css => injectStyles id css styles
  | Remove id => removeStyles id styles
  end.

Definition applyStyleOps (ops : list StyleOp) (styles : Head) : Head :=
  foldl (fun styles op => applyStyleOp op styles) styles ops.

(** The text the style of [id] has after the operations, if there is
    one: that of the last operation on [id]. *)
Fixpoint lastStyle (id : string) (ops : list StyleOp) (before : option Text) : option Text :=
  match ops with
  | [] => before
  | Inject id' css :: rest =>
      lastStyle id rest (if String.eqb id' id then Some css else before)
  | Remove id' :: rest =>
      lastStyle id rest (if String.eqb id' id then None else before)
  end.

End Styles.

Arguments StyleElement : clear implicits.
Arguments Head : clear implicits.
Arguments StyleOp : clear implicits.

(** ** Messages *)

(** What [isElementVisible] reads of an element: whether
    [closest('[hidden], [aria-hidden=true]')] finds something, the computed
    [display] and [visibility], the bounding rectangle. *)
Record Layout := {
  closestHidden : bool;
  display : string;
  visibility : string;
  rect_width : QArith_base.Q;
  rect_height : QArith_base.Q;
}.

Definition zero : QArith_base.Q := QArith_base.Qmake 0 1.

(** [rect.width > 0 && rect.height > 0] after the three early returns. *)
Definition isElementVisible (l : Layout) : bool :=
  if closestHidden l then false
  else if String.eqb (display l) "none" || String.eqb (visibility l) "hidden" then false
  else negb (QArith_base.Qle_bool (rect_width l) zero)
       && negb (QArith_base.Qle_bool (rect_height l) zero).

Inductive MessageRole := human | assistant.

(** An element as the message functions read it: whether it matches the
    human or the assistant marker, whether it contains an element that
    does, its markup and its trimmed text. *)
Record Block := {
  block_element : Node;
  block_layout : Layout;
  matchesHuman : bool;
  matchesAssistant : bool;
  containsHuman : bool;
  containsAssistant : bool;
  innerHTML : string;
  trimmedText : string;
}.

(** The selector [messageBlock] is the human marker or the assistant
    marker. *)
Definition matchesMessageBlock (b : Block) : bool :=
  matchesHuman b || matchesAssistant b.

Definition detectMessageRole (b : Block) : option MessageRole :=
  if matchesHuman b then Some human
  else if matchesAssistant b then Some assistant
  else if containsHuman b then Some human
  else if containsAssistant b then Some assistant
  else None.

Record ChatMessage := {
  role : MessageRole;
  contentHtml : string;
  contentText : string;
  index : nat;
  element : Node;
}.

(** The loop of [getChatMessages] over [blocks]. *)
Definition collectMessages (blocks : list Block) : list ChatMessage :=
  foldl (fun messages block =>
           if negb (isElementVisible (block_layout block)) then messages
           else
             match detectMessageRole block with
             | None => messages
             | Some r =>
                 (messages ++ [{| role := r;
                                 contentHtml := innerHTML block;
                                 contentText := trimmedText block;
                                 index := List.length messages;
                                 element := block_element block |}])%list
             end)
        [] blocks.

(** An element matching [chatMessageContainer], with the elements under
    it that match [messageBlock], in document order. *)
Record Container := {
  container_element : Node;
  container_layout : Layout;
  container_blocks : list Block;
}.

Definition score (c : Container) : nat :=
  List.length (filter (fun b => isElementVisible (block_layout b) = true) (container_blocks c)).

(** The loop of [getActiveMessageContainer]: [best]. *)
Definition bestContainer (containers : list Container) : option (Container * nat) :=
  foldl (fun best container =>
           if negb (isElementVisible (container_layout container)) then best
           else
             match best with
             | None => Some (container, score container)
             | Some (_, bestScore) =>
                 if (bestScore <? score container)%nat
                 then Some (container, score container) else best
             end)
        None containers.

(** [best?.container ?? containers[0] ?? null] *)
Definition getActiveMessageContainer (containers : list Container) : option Container :=
  match bestContainer containers with
  | Some (c, _) => Some c
  | None => head containers
  end.

(** [getChatMessages()]: [containers] are the message containers under
    the main content (or the document), [allBlocks] what
    [queryAll('messageBlock')] returns. *)
Definition getChatMessages (containers : list Container) (allBlocks : list Block)
    : list ChatMessage :=
  let blocks :=
    match getActiveMessageContainer containers with
    | Some c => container_blocks c
    | None => allBlocks
    end in
  collectMessages blocks.

End DOM.

(* ================================================================== *)
(** * pages/content/index.ts: the sidebar *)
(* ================================================================== *)

Module Sidebar.

(** [findDirectChildContainer(parent, descendant)]. [chain] is
    [descendant] followed by its [parentElement], the [parentElement] of
    that, and so on up to the root. *)
Fixpoint findDirectChildContainer (parent : Node) (chain : list Node) : option Node :=
  match chain with
  | [] => None
  | current :: ancestors =>
      match ancestors with
      | p :: _ =>
          if (p =? parent)%nat then Some current
          else findDirectChildContainer parent ancestors
      | [] => None
      end
  end.

End Sidebar.

(* ================================================================== *)
(** * The lifecycle contract of a feature *)
(* ================================================================== *)

Module Contract.
Import Content.

Section Contract.
Context {World : Type}.

(** Every method of [m] keeps [R]. *)
Definition preserves (R : World -> Prop) (m : FeatureModule World) : Prop :=
  (forall settings w, R w -> R (init m settings w).2)
  /\ (forall w, R w -> R (destroy m w).2)
  /\ (forall f id w, onNavigate m = Some f -> R w -> R (f id w).2)
  /\ (forall f c w, onMessagesChanged m = Some f -> R w -> R (f c w).2).

(** [m] takes what it needs in [init] and gives it back in [destroy]:
    from a world where it holds nothing ([free]) an [init] that returns
    leaves one where it holds its resources ([held]), an [init] that throws
    leaves it holding nothing; [destroy] gives everything back, thrown or
    not; its hooks keep what is held. *)
Definition manages (held free : World -> Prop) (m : FeatureModule World) : Prop :=
  (forall settings w, free w ->
     let r := init m settings w in
     if r.1 is Normal then held r.2 else free r.2)
  /\ (forall w, held w -> free (destroy m w).2)
  /\ (forall f id w, onNavigate m = Some f -> held w -> held (f id w).2)
  /\ (forall f c w, onMessagesChanged m = Some f -> held w -> held (f c w).2).

(** The resources follow the activation state of [key]. *)
Definition follows (key : string) (held free : World -> Prop) (st : State World) : Prop :=
  (key ∈ activeFeatures st -> held (world st))
  /\ (key ∉ activeFeatures st -> free (world st)).

(** The registry is [reg], and the resources follow the activation. *)
Definition settled (reg : gmap string (FeatureModule World)) (key : string)
    (held free : World -> Prop) (st : State World) : Prop :=
  features st = reg /\ follows key held free st.

End Contract.

End Contract.

(* ================================================================== *)
(** * features/widthAdjust, features/tabTitleSync *)
(* ================================================================== *)

Module Features.
Import Content.

(** What the two features read and write of the page. The text of the
    width style is the template of [applyWidth] filled with a width, and is
    kept as that width. *)
Record Page := {
  page_head : DOM.Head Z;
  (** [WidthAdjustFeature]: its variable [storageListener], and the
      listeners its [init] has added to [browser.storage.onChanged] that
      are still there (each [init] makes a new function). *)
  storageListener : option nat;
  onChanged : list nat;
  nextListener : nat;
  (** [TabTitleSyncFeature]: [document.title], its variable
      [intervalId], the intervals and timeouts running [syncTitle]. *)
  title : string;
  intervalId : option nat;
  intervals : list nat;
  timeouts : list nat;
  nextTimerId : nat;
  (** The page: [window.location.pathname], and what
      [DOM.getConversationTitle()] returns. *)
  pathname : string;
  conversationTitle : option string;
}.

Definition set_head (h : DOM.Head Z) (p : Page) : Page :=
  {| page_head := h; storageListener := storageListener p; onChanged := onChanged p;
     nextListener := nextListener p; title := title p; intervalId := intervalId p;
     intervals := intervals p; timeouts := timeouts p; nextTimerId := nextTimerId p;
     pathname := pathname p; conversationTitle := conversationTitle p |}.

Definition set_listeners (v : option nat) (l : list nat) (n : nat) (p : Page) : Page :=
  {| page_head := page_head p; storageListener := v; onChanged := l;
     nextListener := n; title := title p; intervalId := intervalId p;
     intervals := intervals p; timeouts := timeouts p; nextTimerId := nextTimerId p;
     pathname := pathname p; conversationTitle := conversationTitle p |}.

Definition set_title (t : string) (p : Page) : Page :=
  {| page_head := page_head p; storageListener := storageListener p;
     onChanged := onChanged p; nextListener := nextListener p; title := t;
     intervalId := intervalId p; intervals := intervals p; timeouts := timeouts p;
     nextTimerId := nextTimerId p; pathname := pathname p;
     conversationTitle := conversationTitle p |}.

Definition set_timers (v : option nat) (i t : list nat) (n : nat) (p : Page) : Page :=
  {| page_head := page_head p; storageListener := storageListener p;
     onChanged := onChanged p; nextListener := nextListener p; title := title p;
     intervalId := v; intervals := i; timeouts := t; nextTimerId := n;
     pathname := pathname p; conversationTitle := conversationTitle p |}.

(** ** widthAdjust *)

Definition STYLE_ID : string := "voyager-width".

Definition applyWidth (width : Z) (p : Page) : Page :=
  set_head (DOM.injectStyles STYLE_ID width (page_head p)) p.

Definition WidthAdjustFeature : FeatureModule Page :=
  {| key := "widthAdjust";
     init := fun settings p =>
       let p1 := applyWidth (chatWidth settings) p in
       let id := nextListener p1 in
       (Normal, set_listeners (Some id) (onChanged p1 ++ [id]) (S id) p1);
     destroy := fun p =>
       let p1 := set_head (DOM.removeStyles STYLE_ID (page_head p)) p in
       (Normal,
        match storageListener p1 with
        | Some id =>
            set_listeners None (filter (fun l => l <> id) (onChanged p1)) (nextListener p1) p1
        | None => p1
        end);
     onNavigate := None;
     onMessagesChanged := None |}.

(** [browser.storage.onChanged] fires: every listener runs.
    [newValue] is [changes['voyager_settings']?.newValue]. *)
Definition storageChanged (newValue : option VoyagerSettings) (p : Page) : Page :=
  foldl (fun p _ =>
           match newValue with
           | Some newSettings =>
               if (chatWidth newSettings =? 0)%Z then p
               else applyWidth (chatWidth newSettings) p
           | None => p
           end)
        p (onChanged p).

(** ** tabTitleSync *)

Definition syncTitle (p : Page) : Page :=
  if negb (DOMService.isChatPage (pathname p)) then p
  else
    match conversationTitle p with
    | Some convTitle =>
        if negb (String.eqb convTitle "") && negb (String.eqb (title p) convTitle)
        then set_title convTitle p
        else p
    | None => p
    end.

(** [ORIGINAL_TITLE] is [document.title] when the module is loaded. *)
Definition TabTitleSyncFeature (ORIGINAL_TITLE : string) : FeatureModule Page :=
  {| key := "tabTitleSync";
     init := fun _ p =>
       let p1 := syncTitle p in
       let id := nextTimerId p1 in
       (Normal, set_timers (Some id) (intervals p1 ++ [id]) (timeouts p1) (S id) p1);
     destroy := fun p =>
       let p1 :=
         match intervalId p with
         | Some id =>
             set_timers None (filter (fun i => i <> id) (intervals p)) (timeouts p)
               (nextTimerId p) p
         | None => p
         end in
       (Normal, set_title ORIGINAL_TITLE p1);
     onNavigate := Some (fun _ p =>
       let id := nextTimerId p in
       (Normal, set_timers (intervalId p) (intervals p) (timeouts p ++ [id]) (S id) p));
     onMessagesChanged := None |}.

(** ** What each feature holds while it is active *)

Definition styleCount (id : string) (h : list (DOM.StyleElement Z)) : nat :=
  List.length (filter (fun el => DOM.data_voyager_style el = id) h).

(** widthAdjust, active: one width style, one storage listener, the one
    [storageListener] names. Inactive: none of either. *)
Definition width_held (p : Page) : Prop :=
  styleCount STYLE_ID (page_head p) = 1
  /\ exists id, storageListener p = Some id /\ onChanged p = [id].

Definition width_free (p : Page) : Prop :=
  styleCount STYLE_ID (page_head p) = 0
  /\ storageListener p = None /\ onChanged p = [].

(** tabTitleSync, active: one interval, the one [intervalId] names.
    Inactive: none. *)
Definition title_held (p : Page) : Prop :=
  exists id, intervalId p = Some id /\ intervals p = [id].

Definition title_free (p : Page) : Prop :=
  intervalId p = None /\ intervals p = [].

Definition blank (path : string) (t : string) : Page :=
  {| page_head := []; storageListener := None; onChanged := []; nextListener := 1;
     title := t; intervalId := None; intervals := []; timeouts := []; nextTimerId := 1;
     pathname := path; conversationTitle := None |}.

(** The two features registered on a blank page, and a session:
    both switched on, a navigation, the width switched off again. *)
Definition twoFeatures : State Page :=
  registerFeature (TabTitleSyncFeature "Claude")
    (registerFeature WidthAdjustFeature (initial "/new" (blank "/new" "Claude"))).

Definition bothOn : VoyagerSettings :=
  {| locale := en;
     settings_features := [("widthAdjust", true); ("tabTitleSync", true)];
     chatWidth := 1000; schemaVersion := 1 |}.

Definition session : list Event :=
  [SettingsChanged bothOn; NavigationCheck "/chat/ab12";
   FeatureToggle "widthAdjust" false bothOn; SettingsChanged bothOn].

End Features.

(* ================================================================== *)
(** * core/services/MessageService.ts *)
(* ================================================================== *)

Module MessageService.

Section Messaging.
Context {Data Sender : Type}.

Record ExtensionMessage := { type : string; payload : option Data }.

Record ExtensionResponse := {
  success : bool;
  data : option Data;
  error : option string;
}.

(** How a promise ends: fulfilled with a value ([None] is [undefined]),
    rejected with a reason (written as [String(err)] gives it), or never. *)
Inductive Promise :=
  | Fulfilled (value : option ExtensionResponse)
  | Rejected (reason : string)
  | Unsettled.

(** What a call of a handler does: it returns a value, returns a
    promise, or throws. *)
Inductive HandlerResult :=
  | Returns (value : option ExtensionResponse)
  | ReturnsPromise (p : Promise)
  | Throws (reason : string).

Definition MessageHandler := ExtensionMessage -> Sender -> HandlerResult.

Definition on (t : string) (handler : MessageHandler) (handlers : gmap string MessageHandler)
    : gmap string MessageHandler :=
  <[t := handler]> handlers.

Definition off (t : string) (handlers : gmap string MessageHandler)
    : gmap string MessageHandler :=
  delete t handlers.

Definition failure (reason : string) : ExtensionResponse :=
  {| success := false; data := None; error := Some reason |}.

(** The listener that [listen()] installs. [rawMessage] is [None] for
    [null] and [undefined]; a message without a [type] has the empty one.
    The result is [None] for [undefined], and the promise otherwise. *)
Definition listener (handlers : gmap string MessageHandler) (rawMessage : option ExtensionMessage)
    (sender : Sender) : option Promise :=
  match rawMessage with
  | None => None
  | Some message =>
      if String.eqb (type message) "" then None
      else
        match (handlers !! type message : option MessageHandler) with
        | None => None
        | Some handler =>
            match handler message sender with
            | ReturnsPromise (Rejected reason) => Some (Fulfilled (Some (failure reason)))
            | ReturnsPromise p => Some p
            | Returns value => Some (Fulfilled value)
            | Throws reason => Some (Fulfilled (Some (failure reason)))
            end
        end
  end.

(** Calls of [on] and [off], in sequence. *)
Inductive Registration :=
  | On (t : string) (handler : MessageHandler)
  | Off (t : string).

Definition register (r : Registration) (handlers : gmap string MessageHandler)
    : gmap string MessageHandler :=
  match r with
  | On t handler => on t handler handlers
  | Off t => off t handlers
  end.

Definition registerAll (rs : list Registration) (handlers : gmap string MessageHandler)
    : gmap string MessageHandler :=
  foldl (fun handlers r => register r handlers) handlers rs.

(** The handler of type [t] after the calls: that of the last call that
    names [t]. *)
Fixpoint lastHandler (t : string) (rs : list Registration) (before : option MessageHandler)
    : option MessageHandler :=
  match rs with
  | [] => before
  | On t' handler :: rest =>
      lastHandler t rest (if String.eqb t' t then Some handler else before)
  | Off t' :: rest =>
      lastHandler t rest (if String.eqb t' t then None else before)
  end.

End Messaging.

Arguments ExtensionMessage : clear implicits.
Arguments ExtensionResponse : clear implicits.
Arguments Promise : clear implicits.
Arguments HandlerResult : clear implicits.
Arguments MessageHandler : clear implicits.
Arguments Registration : clear implicits.

End MessageService.

(* ================================================================== *)
(** * Properties of the DOM service *)
(* ================================================================== *)

Local Open Scope list_scope.

Example getConversationId_chat :
  DOMService.getConversationId "/chat/3F2a-9b" = Some "3F2a-9b".
Proof. reflexivity. Qed.

Example getConversationId_nested :
  DOMService.getConversationId "/project/x/CHAT/ab12/settings" = Some "ab12".
Proof. reflexivity. Qed.

Example getConversationId_none : DOMService.getConversationId "/recents" = None.
Proof. reflexivity. Qed.

Example getConversationId_stops :
  DOMService.getConversationId "/chat/12g4" = Some "12".
Proof. reflexivity. Qed.

Example isChatPage_examples :
  DOMService.isChatPage "/chat/3f2a-9b" = true /\ DOMService.isChatPage "/chat/3f2a/x" = false
  /\ DOMService.isChatPage "/chat/" = false /\ DOMService.isChatPage "/x/chat/ab" = false.
Proof. repeat split. Qed.

Section RegExpFacts.
Import DOMService.

Lemma append_nil_r (s : string) : s +:+ "" = s.
Proof. induction s as [|a s IH]; [done|]. unfold String.app in *. simpl. by rewrite IH. Qed.

Lemma append_cons a (s t : string) : String a s +:+ t = String a (s +:+ t).
Proof. done. Qed.

Lemma append_snoc (s t : string) a : (s +:+ String a "") +:+ t = s +:+ String a t.
Proof.
  induction s as [|b s IH]; [done|]. by rewrite !append_cons, IH.
Qed.

(** A match at the first start position tried is the result. *)
Lemma exec_here ignoreCase items pos s g :
  matchItems ignoreCase items pos s = Some g -> exec ignoreCase items pos s = Some g.
Proof. intros H. destruct s; simpl; by rewrite H. Qed.

(** With [^] in front, no start position but the first can match. *)
Lemma exec_Bol_later ignoreCase r pos s :
  pos ≠ 0 -> exec ignoreCase (Bol :: r) pos s = None.
Proof.
  revert pos. induction s as [|a s IH]; intros pos Hpos; simpl;
    destruct pos; try done. by apply IH.
Qed.

Lemma exec_Bol ignoreCase r s :
  exec ignoreCase (Bol :: r) 0 s = matchItems ignoreCase r 0 s.
Proof.
  destruct s as [|a s]; simpl; destruct (matchItems ignoreCase r 0 _); try done.
  by apply exec_Bol_later.
Qed.

(** Matching a literal consumes a prefix that spells it. *)
Lemma matchItems_literal ignoreCase lit r pos s g :
  matchItems ignoreCase (literal lit ++ r) pos s = Some g <->
  exists pre rest,
    s = pre +:+ rest /\ sameText ignoreCase lit pre = true
    /\ matchItems ignoreCase r (pos + String.length lit) rest = Some g.
Proof.
  revert pos s. induction lit as [|c lit IH]; intros pos s.
  - unfold literal. simpl. rewrite Nat.add_0_r. split.
    + intros H. by exists "", s.
    + intros (pre & rest & -> & Hpre & H). by destruct pre.
  - unfold literal in *. simpl. destruct s as [|d s].
    + split; [done|]. intros (pre & rest & Hs & Hpre & _).
      destruct pre; [done|]. by rewrite append_cons in Hs.
    + destruct (chrEq ignoreCase c d) eqn:Ec.
      * rewrite IH. split.
        -- intros (pre & rest & -> & Hpre & H). exists (String d pre), rest.
           simpl. rewrite Ec, Hpre. split; [done|]. split; [done|].
           by rewrite <- Nat.add_succ_comm.
        -- intros (pre & rest & Hs & Hpre & H). destruct pre as [|d' pre]; [done|].
           rewrite append_cons in Hs. injection Hs as <- ->.
           simpl in Hpre. rewrite Ec in Hpre. exists pre, rest.
           split; [done|]. split; [done|]. by rewrite Nat.add_succ_comm.
      * split; [done|]. intros (pre & rest & Hs & Hpre & _).
        destruct pre as [|d' pre]; [done|].
        rewrite append_cons in Hs. injection Hs as <- ->.
        simpl in Hpre. by rewrite Ec in Hpre.
Qed.

(** When only the end of the input lets the continuation succeed, a
    successful repetition has run over class characters to the end. *)
Lemma starGreedy_to_end {R} cls (k : string -> nat -> string -> option R)
    taken pos s r :
  (forall t p a rest, k t p (String a rest) = None) ->
  starGreedy cls k taken pos s = Some r -> allIn cls s = true.
Proof.
  intros Hk. revert taken pos. induction s as [|d s IH]; intros taken pos H; [done|].
  simpl in *. destruct (cls d); [|by rewrite Hk in H]. simpl.
  destruct (starGreedy cls k _ _ s) eqn:E; [|by rewrite Hk in H].
  injection H as ->. by eapply IH.
Qed.

(** Greedy repetition over a run of class characters that reaches the
    end of the input takes all of it, if the continuation accepts that. *)
Lemma starGreedy_all {R} cls (k : string -> nat -> string -> option R)
    taken pos s r :
  allIn cls s = true ->
  k (taken +:+ s) (pos + String.length s) "" = Some r ->
  starGreedy cls k taken pos s = Some r.
Proof.
  revert taken pos. induction s as [|d s IH]; intros taken pos Hall Hk;
    cbn [starGreedy allIn String.length] in *.
  - by rewrite append_nil_r, Nat.add_0_r in Hk.
  - apply andb_prop in Hall as [-> Hall].
    rewrite (IH _ _ Hall); [done|].
    rewrite append_snoc. by replace (S pos + String.length s)
      with (pos + S (String.length s)) by lia.
Qed.

(** What a chat page path looks like. *)
Lemma isChatPage_shape pathname :
  isChatPage pathname = true ->
  exists pre segment,
    pathname = pre +:+ segment
    /\ sameText true "/chat/" pre = true
    /\ segment ≠ ""
    /\ allIn (classMatches true hexDash) segment = true.
Proof.
  unfold isChatPage, chatPageRegExp. intros H.
  change ([Bol] ++ literal "/chat/" ++ [PlusClass hexDash false; Eol])
    with (Bol :: (literal "/chat/" ++ [PlusClass hexDash false; Eol])) in H.
  rewrite exec_Bol in H.
  destruct (matchItems true _ 0 pathname) as [g|] eqn:E; [|done].
  apply matchItems_literal in E as (pre & rest & -> & Hpre & E).
  exists pre, rest. split; [done|]. split; [done|].
  destruct rest as [|d s]; [done|]. split; [done|].
  cbn [matchItems] in E.
  destruct (classMatches true hexDash d) eqn:Ed; [|done].
  cbn [allIn]. rewrite Ed. simpl.
  eapply starGreedy_to_end; [|exact E]. done.
Qed.

End RegExpFacts.

(** C10. If [isChatPage] holds of a pathname, the pathname is [/chat/]
    (in any letter case) followed by a non-empty segment of hex digits
    and dashes, and [getConversationId] returns that segment. The
    converse fails: on [/chat/abc/extra], [getConversationId] returns
    [abc] and [isChatPage] is false. *)
Theorem isChatPage_getConversationId :
  (forall pathname,
     DOMService.isChatPage pathname = true ->
     exists pre segment,
       pathname = pre +:+ segment
       /\ DOMService.sameText true "/chat/" pre = true
       /\ segment ≠ ""
       /\ DOMService.allIn (DOMService.classMatches true DOMService.hexDash) segment = true
       /\ DOMService.getConversationId pathname = Some segment)
  /\ DOMService.getConversationId "/chat/abc/extra" = Some "abc"
  /\ DOMService.isChatPage "/chat/abc/extra" = false.
Proof.
  split; [|by vm_compute].
  intros pathname H.
  destruct (isChatPage_shape pathname H) as (pre & segment & -> & Hpre & Hne & Hall).
  exists pre, segment. repeat (split; [done|]).
  unfold DOMService.getConversationId, DOMService.conversationIdRegExp.
  assert (DOMService.matchItems true
            (DOMService.literal "/chat/" ++ [DOMService.PlusClass DOMService.hexDash true])
            0 (pre +:+ segment) = Some (Some segment)) as E.
  { apply matchItems_literal. exists pre, segment. split; [done|]. split; [done|].
    destruct segment as [|d s]; [done|]. cbn [DOMService.matchItems DOMService.allIn] in *.
    apply andb_prop in Hall as [-> Hall].
    apply starGreedy_all; [done|]. done. }
  by rewrite (exec_here _ _ _ _ _ E).
Qed.

Section ObserverFacts.
Import DOMService.
Context {Callback : Type}.
Implicit Types (d : Registry Callback) (name : string) (o : nat).

Lemma consistent_empty : consistent (empty (Callback := Callback)).
Proof.
  unfold consistent, empty. simpl. repeat split.
  - intros name e H. by rewrite lookup_empty in H.
  - intros o c H. by rewrite lookup_empty in H.
  - intros o [c H]. by rewrite lookup_empty in H.
Qed.

Lemma unobserve_consistent name d : consistent d -> consistent (unobserve name d).
Proof.
  intros (Ha & Hb & Hc). unfold unobserve.
  destruct (observers d !! name) as [e0|] eqn:E0; [|done].
  unfold consistent. simpl. repeat split.
  - intros n e He. apply lookup_delete_Some in He as [Hne He].
    destruct (Ha n e He) as (c & Hc1 & Hc2 & Hc3). exists c. split; [|done].
    rewrite lookup_delete_ne; [done|]. intros Heq.
    destruct (Ha name e0 E0) as (c0 & Hc0 & Hn0 & _).
    rewrite Heq in Hc0. congruence.
  - intros o c Ho. apply lookup_delete_Some in Ho as [Hne Ho].
    destruct (Hb o c Ho) as (e & He & Heo). exists e. split; [|done].
    rewrite lookup_delete_ne; [done|]. intros Heq. rewrite <- Heq in He. congruence.
  - intros o [c Ho]. apply lookup_delete_Some in Ho as [_ Ho]. apply Hc. by eexists.
Qed.

Lemma unobserve_lookup name d : observers (unobserve name d) !! name = None.
Proof.
  unfold unobserve. destruct (observers d !! name) eqn:E; [|done].
  simpl. apply lookup_delete_eq.
Qed.

Lemma observe_consistent name tgt cb opts d :
  consistent d -> consistent (observe name tgt cb opts d).
Proof.
  intros Hd. pose proof (unobserve_consistent name d Hd) as (Ha & Hb & Hc).
  pose proof (unobserve_lookup name d) as Hnone.
  unfold observe. set (d1 := unobserve name d) in *.
  assert (connected d1 !! nextObserver d1 = None) as Hfresh.
  { destruct (connected d1 !! nextObserver d1) eqn:E; [|done].
    assert (nextObserver d1 < nextObserver d1) by (apply Hc; by eexists). lia. }
  unfold consistent. simpl. repeat split.
  - intros n e He. apply lookup_insert_Some in He as [[<- <-]|[Hne He]].
    + simpl. rewrite lookup_insert_eq. by eexists.
    + destruct (Ha n e He) as (c & Hc1 & Hc2 & Hc3). exists c. split; [|done].
      rewrite lookup_insert_ne; [done|]. intros Heq. rewrite <- Heq in Hc1. congruence.
  - intros o c Ho. apply lookup_insert_Some in Ho as [[<- <-]|[Hne Ho]].
    + simpl. rewrite lookup_insert_eq. by eexists.
    + destruct (Hb o c Ho) as (e & He & Heo). exists e. split; [|done].
      rewrite lookup_insert_ne; [done|]. intros Heq. rewrite <- Heq in He. congruence.
  - intros o [c Ho]. apply lookup_insert_Some in Ho as [[<- _]|[_ Ho]]; [lia|].
    assert (o < nextObserver d1) by (apply Hc; by eexists). lia.
Qed.

(** [disconnectAll] disconnects exactly the observers of the entries. *)
Lemma disconnectAll_connected d o c :
  connected (disconnectAll d) !! o = Some c <->
  connected d !! o = Some c
  /\ forall name e, observers d !! name = Some e -> observer e ≠ o.
Proof.
  unfold disconnectAll. simpl.
  apply (map_fold_weak_ind
           (fun r (m : gmap string ObserverEntry) =>
              r !! o = Some c <->
              connected d !! o = Some c
              /\ forall name e, m !! name = Some e -> observer e ≠ o)).
  - split; [|tauto]. intros H. split; [done|]. intros n e He.
    by rewrite lookup_empty in He.
  - intros n e m r Hn IH. rewrite lookup_delete_Some, IH. split.
    + intros (Hne & Hc & Hall). split; [done|]. intros n' e' He'.
      apply lookup_insert_Some in He' as [[<- <-]|[_ He']]; [done | by eapply Hall].
    + intros (Hc & Hall). split; [|split; [done|]].
      * apply (Hall n e). apply lookup_insert_eq.
      * intros n' e' He'. apply (Hall n' e').
        rewrite lookup_insert_ne; [done|]. intros <-. congruence.
Qed.

Lemma disconnectAll_consistent d : consistent d -> consistent (disconnectAll d).
Proof.
  intros (Ha & Hb & Hc). unfold consistent. repeat split.
  - intros name e H. simpl in H. by rewrite lookup_empty in H.
  - intros o c Ho. exfalso. apply disconnectAll_connected in Ho as [Ho Hall].
    destruct (Hb o c Ho) as (e & He & Heo). by apply (Hall _ _ He).
  - intros o [c Ho]. apply disconnectAll_connected in Ho as [Ho _].
    simpl. apply Hc. by eexists.
Qed.

Lemma apply_consistent (op : Op Callback) d : consistent d -> consistent (apply op d).
Proof.
  destruct op; simpl;
    auto using observe_consistent, unobserve_consistent, disconnectAll_consistent.
Qed.

Lemma run_consistent (ops : list (Op Callback)) d :
  consistent d -> consistent (run ops d).
Proof.
  revert d. induction ops as [|op ops IH]; intros d Hd; [done|].
  simpl. apply IH. by apply apply_consistent.
Qed.

(** A disconnected observer is never connected again: [observe] always
    makes a new object. *)
Lemma apply_disconnected (op : Op Callback) o d :
  disconnected o d -> disconnected o (apply op d).
Proof.
  intros [Hlt Hnone]. destruct op as [name tgt cb opts|name|]; simpl.
  - unfold observe, disconnected. simpl.
    assert (nextObserver (unobserve name d) = nextObserver d
            /\ connected (unobserve name d) !! o = None) as [En Ec].
    { unfold unobserve. destruct (observers d !! name); simpl; [|done].
      split; [done|]. apply lookup_delete_None. by right. }
    rewrite En. split; [lia|]. rewrite lookup_insert_ne; [done | lia].
  - unfold unobserve, disconnected. destruct (observers d !! name); simpl; [|done].
    split; [done|]. apply lookup_delete_None. by right.
  - split; [done|].
    destruct (connected (disconnectAll d) !! o) as [c|] eqn:E; [|done].
    apply disconnectAll_connected in E as [E _]. congruence.
Qed.

Lemma run_disconnected (ops : list (Op Callback)) o d :
  disconnected o d -> disconnected o (run ops d).
Proof.
  revert d. induction ops as [|op ops IH]; intros d Hd; [done|].
  simpl. apply IH. by apply apply_disconnected.
Qed.

Lemma elem_of_liveWatches name d o c :
  (o, c) ∈ liveWatches name d <-> connected d !! o = Some c /\ mo_name c = name.
Proof.
  unfold liveWatches. rewrite list_elem_of_filter, elem_of_map_to_list. simpl.
  rewrite bool_decide_spec. tauto.
Qed.

Lemma elem_of_notified visible d o c :
  (o, c) ∈ notified visible d <-> connected d !! o = Some c /\ visible (mo_target c) = true.
Proof.
  unfold notified. rewrite list_elem_of_filter, elem_of_map_to_list. simpl.
  rewrite Is_true_true. tauto.
Qed.

Lemma NoDup_liveWatches name d : NoDup (liveWatches name d).
Proof. apply NoDup_filter, NoDup_map_to_list. Qed.

Lemma NoDup_all_equal {A} (l : list A) x :
  NoDup l -> (forall y, y ∈ l -> y = x) -> l = [] \/ l = [x].
Proof.
  intros Hnd Hall. destruct l as [|a [|b l]]; [by left| |].
  - right. f_equal. apply Hall. left.
  - exfalso. apply NoDup_cons in Hnd as [Hnin _].
    apply Hnin. rewrite (Hall a), (Hall b); [left| right; left | left].
Qed.

Lemma liveWatches_le_1 name d :
  consistent d -> List.length (liveWatches name d) <= 1.
Proof.
  intros (_ & Hb & _).
  destruct (liveWatches name d) as [|[o c] l] eqn:E; [simpl; lia|].
  destruct (NoDup_all_equal (liveWatches name d) (o, c)) as [H|H].
  - apply NoDup_liveWatches.
  - assert ((o, c) ∈ liveWatches name d) as Hx by (rewrite E; left).
    apply elem_of_liveWatches in Hx as [Hc Hn].
    intros [o' c'] [Hc' Hn']%elem_of_liveWatches.
    destruct (Hb o c Hc) as (e & He & <-).
    destruct (Hb o' c' Hc') as (e' & He' & <-).
    rewrite Hn in He. rewrite Hn', He in He'. injection He' as <-.
    rewrite Hc in Hc'. by injection Hc' as <-.
  - rewrite E in H. discriminate.
  - rewrite <- E, H. simpl. lia.
Qed.

Lemma observe_registered name tgt cb opts d :
  nextObserver (unobserve name d) = nextObserver d
  /\ observers (observe name tgt cb opts d) !! name
     = Some {| observer := nextObserver d; target := tgt |}
  /\ connected (observe name tgt cb opts d) !! nextObserver d
     = Some {| mo_name := name; mo_target := tgt;
               mo_callback := cb; mo_options := opts |}.
Proof.
  assert (nextObserver (unobserve name d) = nextObserver d) as En.
  { unfold unobserve. by destruct (observers d !! name). }
  unfold observe. simpl. rewrite En, !lookup_insert_eq. done.
Qed.

Lemma liveWatches_observe name tgt cb opts d :
  consistent d ->
  liveWatches name (observe name tgt cb opts d) =
  [(nextObserver d,
    {| mo_name := name; mo_target := tgt; mo_callback := cb; mo_options := opts |})].
Proof.
  intros Hd. destruct (observe_registered name tgt cb opts d) as (_ & Hr & Hc).
  pose proof (observe_consistent name tgt cb opts d Hd) as (_ & Hb & _).
  set (d' := observe name tgt cb opts d) in *.
  set (x := (nextObserver d, _)).
  destruct (NoDup_all_equal (liveWatches name d') x) as [H|H]; [| | |done].
  - apply NoDup_liveWatches.
  - intros [o c] [Hoc Hn]%elem_of_liveWatches.
    destruct (Hb o c Hoc) as (e & He & <-).
    rewrite Hn, Hr in He. injection He as <-. simpl in *.
    unfold x. f_equal. congruence.
  - assert (x ∈ liveWatches name d') as Hx
      by (apply elem_of_liveWatches; by split).
    rewrite H in Hx. by apply elem_of_nil in Hx.
Qed.

(** The watch that [observe] replaces is disconnected by it. *)
Lemma observe_disconnects name tgt cb opts d e :
  consistent d ->
  observers d !! name = Some e ->
  observer e ≠ nextObserver d
  /\ disconnected (observer e) (observe name tgt cb opts d).
Proof.
  intros (Ha & _ & Hc) He.
  destruct (Ha name e He) as (c & Hce & _).
  assert (observer e < nextObserver d) as Hlt by (apply Hc; by eexists).
  split; [lia|]. unfold disconnected, observe, unobserve. rewrite He. simpl.
  split; [lia|]. rewrite lookup_insert_ne by lia. apply lookup_delete_eq.
Qed.

End ObserverFacts.

(** C8. In every state the registry reaches through [observe],
    [unobserve] and [disconnectAll], each name has at most one connected
    watch. [observe] under a name leaves exactly one entry and one
    connected watch for it, the new one; the watch registered under that
    name before is disconnected by the call, is a different object, and
    is among the observers a mutation notifies at no later time,
    whatever calls follow. *)
Theorem observe_replaces {Callback} (ops : list (DOMService.Op Callback))
    name tgt cb opts :
  let d := DOMService.run ops DOMService.empty in
  let d' := DOMService.observe name tgt cb opts d in
  (forall n, List.length (DOMService.liveWatches n d) <= 1)
  /\ DOMService.observers d' !! name
     = Some {| DOMService.observer := DOMService.nextObserver d;
               DOMService.target := tgt |}
  /\ DOMService.liveWatches name d'
     = [(DOMService.nextObserver d,
         {| DOMService.mo_name := name; DOMService.mo_target := tgt;
            DOMService.mo_callback := cb; DOMService.mo_options := opts |})]
  /\ (forall e,
        DOMService.observers d !! name = Some e ->
        DOMService.observer e ≠ DOMService.nextObserver d
        /\ DOMService.connected d' !! DOMService.observer e = None
        /\ forall ops' visible c,
             (DOMService.observer e, c)
               ∉ DOMService.notified visible (DOMService.run ops' d')).
Proof.
  intros d d'.
  assert (DOMService.consistent d) as Hd
    by apply run_consistent, consistent_empty.
  split; [|split; [|split]].
  - intros n. by apply liveWatches_le_1.
  - apply observe_registered.
  - by apply liveWatches_observe.
  - intros e He.
    destruct (observe_disconnects name tgt cb opts d e Hd He) as [Hne Hdis].
    split; [done|]. split; [apply Hdis|].
    intros ops' visible c [Hc _]%elem_of_notified.
    destruct (run_disconnected ops' _ _ Hdis) as [_ Hnone].
    fold d' in Hnone. rewrite Hnone in Hc. discriminate.
Qed.

(* ================================================================== *)
(** * Properties of the lifecycle *)
(* ================================================================== *)

Import Content.

Section LifecycleFacts.
Context {World : Type}.
Implicit Types (st : State World) (key : string).

Lemma count_app p (a b : list Call) : count p (a ++ b) = count p a + count p b.
Proof. unfold count. by rewrite List.filter_app, length_app. Qed.

Lemma Set_has_true key (s : list string) : Set_has key s = true <-> key ∈ s.
Proof. unfold Set_has. apply bool_decide_eq_true. Qed.

Lemma Set_has_false key (s : list string) : Set_has key s = false <-> key ∉ s.
Proof. unfold Set_has. apply bool_decide_eq_false. Qed.

Lemma elem_of_Set_add k key (s : list string) :
  k ∈ Set_add key s <-> k = key \/ k ∈ s.
Proof.
  unfold Set_add. destruct (Set_has key s) eqn:E.
  - apply Set_has_true in E. split; [auto | intros [->|]; auto].
  - rewrite elem_of_app, list_elem_of_singleton. tauto.
Qed.

Lemma elem_of_Set_delete k key (s : list string) :
  k ∈ Set_delete key s <-> k ≠ key /\ k ∈ s.
Proof. unfold Set_delete. rewrite list_elem_of_filter. tauto. Qed.

Lemma activateFeature_active key settings st :
  key ∈ activeFeatures st -> activateFeature key settings st = st.
Proof.
  intros H. unfold activateFeature.
  apply Set_has_true in H. by rewrite H.
Qed.

Lemma deactivateFeature_inactive key st :
  key ∉ activeFeatures st -> deactivateFeature key st = st.
Proof.
  intros H. unfold deactivateFeature.
  apply Set_has_false in H. by rewrite H.
Qed.

(** What one activation of an inactive, registered key does. *)
Lemma activateFeature_inactive key settings st module :
  key ∉ activeFeatures st ->
  features st !! key = Some module ->
  let st' := activateFeature key settings st in
  let r := init module settings (world st) in
  calls st' = calls st ++ [CallInit key settings]
  /\ world st' = r.2
  /\ features st' = features st
  /\ activeFeatures st' =
       (if r.1 is Normal then activeFeatures st ++ [key] else activeFeatures st)
  /\ log st' =
       log st ++ [if r.1 is Normal then LogFeatureActivated key else LogActivateFailed key].
Proof.
  intros Hin Hreg. unfold activateFeature.
  pose proof Hin as Hin'. apply Set_has_false in Hin'. rewrite Hin', Hreg.
  destruct (init module settings (world st)) as [[] w]; simpl;
    unfold Set_add; simpl; rewrite ?Hin'; done.
Qed.

(** What one deactivation of an active, registered key does. *)
Lemma deactivateFeature_registered key st module :
  key ∈ activeFeatures st ->
  features st !! key = Some module ->
  let st' := deactivateFeature key st in
  let r := destroy module (world st) in
  calls st' = calls st ++ [CallDestroy key]
  /\ world st' = r.2
  /\ features st' = features st
  /\ activeFeatures st' = Set_delete key (activeFeatures st)
  /\ log st' =
       log st ++ (if r.1 is Normal then [] else [LogDestroyError key])
              ++ [LogFeatureDeactivated key].
Proof.
  intros Hin Hreg. unfold deactivateFeature.
  apply Set_has_true in Hin. rewrite Hin, Hreg. simpl.
  destruct (destroy module (world st)) as [[] w]; simpl; rewrite <- ?app_assoc; done.
Qed.

Lemma count_snoc p (cs : list Call) c :
  count p (cs ++ [c]) = count p cs + (if p c then 1 else 0).
Proof. rewrite count_app. unfold count. simpl. by destruct (p c). Qed.

Lemma untouched_refl key st : untouched key st st.
Proof. by unfold untouched. Qed.

Lemma untouched_trans key st1 st2 st3 :
  untouched key st1 st2 -> untouched key st2 st3 -> untouched key st1 st3.
Proof.
  unfold untouched. intros (Ha & Hi & Hd) (Ha' & Hi' & Hd').
  rewrite Ha', Ha, Hi', Hi, Hd', Hd. done.
Qed.

Lemma activateFeature_features key settings st :
  features (activateFeature key settings st) = features st.
Proof.
  unfold activateFeature. destruct (Set_has _ _); [done|].
  destruct (features st !! key) as [m|]; [|done].
  by destruct (init m settings (world st)) as [[] w].
Qed.

Lemma deactivateFeature_features key st :
  features (deactivateFeature key st) = features st.
Proof.
  unfold deactivateFeature. destruct (Set_has _ _); [|done]. simpl.
  destruct (features st !! key) as [m|]; [|done].
  by destruct (destroy m (world st)) as [[] w].
Qed.

(** An activation concerns its own key only. *)
Lemma activateFeature_untouched k key settings st :
  k ≠ key -> untouched k st (activateFeature key settings st).
Proof.
  intros Hne. unfold untouched, activateFeature, initCalls, destroyCalls.
  destruct (Set_has key (activeFeatures st)); [done|].
  destruct (features st !! key) as [m|]; [|done].
  assert (String.eqb key k = false) as Hk by (apply String.eqb_neq; congruence).
  destruct (init m settings (world st)) as [[] w]; simpl;
    rewrite !count_snoc; simpl; rewrite ?Hk, ?Nat.add_0_r;
    rewrite ?elem_of_Set_add; intuition congruence.
Qed.

(** A deactivation concerns its own key only. *)
Lemma deactivateFeature_untouched k key st :
  k ≠ key -> untouched k st (deactivateFeature key st).
Proof.
  intros Hne. unfold untouched, deactivateFeature, initCalls, destroyCalls.
  destruct (Set_has key (activeFeatures st)); [|done]. simpl.
  assert (String.eqb key k = false) as Hk by (apply String.eqb_neq; congruence).
  destruct (features st !! key) as [m|];
    [destruct (destroy m (world st)) as [[] w]|]; simpl;
    rewrite ?count_snoc; simpl; rewrite ?Hk, ?Nat.add_0_r;
    rewrite elem_of_Set_delete; intuition congruence.
Qed.

Lemma syncLoop_cons settings key keys st :
  syncLoop settings (key :: keys) st =
  syncLoop settings keys
    (if get (settings_features settings) key
     then activateFeature key settings st else deactivateFeature key st).
Proof. done. Qed.

Lemma syncLoop_features settings keys st :
  features (syncLoop settings keys st) = features st.
Proof.
  revert st. induction keys as [|key keys IH]; intros st; [done|].
  rewrite syncLoop_cons, IH.
  destruct (get _ key); auto using activateFeature_features, deactivateFeature_features.
Qed.

(** The loop leaves alone every key it does not visit. *)
Lemma syncLoop_untouched k settings keys st :
  k ∉ keys -> untouched k st (syncLoop settings keys st).
Proof.
  revert st. induction keys as [|key keys IH]; intros st Hk.
  - apply untouched_refl.
  - rewrite syncLoop_cons. apply not_elem_of_cons in Hk as [Hne Hk].
    eapply untouched_trans; [|by apply IH].
    destruct (get _ key);
      auto using activateFeature_untouched, deactivateFeature_untouched.
Qed.

Lemma setSidebarPinningEnabled_frame enabled st :
  let st' := setSidebarPinningEnabled enabled st in
  features st' = features st /\ activeFeatures st' = activeFeatures st
  /\ calls st' = calls st /\ log st' = log st /\ world st' = world st
  /\ lastPath st' = lastPath st.
Proof. unfold setSidebarPinningEnabled. by destruct (Bool.eqb _ _). Qed.

Lemma syncLoop_app settings l1 l2 st :
  syncLoop settings (l1 ++ l2) st = syncLoop settings l2 (syncLoop settings l1 st).
Proof. unfold syncLoop. by rewrite foldl_app. Qed.

Lemma get_true_key (o : FeatureToggles) key : get o key = true -> key ∈ Object_keys o.
Proof.
  unfold Object_keys. induction o as [|[k v] o IH]; simpl; [done|].
  destruct (String.eqb k key) eqn:E.
  - apply String.eqb_eq in E as ->. intros _. left.
  - intros H. right. by apply IH.
Qed.

(** The loop only appends to the log. *)
Lemma syncLoop_log settings keys st :
  exists l, log (syncLoop settings keys st) = log st ++ l.
Proof.
  revert st. induction keys as [|key keys IH]; intros st.
  - exists []. by rewrite app_nil_r.
  - rewrite syncLoop_cons.
    match goal with |- context [syncLoop _ _ ?s] => destruct (IH s) as [l ->] end.
    assert (exists l0,
      log (if get (settings_features settings) key
           then activateFeature key settings st else deactivateFeature key st)
      = log st ++ l0) as [l0 ->]; [|exists (l0 ++ l); by rewrite app_assoc].
    destruct (get _ key).
    + unfold activateFeature. destruct (Set_has _ _);
        [exists []; by rewrite app_nil_r|].
      destruct (features st !! key) as [m|]; [|by eexists].
      destruct (init m settings (world st)) as [[] w]; by eexists.
    + unfold deactivateFeature. destruct (Set_has _ _); simpl;
        [|exists []; by rewrite app_nil_r].
      destruct (features st !! key) as [m|];
        [destruct (destroy m (world st)) as [[] w]|]; simpl;
        rewrite <- ?app_assoc; by eexists.
Qed.

(** The loop visits [key] once: what runs before and after the visit
    leaves [key] alone. *)
Lemma syncLoop_split settings keys key st :
  NoDup keys -> key ∈ keys ->
  exists l1 l2,
    (key ∉ l1) /\ (key ∉ l2)
    /\ syncLoop settings keys st =
         syncLoop settings l2
           (let st1 := syncLoop settings l1 st in
            if get (settings_features settings) key
            then activateFeature key settings st1 else deactivateFeature key st1).
Proof.
  intros Hnd Hin. apply list_elem_of_split in Hin as (l1 & l2 & ->).
  apply NoDup_app in Hnd as (_ & Hl1 & Hnd2).
  apply NoDup_cons in Hnd2 as (Hl2 & _).
  exists l1, l2. split; [|split; [done|]].
  - intros Hin. apply (Hl1 _ Hin). left.
  - by rewrite syncLoop_app, syncLoop_cons.
Qed.

Lemma syncLoop_visit settings keys key st :
  NoDup keys -> key ∈ keys ->
  exists st1,
    untouched key st st1 /\ features st1 = features st
    /\ untouched key
         (if get (settings_features settings) key
          then activateFeature key settings st1 else deactivateFeature key st1)
         (syncLoop settings keys st).
Proof.
  intros Hnd Hin.
  destruct (syncLoop_split settings keys key st Hnd Hin) as (l1 & l2 & H1 & H2 & ->).
  exists (syncLoop settings l1 st). simpl.
  auto using syncLoop_untouched, syncLoop_features.
Qed.

(** The effect of one pass of the loop on an enabled, registered key. *)
Lemma syncFeatures_enabled settings st key module :
  NoDup (Object_keys (settings_features settings)) ->
  key ∈ Object_keys (settings_features settings) ->
  get (settings_features settings) key = true ->
  features st !! key = Some module ->
  let st' := syncFeatures settings st in
  destroyCalls key (calls st') = destroyCalls key (calls st)
  /\ (key ∈ activeFeatures st ->
      key ∈ activeFeatures st'
      /\ initCalls key (calls st') = initCalls key (calls st))
  /\ (key ∉ activeFeatures st ->
      initCalls key (calls st') = initCalls key (calls st) + 1
      /\ exists w, (key ∈ activeFeatures st' <-> (init module settings w).1 = Normal)).
Proof.
  intros Hnd Hin Hget Hreg st'.
  destruct (syncLoop_visit settings _ key st Hnd Hin) as (st1 & U1 & F1 & U2).
  rewrite Hget in U2.
  destruct (setSidebarPinningEnabled_frame
              (get (settings_features settings) "folders")
              (syncLoop settings (Object_keys (settings_features settings)) st))
    as (_ & Ea & Ec & _).
  fold (syncFeatures settings st) in Ea, Ec. fold st' in Ea, Ec.
  rewrite Ea, Ec. clear Ea Ec st'.
  destruct U1 as (A1 & I1 & D1), U2 as (A2 & I2 & D2).
  rewrite <- F1 in Hreg.
  destruct (decide (key ∈ activeFeatures st1)) as [Hact|Hact].
  - rewrite (activateFeature_active _ _ _ Hact) in A2, I2, D2.
    split; [congruence|]. split; [|tauto].
    intros _. split; [tauto | congruence].
  - destruct (activateFeature_inactive key settings st1 module Hact Hreg)
      as (Ec & _ & _ & Ea & _).
    rewrite D2, I2. unfold initCalls, destroyCalls in *.
    rewrite Ec, !count_snoc. simpl. rewrite String.eqb_refl, Nat.add_0_r.
    split; [done|]. split; [tauto|]. intros _. split; [congruence|].
    exists (world st1). rewrite A2, Ea.
    destruct (init module settings (world st1)) as [[] w]; simpl.
    + rewrite elem_of_app, list_elem_of_singleton. tauto.
    + split; [done | congruence].
Qed.

(** The effect of one pass of the loop on a disabled key. *)
Lemma syncFeatures_disabled settings st key :
  NoDup (Object_keys (settings_features settings)) ->
  key ∈ Object_keys (settings_features settings) ->
  get (settings_features settings) key = false ->
  (key ∈ activeFeatures st -> is_Some (features st !! key)) ->
  let st' := syncFeatures settings st in
  (key ∉ activeFeatures st')
  /\ initCalls key (calls st') = initCalls key (calls st)
  /\ destroyCalls key (calls st') =
       destroyCalls key (calls st) + (if Set_has key (activeFeatures st) then 1 else 0).
Proof.
  intros Hnd Hin Hget Hreg st'.
  destruct (syncLoop_visit settings _ key st Hnd Hin) as (st1 & U1 & F1 & U2).
  rewrite Hget in U2.
  destruct (setSidebarPinningEnabled_frame
              (get (settings_features settings) "folders")
              (syncLoop settings (Object_keys (settings_features settings)) st))
    as (_ & Ea & Ec & _).
  fold (syncFeatures settings st) in Ea, Ec. fold st' in Ea, Ec.
  rewrite Ea, Ec. clear Ea Ec st'.
  destruct U1 as (A1 & I1 & D1), U2 as (A2 & I2 & D2).
  rewrite <- F1 in Hreg.
  destruct (decide (key ∈ activeFeatures st1)) as [Hact|Hact].
  - destruct Hreg as [m Hm]; [tauto|].
    destruct (deactivateFeature_registered key st1 m Hact Hm)
      as (Ec & _ & _ & Ea & _).
    rewrite A2, I2, D2, Ea. unfold initCalls, destroyCalls in *.
    rewrite Ec, !count_snoc. simpl. rewrite String.eqb_refl, Nat.add_0_r.
    assert (Set_has key (activeFeatures st) = true) as ->
      by (apply Set_has_true; tauto).
    rewrite elem_of_Set_delete. split; [tauto|]. split; congruence.
  - rewrite (deactivateFeature_inactive _ _ Hact) in A2, I2, D2.
    assert (Set_has key (activeFeatures st) = false) as ->
      by (apply Set_has_false; tauto).
    rewrite Nat.add_0_r. split; [tauto|]. split; congruence.
Qed.

Lemma syncFeatures_log settings st :
  exists l, log (syncFeatures settings st) = log st ++ l.
Proof.
  unfold syncFeatures.
  destruct (setSidebarPinningEnabled_frame
              (get (settings_features settings) "folders")
              (syncLoop settings (Object_keys (settings_features settings)) st))
    as (_ & _ & _ & -> & _).
  apply syncLoop_log.
Qed.

Lemma keysBefore_split key (keys : list string) :
  key ∈ keys ->
  exists post, keys = keysBefore key keys ++ key :: post /\ key ∉ keysBefore key keys.
Proof.
  induction keys as [|k keys IH]; [by intros ?%elem_of_nil|].
  intros Hin. simpl. destruct (String.eqb_spec k key) as [->|Hne].
  - exists keys. split; [done|]. by intros ?%elem_of_nil.
  - apply elem_of_cons in Hin as [->|Hin]; [done|].
    destruct (IH Hin) as (post & E & Hn). exists post. split.
    + simpl. by rewrite <- E.
    + apply not_elem_of_cons. split; [congruence|done].
Qed.

(** An enabled, registered, Inactive key: whether it ends Active is the
    completion of its [init] in the world in which the loop comes to it,
    and a failure is in the log of the whole pass. *)
Lemma syncFeatures_reach settings st key module :
  NoDup (Object_keys (settings_features settings)) ->
  get (settings_features settings) key = true ->
  features st !! key = Some module ->
  key ∉ activeFeatures st ->
  let r := init module settings (worldAt settings key st) in
  let st' := syncFeatures settings st in
  (key ∈ activeFeatures st' <-> r.1 = Normal)
  /\ (r.1 = Throw -> LogActivateFailed key ∈ log st').
Proof.
  intros Hnd Hget Hreg Hin. cbv zeta. unfold syncFeatures, worldAt. cbv zeta.
  destruct (setSidebarPinningEnabled_frame
              (get (settings_features settings) "folders")
              (syncLoop settings (Object_keys (settings_features settings)) st))
    as (_ & -> & _ & -> & _).
  destruct (keysBefore_split key _ (get_true_key _ _ Hget)) as (post & E & H1).
  set (pre := keysBefore key (Object_keys (settings_features settings))) in *.
  rewrite E in Hnd. rewrite E.
  assert (key ∉ post) as H2.
  { apply NoDup_app in Hnd as (_ & _ & Hnd). by apply NoDup_cons in Hnd as [? _]. }
  rewrite !syncLoop_app, !syncLoop_cons, Hget.
  destruct (syncLoop_untouched key settings pre st H1) as (A1 & _).
  set (st1 := syncLoop settings pre st) in *.
  assert (features st1 !! key = Some module) as Hreg1
    by (unfold st1; by rewrite syncLoop_features).
  assert (key ∉ activeFeatures st1) as Hin1 by tauto.
  destruct (activateFeature_inactive key settings st1 module Hin1 Hreg1)
    as (_ & _ & _ & Ea & El).
  destruct (syncLoop_untouched key settings post (activateFeature key settings st1) H2)
    as (A2 & _).
  destruct (syncLoop_log settings post (activateFeature key settings st1)) as [l ->].
  rewrite A2, Ea, El.
  destruct (init module settings (world st1)) as [[] w]; simpl.
  - split; [|done]. rewrite elem_of_app, list_elem_of_singleton. tauto.
  - split; [split; [done|congruence]|]. intros _.
    rewrite !elem_of_app, list_elem_of_singleton. auto.
Qed.

(** After a pass the sidebar flag is the [folders] flag of the settings,
    whatever became of the [folders] feature; the registry is as before. *)
Lemma syncFeatures_sidebar settings st :
  sidebarPinningEnabled (syncFeatures settings st)
  = get (settings_features settings) "folders"
  /\ features (syncFeatures settings st) = features st.
Proof.
  unfold syncFeatures. cbv zeta. split.
  - unfold setSidebarPinningEnabled.
    destruct (Bool.eqb_spec
                (sidebarPinningEnabled
                   (syncLoop settings (Object_keys (settings_features settings)) st))
                (get (settings_features settings) "folders")); done.
  - destruct (setSidebarPinningEnabled_frame
                (get (settings_features settings) "folders")
                (syncLoop settings (Object_keys (settings_features settings)) st))
      as (-> & _).
    apply syncLoop_features.
Qed.

End LifecycleFacts.

(* ------------------------------------------------------------------ *)
(** ** Idempotence of the two transitions *)
(* ------------------------------------------------------------------ *)

(** C4, as amended. For a registered key whose [init] returns normally
    when it runs, two calls of [activateFeature] in a row call [init]
    once if the key was Inactive (and not at all if it was Active
    already), leave the key Active, and the second call changes nothing
    at all in the state. *)
Theorem activateFeature_twice {World} (st : State World) key s1 s2 module :
  features st !! key = Some module ->
  (key ∉ activeFeatures st -> (init module s1 (world st)).1 = Normal) ->
  let st1 := activateFeature key s1 st in
  let st2 := activateFeature key s2 st1 in
  st2 = st1
  /\ key ∈ activeFeatures st1
  /\ initCalls key (calls st2) =
       initCalls key (calls st) + (if Set_has key (activeFeatures st) then 0 else 1).
Proof.
  intros Hreg Hok st1 st2.
  assert (key ∈ activeFeatures st1
          /\ initCalls key (calls st1) =
               initCalls key (calls st)
               + (if Set_has key (activeFeatures st) then 0 else 1)) as [Hact Hn].
  { subst st1. destruct (decide (key ∈ activeFeatures st)) as [Hin|Hin].
    - rewrite (activateFeature_active _ _ _ Hin).
      apply Set_has_true in Hin as Hb. rewrite Hb. split; [done | lia].
    - destruct (activateFeature_inactive key s1 st module Hin Hreg)
        as (Ec & _ & _ & Ea & _).
      rewrite Ea, (Hok Hin). unfold initCalls. rewrite Ec, count_snoc. simpl.
      rewrite String.eqb_refl.
      apply Set_has_false in Hin as Hb. rewrite Hb.
      split; [|done]. apply elem_of_app. right. left. }
  assert (st2 = st1) as E by (by apply activateFeature_active).
  rewrite E. done.
Qed.

(** The sample: a module whose [init] succeeds, activated twice. *)
Lemma activateFeature_twice_witness :
  let st := Samples.registered [Samples.steady "timeline"] in
  let s := Samples.settingsOf [("timeline", true)] in
  let st1 := activateFeature "timeline" s st in
  let st2 := activateFeature "timeline" s st1 in
  st2 = st1
  /\ "timeline" ∈ activeFeatures st1
  /\ initCalls "timeline" (calls st2) =
       initCalls "timeline" (calls st)
       + (if Set_has "timeline" (activeFeatures st) then 0 else 1).
Proof.
  apply (activateFeature_twice
           (Samples.registered [Samples.steady "timeline"]) "timeline"
           (Samples.settingsOf [("timeline", true)])
           (Samples.settingsOf [("timeline", true)])
           (Samples.steady "timeline")).
  - reflexivity.
  - intros _. reflexivity.
Defined.

(** C4 as first stated fails: when [init] throws, nothing is recorded,
    and the second [activateFeature] calls [init] again. *)
Lemma activateFeature_twice_counterexample :
  let st := Samples.registered [Samples.crashing "timeline"] in
  let s := Samples.settingsOf [("timeline", true)] in
  let st1 := activateFeature "timeline" s st in
  let st2 := activateFeature "timeline" s st1 in
  features st !! "timeline" = Some (Samples.crashing "timeline")
  /\ initCalls "timeline" (calls st) = 0
  /\ initCalls "timeline" (calls st2) = 2
  /\ st2 <> st1.
Proof.
  repeat split; try reflexivity.
  intros E. apply (f_equal (fun s => List.length (calls s))) in E.
  vm_compute in E. discriminate.
Qed.

(** C5. For an Active, registered key, [deactivateFeature] calls
    [destroy] and removes the key from the active set whether or not
    [destroy] throws (a throw is logged and goes no further); a second
    call in a row changes nothing, so [destroy] was called once in all. *)
Theorem deactivateFeature_twice {World} (st : State World) key module :
  features st !! key = Some module ->
  key ∈ activeFeatures st ->
  let st1 := deactivateFeature key st in
  let st2 := deactivateFeature key st1 in
  calls st1 = calls st ++ [CallDestroy key]
  /\ (key ∉ activeFeatures st1)
  /\ ((destroy module (world st)).1 = Throw -> LogDestroyError key ∈ log st1)
  /\ st2 = st1
  /\ destroyCalls key (calls st2) = destroyCalls key (calls st) + 1.
Proof.
  intros Hreg Hin st1 st2.
  destruct (deactivateFeature_registered key st module Hin Hreg)
    as (Ec & _ & _ & Ea & El).
  fold st1 in Ec, Ea, El.
  assert (key ∉ activeFeatures st1) as Hout.
  { rewrite Ea, elem_of_Set_delete. tauto. }
  assert (st2 = st1) as E by (by apply deactivateFeature_inactive).
  split; [done|]. split; [done|]. split; [|split; [done|]].
  - intros Ht. rewrite El, Ht. set_solver.
  - rewrite E. unfold destroyCalls. rewrite Ec, count_snoc. simpl.
    by rewrite String.eqb_refl.
Qed.

(** The sample: an active module whose [destroy] throws. *)
Lemma deactivateFeature_twice_witness :
  let s := Samples.settingsOf [("export", true)] in
  let st := activateFeature "export" s (Samples.registered [Samples.fragile "export"]) in
  let st1 := deactivateFeature "export" st in
  let st2 := deactivateFeature "export" st1 in
  calls st1 = calls st ++ [CallDestroy "export"]
  /\ ("export" ∉ activeFeatures st1)
  /\ ((destroy (Samples.fragile "export") (world st)).1 = Throw ->
      LogDestroyError "export" ∈ log st1)
  /\ st2 = st1
  /\ destroyCalls "export" (calls st2) = destroyCalls "export" (calls st) + 1.
Proof.
  apply (deactivateFeature_twice
           (activateFeature "export" (Samples.settingsOf [("export", true)])
              (Samples.registered [Samples.fragile "export"]))
           "export" (Samples.fragile "export")).
  - reflexivity.
  - by apply (bool_decide_unpack _).
Defined.

(* ------------------------------------------------------------------ *)
(** ** Settings sync *)
(* ------------------------------------------------------------------ *)

(** C1, as amended. Let the settings enable two registered features: A,
    Inactive, whose [init] throws when the pass calls it, and B. After
    [syncFeatures] (which completes: nothing escapes), A is still Inactive,
    its [init] was called once, its [destroy] not at all, and the failure
    was logged; the registry is as before. The sidebar flag, however, is
    the [folders] flag of the settings also when A is [folders]. The
    [init] of B was called once if B was Inactive before and not at all
    if it was Active; and B is Active afterwards exactly if it was Active
    before or its own [init] returned normally when the pass called it:
    the failure of A plays no part in it. *)
Theorem syncFeatures_isolation {World} (st : State World) settings A B mA mB :
  NoDup (Object_keys (settings_features settings)) ->
  get (settings_features settings) A = true ->
  features st !! A = Some mA ->
  A ∉ activeFeatures st ->
  (init mA settings (worldAt settings A st)).1 = Throw ->
  get (settings_features settings) B = true ->
  features st !! B = Some mB ->
  let st' := syncFeatures settings st in
  (A ∉ activeFeatures st')
  /\ initCalls A (calls st') = initCalls A (calls st) + 1
  /\ destroyCalls A (calls st') = destroyCalls A (calls st)
  /\ LogActivateFailed A ∈ log st'
  /\ features st' = features st
  /\ sidebarPinningEnabled st' = get (settings_features settings) "folders"
  /\ initCalls B (calls st') =
       initCalls B (calls st) + (if Set_has B (activeFeatures st) then 0 else 1)
  /\ (B ∈ activeFeatures st' <->
      B ∈ activeFeatures st \/ (init mB settings (worldAt settings B st)).1 = Normal).
Proof.
  intros Hnd HgA HrA HiA HtA HgB HrB st'.
  destruct (syncFeatures_enabled settings st A mA Hnd (get_true_key _ _ HgA) HgA HrA)
    as (HdA & _ & HA).
  destruct (HA HiA) as (HcA & _). fold st' in HcA, HdA.
  destruct (syncFeatures_reach settings st A mA Hnd HgA HrA HiA) as (HwA & HlA).
  fold st' in HwA, HlA.
  destruct (syncFeatures_enabled settings st B mB Hnd (get_true_key _ _ HgB) HgB HrB)
    as (_ & HB1 & HB2).
  fold st' in HB1, HB2.
  destruct (syncFeatures_sidebar settings st) as (Hs & Hf). fold st' in Hs, Hf.
  split; [|split; [done|split; [done|split; [by apply HlA|split; [done|split; [done|]]]]]].
  - rewrite HwA, HtA. done.
  - destruct (decide (B ∈ activeFeatures st)) as [Hin|Hin].
    + destruct (HB1 Hin) as [? ->].
      apply Set_has_true in Hin as E. rewrite E. split; [lia | tauto].
    + destruct (HB2 Hin) as (-> & _).
      apply Set_has_false in Hin as E. rewrite E. split; [done|].
      destruct (syncFeatures_reach settings st B mB Hnd HgB HrB Hin) as (HwB & _).
      fold st' in HwB. rewrite HwB. tauto.
Qed.

(** The sample: [folders] crashes and is listed before a steady
    [timeline]. [timeline] ends Active; [folders] does not, and the sidebar
    flag is set all the same. *)
Lemma syncFeatures_isolation_witness :
  let st := Samples.registered [Samples.crashing "folders"; Samples.steady "timeline"] in
  let s := Samples.settingsOf [("folders", true); ("timeline", true)] in
  let st' := syncFeatures s st in
  ("folders" ∉ activeFeatures st')
  /\ initCalls "folders" (calls st') = initCalls "folders" (calls st) + 1
  /\ destroyCalls "folders" (calls st') = destroyCalls "folders" (calls st)
  /\ LogActivateFailed "folders" ∈ log st'
  /\ features st' = features st
  /\ sidebarPinningEnabled st' = get (settings_features s) "folders"
  /\ initCalls "timeline" (calls st') =
       initCalls "timeline" (calls st)
       + (if Set_has "timeline" (activeFeatures st) then 0 else 1)
  /\ ("timeline" ∈ activeFeatures st' <->
      "timeline" ∈ activeFeatures st
      \/ (init (Samples.steady "timeline") s (worldAt s "timeline" st)).1 = Normal).
Proof.
  apply (syncFeatures_isolation
           (Samples.registered [Samples.crashing "folders"; Samples.steady "timeline"])
           (Samples.settingsOf [("folders", true); ("timeline", true)])
           "folders" "timeline" (Samples.crashing "folders") (Samples.steady "timeline")).
  - by apply (bool_decide_unpack _).
  - reflexivity.
  - reflexivity.
  - by apply (bool_decide_unpack _).
  - reflexivity.
  - reflexivity.
  - reflexivity.
Defined.

(** C1 as first stated fails: with A and B both enabled and registered
    and both [init]s throwing, B does not reach Active; and with B Active
    already, the [init] of B is not called. In the first sample A is
    [folders]: it stays Inactive, yet the sidebar flag is set. *)
Lemma syncFeatures_isolation_counterexample :
  let s := Samples.settingsOf [("folders", true); ("timeline", true)] in
  let st := Samples.registered [Samples.crashing "folders"; Samples.crashing "timeline"] in
  let st' := syncFeatures s st in
  let st2 :=
    activateFeature "timeline" s
      (Samples.registered [Samples.crashing "folders"; Samples.steady "timeline"]) in
  let st2' := syncFeatures s st2 in
  (get (settings_features s) "folders" = true
   /\ get (settings_features s) "timeline" = true
   /\ features st !! "folders" = Some (Samples.crashing "folders")
   /\ features st !! "timeline" = Some (Samples.crashing "timeline")
   /\ activeFeatures st = []
   /\ activeFeatures st' = []
   /\ initCalls "timeline" (calls st') = 1
   /\ sidebarPinningEnabled st' = true)
  /\ (activeFeatures st2 = ["timeline"]
      /\ activeFeatures st2' = ["timeline"]
      /\ initCalls "folders" (calls st2') = initCalls "folders" (calls st2) + 1
      /\ initCalls "timeline" (calls st2') = initCalls "timeline" (calls st2)).
Proof. vm_compute. repeat split. Qed.

(** C2, as amended. After [syncFeatures], for the keys of the settings:
    an enabled, registered key whose [init] returns normally is Active,
    [init] having been called once if it was Inactive and not at all if it
    was Active; an enabled, registered, Inactive key whose [init] throws
    is still Inactive after one call of [init]; a disabled key is
    Inactive, [destroy] having been called once if it was Active and not
    at all otherwise. With A Active, B Inactive and settings
    [{A: false, B: true}], [destroy] of A and [init] of B are called once
    each and the active set becomes exactly [{B}]. *)
Theorem syncFeatures_reconciles {World} (st : State World) settings :
  wf st ->
  NoDup (Object_keys (settings_features settings)) ->
  let st' := syncFeatures settings st in
  (forall key module,
     get (settings_features settings) key = true ->
     features st !! key = Some module ->
     (forall w, (init module settings w).1 = Normal) ->
     key ∈ activeFeatures st'
     /\ initCalls key (calls st') =
          initCalls key (calls st) + (if Set_has key (activeFeatures st) then 0 else 1)
     /\ destroyCalls key (calls st') = destroyCalls key (calls st))
  /\ (forall key module,
        get (settings_features settings) key = true ->
        features st !! key = Some module ->
        key ∉ activeFeatures st ->
        (forall w, (init module settings w).1 = Throw) ->
        (key ∉ activeFeatures st')
        /\ initCalls key (calls st') = initCalls key (calls st) + 1
        /\ destroyCalls key (calls st') = destroyCalls key (calls st))
  /\ (forall key,
        key ∈ Object_keys (settings_features settings) ->
        get (settings_features settings) key = false ->
        (key ∉ activeFeatures st')
        /\ destroyCalls key (calls st') =
             destroyCalls key (calls st) + (if Set_has key (activeFeatures st) then 1 else 0)
        /\ initCalls key (calls st') = initCalls key (calls st))
  /\ (forall A B mB,
        settings_features settings = [(A, false); (B, true)] ->
        activeFeatures st = [A] ->
        features st !! B = Some mB ->
        (forall w, (init mB settings w).1 = Normal) ->
        destroyCalls A (calls st') = destroyCalls A (calls st) + 1
        /\ initCalls B (calls st') = initCalls B (calls st) + 1
        /\ activeFeatures st' = [B]).
Proof.
  intros [Hnda Hwf] Hnd st'. split; [|split; [|split]].
  - intros key module Hget Hreg Hok.
    destruct (syncFeatures_enabled settings st key module Hnd
                (get_true_key _ _ Hget) Hget Hreg) as (Hd & H1 & H2).
    fold st' in Hd, H1, H2. split; [|split; [|done]].
    + destruct (decide (key ∈ activeFeatures st)) as [Hin|Hin].
      * by apply H1.
      * destruct (H2 Hin) as (_ & w & Hw). apply Hw, Hok.
    + destruct (decide (key ∈ activeFeatures st)) as [Hin|Hin].
      * destruct (H1 Hin) as [_ ->]. apply Set_has_true in Hin as ->. lia.
      * destruct (H2 Hin) as [-> _]. by apply Set_has_false in Hin as ->.
  - intros key module Hget Hreg Hin Hthrow.
    destruct (syncFeatures_enabled settings st key module Hnd
                (get_true_key _ _ Hget) Hget Hreg) as (Hd & _ & H2).
    fold st' in Hd, H2. destruct (H2 Hin) as (Hc & w & Hw).
    split; [|done]. rewrite Hw, Hthrow. done.
  - intros key Hin Hget.
    destruct (syncFeatures_disabled settings st key Hnd Hin Hget (Hwf key))
      as (Ha & Hi & Hd).
    done.
  - intros A B mB Hs Hact Hreg Hok.
    assert (A ≠ B) as Hne.
    { unfold Object_keys in Hnd. rewrite Hs in Hnd. simpl in Hnd.
      apply NoDup_cons in Hnd as [Hnd _]. set_solver. }
    destruct (Hwf A) as [mA HregA]; [rewrite Hact; left|].
    subst st'. unfold syncFeatures.
    destruct (setSidebarPinningEnabled_frame
                (get (settings_features settings) "folders")
                (syncLoop settings (Object_keys (settings_features settings)) st))
      as (_ & -> & -> & _).
    assert (get (settings_features settings) A = false) as HgA
      by (rewrite Hs; simpl; by rewrite String.eqb_refl).
    assert (get (settings_features settings) B = true) as HgB.
    { rewrite Hs. simpl. rewrite String.eqb_refl.
      by apply String.eqb_neq in Hne as ->. }
    replace (Object_keys (settings_features settings)) with [A; B]
      by (by rewrite Hs).
    rewrite !syncLoop_cons, HgA, HgB. unfold syncLoop at 1. simpl.
    assert (A ∈ activeFeatures st) as HinA by (rewrite Hact; left).
    destruct (deactivateFeature_registered A st mA HinA HregA)
      as (Ec & _ & Ef & Ea & _).
    set (st1 := deactivateFeature A st) in *.
    assert (activeFeatures st1 = []) as Ea1.
    { rewrite Ea, Hact. unfold Set_delete.
      by rewrite filter_cons_False by (intros H; by apply H). }
    assert (B ∉ activeFeatures st1) as HinB by (rewrite Ea1; set_solver).
    assert (features st1 !! B = Some mB) as HregB by (by rewrite Ef).
    destruct (activateFeature_inactive B settings st1 mB HinB HregB)
      as (Ec2 & _ & _ & Ea2 & _).
    rewrite Ea2, Hok, Ea1. unfold destroyCalls, initCalls.
    rewrite Ec2, Ec, !count_snoc. simpl. rewrite !String.eqb_refl.
    split; [lia | split; [lia | done]].
Qed.

(** The sample of the claim: [folders] Active, [timeline] Inactive, and
    settings that swap them. *)
Lemma syncFeatures_reconciles_witness :
  let s0 := Samples.settingsOf [("folders", true)] in
  let st :=
    activateFeature "folders" s0
      (Samples.registered [Samples.steady "folders"; Samples.steady "timeline"]) in
  let s := Samples.settingsOf [("folders", false); ("timeline", true)] in
  let st' := syncFeatures s st in
  destroyCalls "folders" (calls st') = destroyCalls "folders" (calls st) + 1
  /\ initCalls "timeline" (calls st') = initCalls "timeline" (calls st) + 1
  /\ activeFeatures st' = ["timeline"].
Proof.
  refine (proj2 (proj2 (proj2
    (syncFeatures_reconciles
       (activateFeature "folders" (Samples.settingsOf [("folders", true)])
          (Samples.registered [Samples.steady "folders"; Samples.steady "timeline"]))
       (Samples.settingsOf [("folders", false); ("timeline", true)]) _ _)))
    "folders" "timeline" (Samples.steady "timeline") _ _ _ _).
  - split; [by apply (bool_decide_unpack _)|].
    intros key Hin. vm_compute in Hin.
    apply list_elem_of_singleton in Hin as ->. by eexists.
  - by apply (bool_decide_unpack _).
  - reflexivity.
  - reflexivity.
  - reflexivity.
  - reflexivity.
Defined.

(** C2 as first stated fails: an enabled, registered key whose [init]
    throws does not end Active. *)
Lemma syncFeatures_reconciles_counterexample :
  let st := Samples.registered [Samples.crashing "prompts"] in
  let s := Samples.settingsOf [("prompts", true)] in
  let st' := syncFeatures s st in
  get (settings_features s) "prompts" = true
  /\ features st !! "prompts" = Some (Samples.crashing "prompts")
  /\ activeFeatures st = []
  /\ activeFeatures st' = []
  /\ initCalls "prompts" (calls st') = 1.
Proof. repeat split. Qed.

(* ------------------------------------------------------------------ *)
(** ** The notification loops *)
(* ------------------------------------------------------------------ *)

Section Notification.
Context {World : Type}.
Implicit Types (st : State World) (key : string).
Implicit Types (hook : FeatureModule World -> option (World -> Completion * World)).

Lemma notifyNavigate_notify keys conversationId st :
  notifyNavigate keys conversationId st =
  notify (navigateHook conversationId) (fun k => CallOnNavigate k conversationId) keys st.
Proof.
  revert st. induction keys as [|key keys IH]; intros st; [done|].
  simpl. unfold navigateHook at 1.
  destruct (features st !! key) as [m|]; simpl; [|apply IH].
  destruct (onNavigate m) as [f|]; simpl; [|apply IH].
  destruct (f conversationId (world st)) as [[] w]; [apply IH | done].
Qed.

Lemma notifyMessagesChanged_notify keys container st :
  notifyMessagesChanged keys container st =
  notify (messagesChangedHook container)
    (fun k => CallOnMessagesChanged k container) keys st.
Proof.
  revert st. induction keys as [|key keys IH]; intros st; [done|].
  simpl. unfold messagesChangedHook at 1.
  destruct (features st !! key) as [m|]; simpl; [|apply IH].
  destruct (onMessagesChanged m) as [f|]; simpl; [|apply IH].
  destruct (f container (world st)) as [[] w]; [apply IH | done].
Qed.

Lemma withCalls_nil st : withCalls [] (world st) st = st.
Proof. destruct st. unfold withCalls. simpl. by rewrite app_nil_r. Qed.

Lemma withCalls_called cs c w w' st :
  withCalls cs w' (called c w st) = withCalls (c :: cs) w' st.
Proof. unfold withCalls, called. simpl. by rewrite <- app_assoc. Qed.

Lemma hooked_called hook c w st keys :
  hooked hook (called c w st) keys = hooked hook st keys.
Proof. done. Qed.

(** A loop calls the hooked keys in order, each at most once, and stops
    at the first throw: the calls it makes are a prefix of the full
    list, and nothing but the world and the record of calls changes. *)
Lemma notify_prefix hook mk keys st :
  exists n w,
    (notify hook mk keys st).2 = withCalls (take n (mk <$> hooked hook st keys)) w st.
Proof.
  revert st. induction keys as [|key keys IH]; intros st.
  - exists 0, (world st). simpl. by rewrite withCalls_nil.
  - simpl. unfold hooked. destruct (features st !! key ≫= hook) as [f|] eqn:E.
    + rewrite filter_cons_True by (by rewrite E).
      destruct (f (world st)) as [[] w] eqn:Ef.
      * destruct (IH (called (mk key) w st)) as (n & w' & ->).
        exists (S n), w'. by rewrite withCalls_called.
      * exists 1, w. simpl. by rewrite take_0.
    + rewrite filter_cons_False by (rewrite E; by intros []).
      apply IH.
Qed.

(** When no hooked method throws, the loop runs to its end and calls
    every hooked key. *)
Lemma notify_normal hook mk keys st :
  (forall key f w, key ∈ keys -> features st !! key ≫= hook = Some f ->
                   (f w).1 = Normal) ->
  (notify hook mk keys st).1 = Normal
  /\ exists w, (notify hook mk keys st).2 = withCalls (mk <$> hooked hook st keys) w st.
Proof.
  revert st. induction keys as [|key keys IH]; intros st Hok.
  - split; [done|]. exists (world st). simpl. by rewrite withCalls_nil.
  - simpl. unfold hooked. destruct (features st !! key ≫= hook) as [f|] eqn:E.
    + rewrite filter_cons_True by (by rewrite E).
      pose proof (Hok key f (world st) (list_elem_of_here _ _) E) as Hf.
      destruct (f (world st)) as [c w] eqn:Ef. simpl in Hf. subst c.
      destruct (IH (called (mk key) w st)) as (Hn & w' & Hs).
      { intros k g w0 Hk. apply Hok. by right. }
      split; [done|]. exists w'. by rewrite Hs, withCalls_called.
    + rewrite filter_cons_False by (rewrite E; by intros []).
      apply IH. intros k g w0 Hk. apply Hok. by right.
Qed.

Lemma elem_of_hooked hook st keys key :
  key ∈ hooked hook st keys <-> key ∈ keys /\ is_Some (features st !! key ≫= hook).
Proof. unfold hooked. rewrite list_elem_of_filter. tauto. Qed.

Lemma NoDup_hooked hook st keys : NoDup keys -> NoDup (hooked hook st keys).
Proof. apply NoDup_filter. Qed.

(** In a list of calls made for distinct keys, a key is counted once if
    it is there and not at all otherwise. *)
Lemma count_cons p c (cs : list Call) :
  count p (c :: cs) = (if p c then 1 else 0) + count p cs.
Proof. unfold count. simpl. by destruct (p c). Qed.

Lemma count_keys (p : string -> Call -> bool) (mk : string -> Call) key (l : list string) :
  (forall k, p key (mk k) = String.eqb k key) ->
  NoDup l ->
  count (p key) (mk <$> l) = if bool_decide (key ∈ l) then 1 else 0.
Proof.
  intros Hp. induction 1 as [|k l Hk Hnd IH]; [done|].
  rewrite fmap_cons, count_cons, Hp, IH.
  destruct (String.eqb k key) eqn:E.
  - apply String.eqb_eq in E as ->.
    rewrite bool_decide_eq_false_2 by done.
    rewrite bool_decide_eq_true_2 by left. done.
  - apply String.eqb_neq in E.
    destruct (decide (key ∈ l)) as [Hin|Hin].
    + rewrite !bool_decide_eq_true_2; [done | by right | done].
    + rewrite !bool_decide_eq_false_2; [done | | done].
      rewrite not_elem_of_cons. split; [congruence | done].
Qed.

Lemma count_take_le p (l : list Call) n : count p (take n l) <= count p l.
Proof.
  rewrite <- (take_drop n l) at 2. rewrite count_app. lia.
Qed.

End Notification.

(* ------------------------------------------------------------------ *)
(** ** Navigation detection *)
(* ------------------------------------------------------------------ *)

(** On an unchanged path [checkNavigation] does nothing. On a changed
    path it moves the cursor and calls [onNavigate] with the id computed
    from the new path, on a prefix of the Active features that implement
    it, each at most once; and when none of these calls throws, on all of
    them, exactly once each. *)
Theorem checkNavigation_dedup {World} (st : State World) pathname :
  NoDup (activeFeatures st) ->
  let r := checkNavigation pathname st in
  let id := DOMService.getConversationId pathname in
  let due :=
    (fun k => CallOnNavigate k id) <$> hooked (navigateHook id) st (activeFeatures st) in
  (pathname = lastPath st -> r = (Normal, st))
  /\ (pathname ≠ lastPath st ->
      lastPath r.2 = pathname
      /\ features r.2 = features st
      /\ activeFeatures r.2 = activeFeatures st
      /\ (exists n, calls r.2 = calls st ++ take n due)
      /\ (forall key, onNavigateCalls key (calls r.2) <= onNavigateCalls key (calls st) + 1)
      /\ ((forall key m f w,
             key ∈ activeFeatures st -> features st !! key = Some m ->
             onNavigate m = Some f -> (f id w).1 = Normal) ->
          r.1 = Normal
          /\ calls r.2 = calls st ++ due
          /\ forall key m,
               key ∈ activeFeatures st -> features st !! key = Some m ->
               onNavigateCalls key (calls r.2) =
               onNavigateCalls key (calls st) + (if onNavigate m is Some _ then 1 else 0))).
Proof.
  intros Hnd r id due. subst r. unfold checkNavigation.
  split.
  { intros ->. by rewrite String.eqb_refl. }
  intros Hne. apply String.eqb_neq in Hne. rewrite Hne. fold id.
  set (st2 := logged _ _).
  assert (forall key, count (isOnNavigate key) due
                      = if bool_decide (key ∈ hooked (navigateHook id) st (activeFeatures st))
                        then 1 else 0) as Hcount.
  { intros key. apply count_keys; [done | by apply NoDup_hooked]. }
  rewrite notifyNavigate_notify.
  destruct (notify_prefix (navigateHook id) (fun k => CallOnNavigate k id)
              (activeFeatures st2) st2) as (n & w & Hpre).
  change (hooked (navigateHook id) st2 (activeFeatures st2))
    with (hooked (navigateHook id) st (activeFeatures st)) in Hpre.
  fold due in Hpre.
  assert (forall key, count (isOnNavigate key) (take n due) <= 1) as Hle.
  { intros key. etrans; [apply count_take_le|]. rewrite Hcount. case_bool_decide; lia. }
  split; [|split; [|split; [|split; [|split]]]].
  - destruct (notify _ _ _ st2) as [[] st3]; simpl in *; subst st3;
      [destruct (sidebarPinningEnabled _)|]; done.
  - destruct (notify _ _ _ st2) as [[] st3]; simpl in *; subst st3;
      [destruct (sidebarPinningEnabled _)|]; done.
  - destruct (notify _ _ _ st2) as [[] st3]; simpl in *; subst st3;
      [destruct (sidebarPinningEnabled _)|]; done.
  - exists n.
    destruct (notify _ _ _ st2) as [[] st3]; simpl in *; subst st3;
      [destruct (sidebarPinningEnabled _)|]; done.
  - intros key. specialize (Hle key).
    assert (calls (match notify (navigateHook id) (fun k => CallOnNavigate k id)
                           (activeFeatures st2) st2 with
                   | (Throw, st3) => (Throw, st3)
                   | (Normal, st3) =>
                       (Normal,
                        (setTimeout (RunSetupMessageObserver 0) 300
                           (if sidebarPinningEnabled st3
                            then (setTimeout RunApplySidebarPinning 250 st3).2
                            else st3)).2)
                   end).2 = calls st ++ take n due) as ->.
    { destruct (notify _ _ _ st2) as [[] st3]; simpl in *; subst st3;
        [destruct (sidebarPinningEnabled _)|]; done. }
    unfold onNavigateCalls. rewrite count_app. lia.
  - intros Hok.
    destruct (notify_normal (navigateHook id) (fun k => CallOnNavigate k id)
                (activeFeatures st2) st2) as (Hn & w' & Hfull).
    { intros key f w0 Hin Hf. change (features st2) with (features st) in Hf.
      destruct (features st !! key) as [m|] eqn:Em; [|done]. simpl in Hf.
      unfold navigateHook in Hf. destruct (onNavigate m) as [g|] eqn:Eg; [|done].
      simpl in Hf. injection Hf as <-. by eapply Hok. }
    change (hooked (navigateHook id) st2 (activeFeatures st2))
      with (hooked (navigateHook id) st (activeFeatures st)) in Hfull.
    fold due in Hfull. clear Hpre.
    destruct (notify _ _ _ st2) as [c st3]; simpl in Hn, Hfull. subst c st3.
    assert (forall s : State World,
              calls (setTimeout (RunSetupMessageObserver 0) 300
                       (if sidebarPinningEnabled s
                        then (setTimeout RunApplySidebarPinning 250 s).2 else s)).2
              = calls s) as Hc by (intros s; by destruct (sidebarPinningEnabled s)).
    cbn [fst snd]. rewrite Hc.
    change (calls (withCalls due w' st2)) with (calls st ++ due).
    split; [done|]. split; [done|].
    intros key m Hin Hm. unfold onNavigateCalls. rewrite count_app, Hcount.
    f_equal. destruct (onNavigate m) as [g|] eqn:Eg.
    + rewrite bool_decide_eq_true_2; [done|].
      apply elem_of_hooked. split; [done|]. rewrite Hm. simpl.
      unfold navigateHook. by rewrite Eg.
    + rewrite bool_decide_eq_false_2; [done|].
      rewrite elem_of_hooked. intros [_ [f Hf]]. rewrite Hm in Hf. simpl in Hf.
      unfold navigateHook in Hf. by rewrite Eg in Hf.
Qed.

(** The sample: two steady modules, and a first navigation to a chat. *)
Lemma checkNavigation_dedup_witness :
  let s := Samples.settingsOf [("timeline", true); ("export", true)] in
  let st :=
    syncFeatures s (Samples.registered [Samples.steady "timeline"; Samples.steady "export"]) in
  let r := checkNavigation "/chat/1f-2e" st in
  checkNavigation "/new" st = (Normal, st)
  /\ lastPath r.2 = "/chat/1f-2e"
  /\ calls r.2 =
       calls st ++ [CallOnNavigate "timeline" (Some "1f-2e");
                    CallOnNavigate "export" (Some "1f-2e")]
  /\ checkNavigation "/chat/1f-2e" r.2 = (Normal, r.2).
Proof.
  pose proof (checkNavigation_dedup
                (syncFeatures (Samples.settingsOf [("timeline", true); ("export", true)])
                   (Samples.registered
                      [Samples.steady "timeline"; Samples.steady "export"]))
                "/chat/1f-2e") as H.
  split; [vm_compute; reflexivity|].
  destruct H as (_ & H); [by apply (bool_decide_unpack _)|].
  destruct H as (Hp & _ & _ & _ & _ & H); [discriminate|].
  destruct H as (_ & Hc & _).
  { intros key m f w Hin Hm Hf. vm_compute in Hin.
    apply elem_of_cons in Hin as
      [->|[->|[]%elem_of_nil]%elem_of_cons];
      vm_compute in Hm; injection Hm as <-; injection Hf as <-; reflexivity. }
  split; [exact Hp|]. split; [exact Hc|]. vm_compute. reflexivity.
Defined.

(** C3, at the failing input. [export] and [timeline] are Active, in
    this order, and both implement [onNavigate]; the one of [export]
    throws. The exception leaves the loop and [checkNavigation]:
    [timeline] is not notified, the message observer is not scheduled
    for re-establishment, and the cursor has moved already, so the next
    check of the same path notifies nobody either. *)
Lemma checkNavigation_throw_stops_notification :
  let s := Samples.settingsOf [("export", true); ("timeline", true)] in
  let st :=
    syncFeatures s (Samples.registered [Samples.fragile "export"; Samples.steady "timeline"]) in
  let r := checkNavigation "/chat/ab12" st in
  activeFeatures st = ["export"; "timeline"]
  /\ r.1 = Throw
  /\ calls r.2 = calls st ++ [CallOnNavigate "export" (Some "ab12")]
  /\ onNavigateCalls "timeline" (calls r.2) = 0
  /\ timers r.2 = []
  /\ lastPath r.2 = "/chat/ab12"
  /\ checkNavigation "/chat/ab12" r.2 = (Normal, r.2).
Proof. vm_compute. repeat split. Qed.

(** C6, at a failing input of the same defect. The path has changed and
    three features that implement [onNavigate] are Active; the second
    one throws, and the third is not called at all. *)
Lemma checkNavigation_not_once_per_feature :
  let s := Samples.settingsOf [("timeline", true); ("export", true); ("prompts", true)] in
  let st :=
    syncFeatures s
      (Samples.registered
         [Samples.steady "timeline"; Samples.fragile "export"; Samples.steady "prompts"]) in
  let r := checkNavigation "/recents" st in
  "/recents" <> lastPath st
  /\ activeFeatures st = ["timeline"; "export"; "prompts"]
  /\ lastPath r.2 = "/recents"
  /\ onNavigateCalls "timeline" (calls r.2) = 1
  /\ onNavigateCalls "export" (calls r.2) = 1
  /\ onNavigateCalls "prompts" (calls r.2) = 0.
Proof. vm_compute. repeat split. discriminate. Qed.

(* ------------------------------------------------------------------ *)
(** ** Deactivation and the messages observer *)
(* ------------------------------------------------------------------ *)

Section Delivery.
Context {World : Type}.
Implicit Types (st : State World) (key : string).

Lemma count_none p (cs : list Call) :
  (forall c, c ∈ cs -> p c = false) -> count p cs = 0.
Proof.
  induction cs as [|c cs IH]; intros H; [done|].
  rewrite count_cons, (H c) by left. rewrite IH; [done|].
  intros c' Hc'. apply H. by right.
Qed.

(** [onMutation] calls [onMessagesChanged] on keys of the active set of
    the state it fires in, and on nothing else; the active set and the
    registry stay as they are. *)
Lemma onMutation_delivery container st :
  exists l,
    l ⊆ activeFeatures st
    /\ calls (onMutation container st).2 =
         calls st ++ ((fun k => CallOnMessagesChanged k container) <$> l)
    /\ activeFeatures (onMutation container st).2 = activeFeatures st
    /\ features (onMutation container st).2 = features st.
Proof.
  unfold onMutation. rewrite notifyMessagesChanged_notify.
  destruct (notify_prefix (messagesChangedHook container)
              (fun k => CallOnMessagesChanged k container) (activeFeatures st) st)
    as (n & w & ->).
  exists (take n (hooked (messagesChangedHook container) st (activeFeatures st))).
  split; [|split; [|done]].
  - intros k Hk. apply elem_of_take in Hk as (i & Hk & _).
    apply list_elem_of_lookup_2, elem_of_hooked in Hk. tauto.
  - simpl. by rewrite fmap_take.
Qed.

Lemma checkNavigation_frame pathname st :
  exists l id,
    calls (checkNavigation pathname st).2 =
      calls st ++ ((fun k => CallOnNavigate k id) <$> l)
    /\ activeFeatures (checkNavigation pathname st).2 = activeFeatures st
    /\ features (checkNavigation pathname st).2 = features st.
Proof.
  unfold checkNavigation. destruct (String.eqb pathname (lastPath st)).
  { exists [], None. simpl. by rewrite app_nil_r. }
  set (id := DOMService.getConversationId pathname).
  set (st2 := logged _ _). rewrite notifyNavigate_notify.
  destruct (notify_prefix (navigateHook id) (fun k => CallOnNavigate k id)
              (activeFeatures st2) st2) as (n & w & Hpre).
  exists (take n (hooked (navigateHook id) st2 (activeFeatures st2))), id.
  rewrite fmap_take.
  destruct (notify _ _ _ st2) as [c st3]. simpl in Hpre. subst st3.
  destruct c; [destruct (sidebarPinningEnabled _)|]; done.
Qed.

Lemma setupMessageObserver_frame query retryCount st :
  let st' := setupMessageObserver query retryCount st in
  calls st' = calls st /\ activeFeatures st' = activeFeatures st
  /\ features st' = features st.
Proof.
  unfold setupMessageObserver. destruct query as [c|].
  - by destruct (messageObserverRetryTimer st).
  - by destruct (_ <=? _)%nat.
Qed.

Lemma mutationCallback_frame o st :
  let st' := mutationCallback o st in
  calls st' = calls st /\ activeFeatures st' = activeFeatures st
  /\ features st' = features st.
Proof.
  unfold mutationCallback. destruct (DOMService.connected (dom st) !! o) as [c|]; [|done].
  destruct (DOMService.mo_callback c) as [container]. unfold debounce.
  by destruct (debounceTimers st !! o).
Qed.

(** A timer that fires calls feature methods only when it is the
    debounced [onMutation], and then as [onMutation] does. *)
Lemma fireTimer_frame id query st :
  let st' := fireTimer id query st in
  exists l container,
    l ⊆ activeFeatures st
    /\ calls st' = calls st ++ ((fun k => CallOnMessagesChanged k container) <$> l)
    /\ activeFeatures st' = activeFeatures st
    /\ features st' = features st.
Proof.
  unfold fireTimer. destruct (List.find _ _) as [t|].
  2: { exists [], 0. rewrite app_nil_r. split; [apply list_subseteq_nil | done]. }
  destruct (timer_action t) as [retryCount| |container].
  - exists [], 0. rewrite app_nil_r.
    destruct (setupMessageObserver_frame query retryCount (clearTimeout id st))
      as (-> & -> & ->).
    split; [apply list_subseteq_nil | done].
  - exists [], 0. rewrite app_nil_r. split; [apply list_subseteq_nil | done].
  - destruct (onMutation_delivery container (clearTimeout id st))
      as (l & Hl & Ec & Ea & Ef).
    by exists l, container.
Qed.

(** What the lifecycle transitions add to the record of calls. *)
Lemma activateFeature_calls key settings st :
  let st' := activateFeature key settings st in
  (calls st' = calls st \/ calls st' = calls st ++ [CallInit key settings])
  /\ forall k, k ∈ activeFeatures st' -> k = key \/ k ∈ activeFeatures st.
Proof.
  unfold activateFeature. destruct (Set_has _ _); [auto|].
  destruct (features st !! key) as [m|]; [|auto].
  destruct (init m settings (world st)) as [[] w]; simpl; (split; [auto|]); [|auto].
  intros k. rewrite elem_of_Set_add. tauto.
Qed.

Lemma deactivateFeature_calls key st :
  let st' := deactivateFeature key st in
  (calls st' = calls st \/ calls st' = calls st ++ [CallDestroy key])
  /\ forall k, k ∈ activeFeatures st' -> k ∈ activeFeatures st.
Proof.
  unfold deactivateFeature. destruct (Set_has _ _); simpl; [|auto].
  destruct (features st !! key) as [m|];
    [destruct (destroy m (world st)) as [[] w]|]; simpl; (split; [auto|]);
    intros k; rewrite elem_of_Set_delete; tauto.
Qed.

Lemma quiet_refl key st : key ∉ activeFeatures st -> quiet key st st.
Proof. by unfold quiet. Qed.

Lemma quiet_trans key st1 st2 st3 :
  quiet key st1 st2 -> quiet key st2 st3 -> quiet key st1 st3.
Proof. unfold quiet. intros (? & -> & ->) (? & -> & ->). done. Qed.

Lemma activateFeature_quiet key k settings st :
  k ≠ key -> key ∉ activeFeatures st -> quiet key st (activateFeature k settings st).
Proof.
  intros Hne Hin. unfold quiet, onMessagesChangedCalls, destroyCalls.
  destruct (activateFeature_calls k settings st) as [[->| ->] Ha];
    (split; [intros H; apply Ha in H as [->|]; done|]);
    rewrite ?count_snoc; simpl; lia.
Qed.

Lemma deactivateFeature_quiet key k st :
  key ∉ activeFeatures st -> quiet key st (deactivateFeature k st).
Proof.
  intros Hin. destruct (decide (k = key)) as [->|Hne].
  { rewrite deactivateFeature_inactive by done. by apply quiet_refl. }
  unfold quiet, onMessagesChangedCalls, destroyCalls.
  apply String.eqb_neq in Hne.
  destruct (deactivateFeature_calls k st) as [[->| ->] Ha];
    (split; [intros H; by apply Ha in H|]);
    rewrite ?count_snoc; simpl; rewrite ?Hne; lia.
Qed.

Lemma syncLoop_quiet key settings keys st :
  get (settings_features settings) key = false ->
  key ∉ activeFeatures st -> quiet key st (syncLoop settings keys st).
Proof.
  intros Hget. revert st. induction keys as [|k keys IH]; intros st Hin.
  - by apply quiet_refl.
  - rewrite syncLoop_cons.
    assert (quiet key st
              (if get (settings_features settings) k
               then activateFeature k settings st else deactivateFeature k st)) as Hq.
    { destruct (get (settings_features settings) k) eqn:Ek.
      - apply activateFeature_quiet; [congruence | done].
      - by apply deactivateFeature_quiet. }
    eapply quiet_trans; [exact Hq|]. apply IH, Hq.
Qed.

(** While [key] is Inactive, an event that does not activate it leaves
    it Inactive, and neither [onMessagesChanged] nor [destroy] of
    [key] is called. *)
Lemma step_quiet key e st :
  activates key e = false ->
  key ∉ activeFeatures st -> quiet key st (step e st).
Proof.
  intros Hnot Hin. destruct e as [s|k enabled s|pathname|o|id query]; simpl in *.
  - unfold onSettingsChanged, syncFeatures.
    pose proof (syncLoop_quiet key s (Object_keys (settings_features s)) st Hnot Hin) as Hq.
    destruct (setSidebarPinningEnabled_frame
                (get (settings_features s) "folders")
                (syncLoop s (Object_keys (settings_features s)) st))
      as (_ & Ea & Ec & _).
    unfold quiet in *. by rewrite Ea, Ec.
  - unfold onFeatureToggle.
    assert (quiet key st
              (if enabled then activateFeature k s st else deactivateFeature k st)) as Hq.
    { destruct enabled; simpl in Hnot.
      - apply activateFeature_quiet; [|done]. by apply String.eqb_neq.
      - by apply deactivateFeature_quiet. }
    destruct (String.eqb k "folders"); [|done].
    destruct (setSidebarPinningEnabled_frame enabled
                (if enabled then activateFeature k s st else deactivateFeature k st))
      as (_ & Ea & Ec & _).
    unfold quiet in *. by rewrite Ea, Ec.
  - destruct (checkNavigation_frame pathname st) as (l & id & Ec & Ea & _).
    unfold quiet, onMessagesChangedCalls, destroyCalls.
    rewrite Ea, Ec, !count_app.
    rewrite (count_none (isOnMessagesChanged key) (_ <$> l)),
      (count_none (isDestroy key) (_ <$> l));
      [split; [done | split; lia]| |];
      by intros c (k & -> & _)%list_elem_of_fmap.
  - destruct (mutationCallback_frame o st) as (Ec & Ea & _).
    unfold quiet. by rewrite Ea, Ec.
  - destruct (fireTimer_frame id query st) as (l & container & Hl & Ec & Ea & _).
    unfold quiet, onMessagesChangedCalls, destroyCalls.
    rewrite Ea, Ec, !count_app.
    rewrite (count_none (isOnMessagesChanged key) (_ <$> l)),
      (count_none (isDestroy key) (_ <$> l));
      [split; [done | split; lia]| |]; intros c (k & -> & Hk)%list_elem_of_fmap;
      [done|].
    simpl. apply String.eqb_neq. intros ->. by apply Hin, Hl.
Qed.

Lemma run_quiet key events st :
  Forall (fun e => activates key e = false) events ->
  key ∉ activeFeatures st -> quiet key st (run events st).
Proof.
  intros Hall. revert st. induction Hall as [|e events He _ IH]; intros st Hin.
  - by apply quiet_refl.
  - pose proof (step_quiet key e st He Hin) as Hq.
    eapply quiet_trans; [exact Hq|]. apply IH, Hq.
Qed.

End Delivery.

(* ------------------------------------------------------------------ *)
(** ** Reachable states *)
(* ------------------------------------------------------------------ *)

Section Reachable.
Context {World : Type}.
Implicit Types (st : State World) (key : string).

Lemma wf_initial pathname (w : World) : wf (initial pathname w).
Proof. split; [constructor|]. intros key H. by apply elem_of_nil in H. Qed.

Lemma registerFeature_wf module st : wf st -> wf (registerFeature module st).
Proof.
  intros [Hnd Hreg]. split; [done|]. intros k Hk. simpl.
  destruct (decide (key module = k)) as [<-|Hne].
  - rewrite lookup_insert_eq. by eexists.
  - rewrite lookup_insert_ne by done. by apply Hreg.
Qed.

Lemma activateFeature_wf key settings st : wf st -> wf (activateFeature key settings st).
Proof.
  intros [Hnd Hreg]. unfold activateFeature.
  destruct (Set_has key (activeFeatures st)) eqn:Ea; [done|].
  destruct (features st !! key) as [m|] eqn:Em; [|done].
  destruct (init m settings (world st)) as [[] w]; [|done].
  apply Set_has_false in Ea. split; simpl.
  - unfold Set_add. apply Set_has_false in Ea as Eb. rewrite Eb.
    apply NoDup_app. split; [done|]. split; [|apply NoDup_singleton].
    intros k Hk ->%list_elem_of_singleton. done.
  - intros k [->|Hk]%elem_of_Set_add; [by eexists | by apply Hreg].
Qed.

Lemma deactivateFeature_wf key st : wf st -> wf (deactivateFeature key st).
Proof.
  intros [Hnd Hreg].
  assert (forall s : State World,
            activeFeatures s = activeFeatures st -> features s = features st ->
            wf (logged (LogFeatureDeactivated key)
                  (set_activeFeatures (Set_delete key (activeFeatures s)) s))) as H.
  { intros s Ea Ef. split; simpl; rewrite Ea.
    - by apply NoDup_filter.
    - intros k [_ Hk]%elem_of_Set_delete. rewrite Ef. by apply Hreg. }
  unfold deactivateFeature. destruct (Set_has key (activeFeatures st)); [|done].
  simpl. destruct (features st !! key) as [m|]; [|by apply H].
  destruct (destroy m (world st)) as [[] w]; by apply H.
Qed.

Lemma frame_wf st st' :
  activeFeatures st' = activeFeatures st -> features st' = features st ->
  wf st -> wf st'.
Proof. unfold wf. by intros -> ->. Qed.

Lemma syncLoop_wf settings keys st : wf st -> wf (syncLoop settings keys st).
Proof.
  revert st. induction keys as [|k keys IH]; intros st Hwf; [done|].
  rewrite syncLoop_cons. apply IH.
  destruct (get _ k); auto using activateFeature_wf, deactivateFeature_wf.
Qed.

Lemma syncFeatures_wf settings st : wf st -> wf (syncFeatures settings st).
Proof.
  intros Hwf. unfold syncFeatures.
  destruct (setSidebarPinningEnabled_frame
              (get (settings_features settings) "folders")
              (syncLoop settings (Object_keys (settings_features settings)) st))
    as (Ef & Ea & _).
  eapply frame_wf; [exact Ea | exact Ef |]. by apply syncLoop_wf.
Qed.

(** Every turn of the event loop keeps the state well formed. *)
Lemma step_wf e st : wf st -> wf (step e st).
Proof.
  intros Hwf. destruct e as [s|k enabled s|pathname|o|id query]; simpl.
  - by apply syncFeatures_wf.
  - unfold onFeatureToggle.
    assert (wf (if enabled then activateFeature k s st else deactivateFeature k st)) as H
      by (destruct enabled; auto using activateFeature_wf, deactivateFeature_wf).
    destruct (String.eqb k "folders"); [|done].
    destruct (setSidebarPinningEnabled_frame enabled
                (if enabled then activateFeature k s st else deactivateFeature k st))
      as (Ef & Ea & _).
    by eapply frame_wf.
  - destruct (checkNavigation_frame pathname st) as (l & id & _ & Ea & Ef).
    by eapply frame_wf.
  - destruct (mutationCallback_frame o st) as (_ & Ea & Ef).
    by eapply frame_wf.
  - destruct (fireTimer_frame id query st) as (l & container & _ & _ & Ea & Ef).
    by eapply frame_wf.
Qed.

Lemma run_wf events st : wf st -> wf (run events st).
Proof.
  revert st. induction events as [|e events IH]; intros st Hwf; [done|].
  simpl. by apply IH, step_wf.
Qed.

End Reachable.

(** C9. An Active, registered feature is toggled off, by a
    [FEATURE_TOGGLE] message or by a [SETTINGS_CHANGED] message whose
    settings disable it: its [destroy] is called once and it leaves the
    active set. From then on, through any events that do not activate it
    again, it stays Inactive and receives no [onMessagesChanged] (nor
    another [destroy]); and whenever the debounced [onMutation] fires, in
    any state, it calls [onMessagesChanged] only on keys that are in the
    active set at that moment. *)
Theorem deactivated_feature_not_notified {World} (st : State World) key module
    settings events :
  features st !! key = Some module ->
  key ∈ activeFeatures st ->
  Forall (fun e => activates key e = false) events ->
  (forall st1,
     st1 = onFeatureToggle key false settings st
     \/ (st1 = onSettingsChanged settings st
         /\ NoDup (Object_keys (settings_features settings))
         /\ key ∈ Object_keys (settings_features settings)
         /\ get (settings_features settings) key = false) ->
     let st2 := run events st1 in
     destroyCalls key (calls st1) = destroyCalls key (calls st) + 1
     /\ (key ∉ activeFeatures st1)
     /\ (key ∉ activeFeatures st2)
     /\ onMessagesChangedCalls key (calls st2) = onMessagesChangedCalls key (calls st1)
     /\ destroyCalls key (calls st2) = destroyCalls key (calls st1))
  /\ (forall container (s : State World),
        exists l,
          l ⊆ activeFeatures s
          /\ calls (onMutation container s).2 =
               calls s ++ ((fun k => CallOnMessagesChanged k container) <$> l)).
Proof.
  intros Hreg Hin Hall. split.
  - intros st1 Hst1 st2.
    assert (destroyCalls key (calls st1) = destroyCalls key (calls st) + 1
            /\ key ∉ activeFeatures st1) as [Hd Hout].
    { destruct Hst1 as [->|(-> & Hnd & Hk & Hget)].
      - unfold onFeatureToggle.
        destruct (deactivateFeature_registered key st module Hin Hreg)
          as (Ec & _ & _ & Ea & _).
        assert (destroyCalls key (calls (deactivateFeature key st))
                = destroyCalls key (calls st) + 1
                /\ key ∉ activeFeatures (deactivateFeature key st)) as Hd.
        { unfold destroyCalls. rewrite Ec, Ea, count_snoc, elem_of_Set_delete. simpl.
          rewrite String.eqb_refl. tauto. }
        destruct (String.eqb key "folders"); [|done].
        destruct (setSidebarPinningEnabled_frame false (deactivateFeature key st))
          as (_ & Ea' & Ec' & _).
        by rewrite Ea', Ec'.
      - destruct (syncFeatures_disabled settings st key Hnd Hk Hget) as (Ha & _ & Hd).
        { intros _. by eexists. }
        unfold onSettingsChanged. rewrite Hd.
        apply Set_has_true in Hin as ->. done. }
    destruct (run_quiet key events st1 Hall Hout) as (? & ? & ?).
    done.
  - intros container s.
    destruct (onMutation_delivery container s) as (l & Hl & Ec & _).
    by exists l.
Qed.

(** The sample: the observer is installed on node 7, [timeline] is
    toggled off, and the page goes on: mutations are observed and their
    debounce timers fire, with a navigation and a settings change in
    between. *)
Lemma deactivated_feature_not_notified_witness :
  let s := Samples.settingsOf [("timeline", true); ("export", true)] in
  let st :=
    setupMessageObserver (Some 7) 0
      (syncFeatures s
         (Samples.registered [Samples.steady "timeline"; Samples.steady "export"])) in
  let st1 := onFeatureToggle "timeline" false s st in
  let st2 := run Samples.afterToggle st1 in
  destroyCalls "timeline" (calls st1) = destroyCalls "timeline" (calls st) + 1
  /\ ("timeline" ∉ activeFeatures st1)
  /\ ("timeline" ∉ activeFeatures st2)
  /\ onMessagesChangedCalls "timeline" (calls st2)
     = onMessagesChangedCalls "timeline" (calls st1)
  /\ destroyCalls "timeline" (calls st2) = destroyCalls "timeline" (calls st1).
Proof.
  refine (proj1
    (deactivated_feature_not_notified
       (setupMessageObserver (Some 7) 0
          (syncFeatures (Samples.settingsOf [("timeline", true); ("export", true)])
             (Samples.registered [Samples.steady "timeline"; Samples.steady "export"])))
       "timeline" (Samples.steady "timeline")
       (Samples.settingsOf [("timeline", true); ("export", true)])
       Samples.afterToggle _ _ _) _ (or_introl eq_refl)).
  - reflexivity.
  - by apply (bool_decide_unpack _).
  - repeat constructor.
Defined.

(** In that run the notifications do fire, and reach [export] only. *)
Example deactivated_feature_trace :
  let s := Samples.settingsOf [("timeline", true); ("export", true)] in
  let st :=
    setupMessageObserver (Some 7) 0
      (syncFeatures s
         (Samples.registered [Samples.steady "timeline"; Samples.steady "export"])) in
  calls (run Samples.afterToggle (onFeatureToggle "timeline" false s st)) =
    [CallInit "timeline" s; CallInit "export" s; CallDestroy "timeline";
     CallOnMessagesChanged "export" 7;
     CallOnNavigate "export" (Some "aa");
     CallOnMessagesChanged "export" 7].
Proof. vm_compute. reflexivity. Qed.

(* ------------------------------------------------------------------ *)
(** ** The retry loop of the message observer *)
(* ------------------------------------------------------------------ *)

Section Backoff.
Context {World : Type}.
Implicit Types (st : State World).

Lemma drainNotFound_add a b st :
  drainNotFound (a + b) st = drainNotFound b (drainNotFound a st).
Proof.
  revert st. induction a as [|a IH]; intros st; [done|].
  simpl. destruct (timers st) as [|t ts] eqn:E; [|apply IH].
  destruct b; simpl; by rewrite ?E.
Qed.

Lemma drainNotFound_idle fuel st : timers st = [] -> drainNotFound fuel st = st.
Proof. intros E. destruct fuel; simpl; by rewrite ?E. Qed.

(** A failed attempt below the limit: one warning, one new timer. *)
Lemma setupMessageObserver_retry k st :
  k < MESSAGE_OBSERVER_MAX_RETRIES ->
  let st' := setupMessageObserver None k st in
  timers st' =
    timers st ++ [{| timer_id := nextTimer st; timer_delay := retryDelay k;
                     timer_action := RunSetupMessageObserver (S k) |}]
  /\ nextTimer st' = S (nextTimer st)
  /\ log st' = log st ++ [retryWarning k]
  /\ messageObserverRetryTimer st' = Some (nextTimer st).
Proof.
  intros Hk. unfold setupMessageObserver.
  apply Nat.leb_gt in Hk as ->. simpl.
  unfold retryWarning. by rewrite Nat.add_1_r.
Qed.

(** A failed attempt at the limit: the error, and no timer. *)
Lemma setupMessageObserver_give_up k st :
  MESSAGE_OBSERVER_MAX_RETRIES <= k ->
  setupMessageObserver None k st = logged LogObserverDisabled st.
Proof.
  intros Hk. unfold setupMessageObserver. by apply Nat.leb_le in Hk as ->.
Qed.

(** The only pending timer fires. *)
Lemma fireTimer_single t query st :
  timers st = [t] ->
  timers (clearTimeout (timer_id t) st) = []
  /\ nextTimer (clearTimeout (timer_id t) st) = nextTimer st
  /\ log (clearTimeout (timer_id t) st) = log st
  /\ fireTimer (timer_id t) query st =
       match timer_action t with
       | RunSetupMessageObserver retryCount =>
           setupMessageObserver query retryCount (clearTimeout (timer_id t) st)
       | RunApplySidebarPinning => clearTimeout (timer_id t) st
       | RunOnMutation container =>
           (onMutation container (clearTimeout (timer_id t) st)).2
       end.
Proof.
  intros E. unfold fireTimer, clearTimeout. rewrite E. simpl.
  rewrite Nat.eqb_refl, filter_cons_False, filter_nil by (intros H; by apply H).
  done.
Qed.

(** The state after [k] retries that all found nothing, [k] below the
    limit: the [k]-th retry timer is the only pending one. *)
Lemma retry_chain st k :
  timers st = [] ->
  k < MESSAGE_OBSERVER_MAX_RETRIES ->
  let s := drainNotFound k (setupMessageObserver None 0 st) in
  timers s = [retryTimer (nextTimer st) k]
  /\ nextTimer s = nextTimer st + S k
  /\ log s = log st ++ (retryWarning <$> seq 0 (S k)).
Proof.
  intros E. cbv zeta. induction k as [|k IH]; intros Hk.
  - destruct (setupMessageObserver_retry 0 st Hk) as (Ht & Hn & Hl & _).
    cbn [drainNotFound]. rewrite Ht, Hn, Hl, E. unfold retryTimer.
    by rewrite Nat.add_0_r, Nat.add_1_r.
  - destruct IH as (Ht & Hn & Hl); [lia|].
    set (s := drainNotFound k _) in *.
    destruct (fireTimer_single (retryTimer (nextTimer st) k) None s Ht)
      as (Ht' & Hn' & Hl' & Hf).
    cbn [retryTimer timer_id timer_action] in Ht', Hn', Hl', Hf.
    assert (drainNotFound (S k) (setupMessageObserver None 0 st)
            = setupMessageObserver None (S k) (clearTimeout (nextTimer st + k) s)) as ->.
    { replace (S k) with (k + 1) at 1 by lia. rewrite drainNotFound_add.
      fold s. cbn [drainNotFound]. by rewrite Ht. }
    destruct (setupMessageObserver_retry (S k)
                (clearTimeout (nextTimer st + k) s) Hk) as (Ht2 & Hn2 & Hl2 & _).
    rewrite Ht2, Hn2, Hl2, Ht', Hn', Hl', Hn, Hl. unfold retryTimer.
    split; [simpl; do 2 f_equal; lia|]. split; [lia|].
    rewrite <- app_assoc. f_equal.
    rewrite (seq_S (S k) 0), fmap_app. done.
Qed.

(** Once the container is found, the watch named [messages] is the one
    just installed on it, and the only one. *)
Lemma setupMessageObserver_one_watch c retryCount st :
  DOMService.consistent (dom st) ->
  DOMService.liveWatches "messages" (dom (setupMessageObserver (Some c) retryCount st)) =
  [(DOMService.nextObserver (dom st),
    {| DOMService.mo_name := "messages"; DOMService.mo_target := c;
       DOMService.mo_callback := OnMutation c;
       DOMService.mo_options :=
         {| DOMService.childList := true; DOMService.subtree := true |} |})].
Proof.
  intros Hd. unfold setupMessageObserver.
  destruct (messageObserverRetryTimer st); simpl; by apply liveWatches_observe.
Qed.

End Backoff.

(** C7. The container is never found. After the initial attempt, the
    [k]-th retry ([k] = 0, ..., 5) is the only pending timer, set for
    [min(1000 * 2^k, 10000)] ms, that is 1000, 2000, 4000, 8000, 10000
    and 10000 ms: each delay is the double of the one before, capped at
    10000. The attempt of the sixth retry logs the error and sets no
    timer: however long the page then runs, nothing is pending and the
    log shows six warnings and the error, no more. *)
Theorem setupMessageObserver_backoff {World} (st : State World) :
  timers st = [] ->
  let st0 := setupMessageObserver None 0 st in
  (forall k, k < MESSAGE_OBSERVER_MAX_RETRIES ->
     timers (drainNotFound k st0) =
       [{| timer_id := nextTimer st + k;
           timer_delay := Z.min (1000 * 2 ^ Z.of_nat k) 10000;
           timer_action := RunSetupMessageObserver (S k) |}])
  /\ (forall fuel, MESSAGE_OBSERVER_MAX_RETRIES <= fuel ->
        timers (drainNotFound fuel st0) = []
        /\ log (drainNotFound fuel st0) =
             log st
             ++ ((fun k => LogContainerRetry (retryDelay k) (S k) MESSAGE_OBSERVER_MAX_RETRIES)
                   <$> seq 0 MESSAGE_OBSERVER_MAX_RETRIES)
             ++ [LogObserverDisabled])
  /\ retryDelay <$> seq 0 MESSAGE_OBSERVER_MAX_RETRIES
       = [1000; 2000; 4000; 8000; 10000; 10000]%Z
  /\ (forall k, retryDelay (S k) = Z.min (2 * retryDelay k) 10000).
Proof.
  intros E st0. subst st0. split; [|split; [|split]].
  - intros k Hk. by destruct (retry_chain st k E Hk) as (-> & _).
  - intros fuel Hfuel.
    replace fuel with (5 + (1 + (fuel - 6))) by (unfold MESSAGE_OBSERVER_MAX_RETRIES in *; lia).
    rewrite !drainNotFound_add.
    destruct (retry_chain st 5 E) as (Ht & Hn & Hl);
      [unfold MESSAGE_OBSERVER_MAX_RETRIES; lia|].
    set (s := drainNotFound 5 _) in *.
    assert (drainNotFound 1 s = logged LogObserverDisabled (clearTimeout (nextTimer st + 5) s))
      as ->.
    { cbn [drainNotFound]. rewrite Ht.
      destruct (fireTimer_single (retryTimer (nextTimer st) 5) None s Ht)
        as (_ & _ & _ & ->).
      cbn [retryTimer timer_id timer_action]. by apply setupMessageObserver_give_up. }
    destruct (fireTimer_single (retryTimer (nextTimer st) 5) None s Ht)
      as (Ht' & _ & _ & _).
    simpl in Ht'.
    rewrite drainNotFound_idle by done. simpl.
    rewrite Ht', Hl. by rewrite <- app_assoc.
  - reflexivity.
  - intros k. unfold retryDelay.
    rewrite Nat2Z.inj_succ, Z.pow_succ_r by lia. lia.
Qed.

(** The sample: a script that has just been injected. *)
Lemma setupMessageObserver_backoff_witness :
  let st0 := setupMessageObserver None 0 (initial (World := nat) "/new" 0) in
  timers (drainNotFound 3 st0) =
    [{| timer_id := 4; timer_delay := 8000;
        timer_action := RunSetupMessageObserver 4 |}].
Proof.
  apply (proj1 (setupMessageObserver_backoff (initial "/new" 0) eq_refl) 3).
  unfold MESSAGE_OBSERVER_MAX_RETRIES. lia.
Defined.


(* ================================================================== *)
(** * Further properties of the DOM service *)
(* ================================================================== *)

Section RegExpSpec.
Import DOMService.

Lemma append_assoc (s t u : string) : (s +:+ t) +:+ u = s +:+ (t +:+ u).
Proof. induction s as [|a s IH]; [done|]. by rewrite !append_cons, IH. Qed.

Lemma append_nil_l (s : string) : "" +:+ s = s.
Proof. done. Qed.

Lemma length_append (s t : string) :
  String.length (s +:+ t) = String.length s + String.length t.
Proof. induction s as [|a s IH]; [done|]. rewrite append_cons. simpl. by rewrite IH. Qed.

(** When the continuation accepts whatever is left, greedy repetition
    takes the longest run of class characters. *)
Lemma starGreedy_longest {R} cls (k : string -> nat -> string -> option R) taken pos s :
  (forall t p r, is_Some (k t p r)) ->
  exists p' rest,
    s = takeWhile cls s +:+ rest
    /\ starGreedy cls k taken pos s = k (taken +:+ takeWhile cls s) p' rest.
Proof.
  intros Hk. revert taken pos. induction s as [|d s IH]; intros taken pos.
  - exists pos, "". simpl. by rewrite !append_nil_r.
  - simpl. destruct (cls d) eqn:Ed.
    + destruct (IH (taken +:+ String d "") (S pos)) as (p' & rest & Hs & ->).
      exists p', rest. rewrite append_snoc. split.
      * rewrite append_cons. by f_equal.
      * by destruct (Hk (taken +:+ String d (takeWhile cls s)) p' rest) as [r ->].
    + exists pos, (String d s). by rewrite append_nil_r.
Qed.

(** A match of the conversation-id expression at the start of [s]. *)
Lemma matchItems_conversationId pos s g :
  matchItems true conversationIdRegExp pos s = Some g <->
  exists lit d r,
    s = lit +:+ String d r
    /\ sameText true "/chat/" lit = true
    /\ classMatches true hexDash d = true
    /\ g = Some (String d (takeWhile (classMatches true hexDash) r)).
Proof.
  unfold conversationIdRegExp. rewrite matchItems_literal. split.
  - intros (lit & rest & -> & Hlit & H). destruct rest as [|d r]; [done|].
    cbn [matchItems] in H.
    destruct (classMatches true hexDash d) eqn:Ed; [|done].
    exists lit, d, r. split; [done|]. split; [done|]. split; [done|].
    match type of H with starGreedy ?cls ?k ?t ?p ?s = _ =>
      destruct (starGreedy_longest cls k t p s) as (p' & rest & _ & E)
    end.
    { intros t p r0. by eexists. }
    rewrite E in H. simpl in H. by injection H as <-.
  - intros (lit & d & r & -> & Hlit & Ed & ->). exists lit, (String d r).
    split; [done|]. split; [done|]. cbn [matchItems]. rewrite Ed.
    match goal with |- starGreedy ?cls ?k ?t ?p ?s = _ =>
      destruct (starGreedy_longest cls k t p s) as (p' & rest & _ & ->)
    end.
    { intros t p r0. by eexists. }
    done.
Qed.

Lemma startsChat_matchItems pos s :
  startsChat s <-> is_Some (matchItems true conversationIdRegExp pos s).
Proof.
  split.
  - intros (lit & d & r & Hs & Hlit & Ed). eexists.
    apply matchItems_conversationId. by exists lit, d, r.
  - intros [g (lit & d & r & Hs & Hlit & Ed & _)%matchItems_conversationId].
    by exists lit, d, r.
Qed.

(** [exec] returns the match at the leftmost start position that has one. *)
Lemma exec_leftmost ignoreCase items pos s g :
  exec ignoreCase items pos s = Some g <->
  exists before rest,
    s = before +:+ rest
    /\ matchItems ignoreCase items (pos + String.length before) rest = Some g
    /\ forall b' r', s = b' +:+ r' -> String.length b' < String.length before ->
         matchItems ignoreCase items (pos + String.length b') r' = None.
Proof.
  revert pos. induction s as [|a s IH]; intros pos.
  - simpl. split.
    + destruct (matchItems ignoreCase items pos "") as [g'|] eqn:E; [|done].
      intros [= <-]. exists "", "". simpl. rewrite Nat.add_0_r.
      split; [done|]. split; [done|]. intros b' r' _ Hlt. simpl in Hlt. lia.
    + intros (before & rest & Hs & Hm & _).
      destruct before; [|done]. rewrite append_nil_l in Hs. subst rest.
      simpl in Hm. rewrite Nat.add_0_r in Hm. by rewrite Hm.
  - simpl. destruct (matchItems ignoreCase items pos (String a s)) as [g'|] eqn:E.
    + split.
      * intros [= <-]. exists "", (String a s). simpl. rewrite Nat.add_0_r.
        split; [done|]. split; [done|]. intros b' r' _ Hlt. simpl in Hlt. lia.
      * intros (before & rest & Hs & Hm & Hleft).
        destruct before as [|b before].
        -- rewrite append_nil_l in Hs. subst rest. simpl in Hm. rewrite Nat.add_0_r in Hm. congruence.
        -- specialize (Hleft "" (String a s) eq_refl). simpl in Hleft.
           rewrite Nat.add_0_r in Hleft. rewrite Hleft in E; [done | lia].
    + rewrite IH. split.
      * intros (before & rest & -> & Hm & Hleft).
        exists (String a before), rest. simpl.
        rewrite <- Nat.add_succ_comm. split; [done|]. split; [done|].
        intros b' r' Hs Hlt. destruct b' as [|c b'].
        -- rewrite append_nil_l in Hs. subst r'. simpl. by rewrite Nat.add_0_r.
        -- rewrite append_cons in Hs. injection Hs as <- Hs. simpl in *.
           rewrite <- Nat.add_succ_comm. apply Hleft; [done | lia].
      * intros (before & rest & Hs & Hm & Hleft).
        destruct before as [|b before].
        -- rewrite append_nil_l in Hs. subst rest. simpl in Hm. rewrite Nat.add_0_r in Hm. congruence.
        -- rewrite append_cons in Hs. injection Hs as <- ->.
           exists before, rest. simpl in Hm. rewrite <- Nat.add_succ_comm in Hm.
           split; [done|]. split; [done|].
           intros b' r' Hs Hlt.
           specialize (Hleft (String a b') r'). simpl in Hleft.
           rewrite <- Nat.add_succ_comm in Hleft. apply Hleft; [by rewrite Hs | lia].
Qed.

Lemma allIn_takeWhile cls s : allIn cls (takeWhile cls s) = true.
Proof. induction s as [|d s IH]; [done|]. simpl. destruct (cls d) eqn:E; simpl; by rewrite ?E. Qed.

End RegExpSpec.

(** [getConversationId] finds the leftmost place of the pathname where
    [/chat/] (in any letter case) is followed by a hex digit or dash, and
    returns the longest run of hex digits and dashes that starts there;
    it returns null exactly when the pathname has no such place. *)
Theorem getConversationId_spec pathname :
  let cls := DOMService.classMatches true DOMService.hexDash in
  (forall id,
     DOMService.getConversationId pathname = Some id <->
     exists before lit d r,
       pathname = before +:+ lit +:+ String d r
       /\ DOMService.sameText true "/chat/" lit = true
       /\ cls d = true
       /\ id = String d (DOMService.takeWhile cls r)
       /\ forall b' r', pathname = b' +:+ r' ->
            String.length b' < String.length before -> ~ DOMService.startsChat r')
  /\ (DOMService.getConversationId pathname = None <->
      forall b' r', pathname = b' +:+ r' -> ~ DOMService.startsChat r')
  /\ (forall id, DOMService.getConversationId pathname = Some id ->
        id ≠ "" /\ DOMService.allIn cls id = true).
Proof.
  intros cls.
  assert (forall id,
     DOMService.getConversationId pathname = Some id <->
     exists before lit d r,
       pathname = before +:+ lit +:+ String d r
       /\ DOMService.sameText true "/chat/" lit = true
       /\ cls d = true
       /\ id = String d (DOMService.takeWhile cls r)
       /\ forall b' r', pathname = b' +:+ r' ->
            String.length b' < String.length before -> ~ DOMService.startsChat r') as Hsome.
  { intros id. unfold DOMService.getConversationId. split.
    - destruct (DOMService.exec true _ 0 pathname) as [[id'|]|] eqn:E; try done.
      intros [= <-]. apply exec_leftmost in E as (before & rest & -> & Hm & Hleft).
      apply matchItems_conversationId in Hm as (lit & d & r & -> & Hlit & Ed & [= ->]).
      exists before, lit, d, r. repeat (split; [done|]).
      intros b' r' Hs Hlt Hstart.
      apply (startsChat_matchItems (0 + String.length b')) in Hstart as [g Hg].
      by rewrite (Hleft b' r' Hs Hlt) in Hg.
    - intros (before & lit & d & r & -> & Hlit & Ed & -> & Hleft).
      assert (DOMService.exec true DOMService.conversationIdRegExp 0
                (before +:+ lit +:+ String d r)
              = Some (Some (String d (DOMService.takeWhile cls r)))) as ->; [|done].
      apply exec_leftmost. exists before, (lit +:+ String d r).
      split; [done|]. split.
      + apply matchItems_conversationId. by exists lit, d, r.
      + intros b' r' Hs Hlt.
        destruct (DOMService.matchItems true _ _ r') as [g|] eqn:Eg; [|done].
        exfalso. apply (Hleft b' r' Hs Hlt).
        apply (startsChat_matchItems (0 + String.length b')). by eexists. }
  split; [exact Hsome|]. split.
  - split.
    + intros Hnone b' r' Hs (lit & d & r & -> & Hlit & Ed).
      (* some start position has a match: take the leftmost one *)
      assert (is_Some (DOMService.exec true DOMService.conversationIdRegExp 0 pathname))
        as [g Hg].
      { subst pathname. clear Hnone Hsome.
        generalize 0. induction b' as [|c b' IH]; intros pos.
        - eexists. apply exec_here. apply matchItems_conversationId.
          by exists lit, d, r.
        - rewrite append_cons. cbn [DOMService.exec].
          destruct (DOMService.matchItems true DOMService.conversationIdRegExp pos _);
            [by eexists | apply IH]. }
      unfold DOMService.getConversationId in Hnone. rewrite Hg in Hnone.
      destruct g as [id|]; [done|].
      apply exec_leftmost in Hg as (before & rest & _ & Hm & _).
      by apply matchItems_conversationId in Hm as (? & ? & ? & _ & _ & _ & ?).
    + intros Hno. destruct (DOMService.getConversationId pathname) as [id|] eqn:E; [|done].
      destruct (proj1 (Hsome id) eq_refl) as (before & lit & d & r & Hs & Hlit & Ed & _).
      exfalso. apply (Hno before (lit +:+ String d r) Hs). by exists lit, d, r.
  - intros id (before & lit & d & r & _ & _ & Ed & -> & _)%Hsome.
    split; [done|]. simpl. fold cls. by rewrite Ed, allIn_takeWhile.
Qed.

(** [isChatPage] holds exactly of the pathnames that are [/chat/] (in any
    letter case) followed by one or more hex digits and dashes, and
    nothing else. *)
Theorem isChatPage_spec pathname :
  DOMService.isChatPage pathname = true <->
  exists lit segment,
    pathname = lit +:+ segment
    /\ DOMService.sameText true "/chat/" lit = true
    /\ segment ≠ ""
    /\ DOMService.allIn (DOMService.classMatches true DOMService.hexDash) segment = true.
Proof.
  split; [apply isChatPage_shape|].
  intros (lit & segment & -> & Hlit & Hne & Hall).
  unfold DOMService.isChatPage, DOMService.chatPageRegExp.
  change ([DOMService.Bol] ++ DOMService.literal "/chat/"
            ++ [DOMService.PlusClass DOMService.hexDash false; DOMService.Eol])
    with (DOMService.Bol :: (DOMService.literal "/chat/"
            ++ [DOMService.PlusClass DOMService.hexDash false; DOMService.Eol])).
  rewrite exec_Bol.
  assert (DOMService.matchItems true
            (DOMService.literal "/chat/"
               ++ [DOMService.PlusClass DOMService.hexDash false; DOMService.Eol])
            0 (lit +:+ segment) = Some None) as ->; [|done].
  apply matchItems_literal. exists lit, segment. split; [done|]. split; [done|].
  destruct segment as [|d s]; [done|].
  cbn [DOMService.matchItems DOMService.allIn] in *.
  apply andb_prop in Hall as [-> Hall].
  by apply starGreedy_all.
Qed.

Section RegistryFrame.
Import DOMService.
Context {Callback : Type}.
Implicit Types (d : Registry Callback) (name : string) (o : nat).

(** In a consistent registry the observer registered under a name is
    no watch of another name. *)
Lemma unobserve_other name n d :
  consistent d -> name ≠ n ->
  observers (unobserve name d) !! n = observers d !! n
  /\ forall o c, (o, c) ∈ liveWatches n (unobserve name d) <-> (o, c) ∈ liveWatches n d.
Proof.
  intros (Ha & Hb & _) Hne. unfold unobserve.
  destruct (observers d !! name) as [e|] eqn:E; [|done]. simpl. split.
  - by apply lookup_delete_ne.
  - intros o c. rewrite !elem_of_liveWatches. simpl.
    rewrite lookup_delete_Some. split; [tauto|]. intros [Hc Hn].
    split; [|done]. split; [|done]. intros <-.
    destruct (Ha name e E) as (c' & Hc' & Hn' & _). congruence.
Qed.

Lemma observe_other name n tgt cb opts d :
  consistent d -> name ≠ n ->
  observers (observe name tgt cb opts d) !! n = observers d !! n
  /\ forall o c, (o, c) ∈ liveWatches n (observe name tgt cb opts d)
                 <-> (o, c) ∈ liveWatches n d.
Proof.
  intros Hd Hne. destruct (unobserve_other name n d Hd Hne) as [Ho Hl].
  pose proof (unobserve_consistent name d Hd) as (_ & _ & Hc).
  unfold observe. simpl. split.
  - by rewrite lookup_insert_ne.
  - intros o c. rewrite <- Hl, !elem_of_liveWatches. simpl.
    rewrite lookup_insert_Some. split.
    + intros [[[<- <-]|[_ Hc']] Hn]; [done | done].
    + intros [Hc' Hn]. split; [|done]. right. split; [|done]. intros <-.
      assert (nextObserver (unobserve name d) < nextObserver (unobserve name d))
        by (apply Hc; by eexists). lia.
Qed.

Lemma disconnectAll_empty d : consistent d -> connected (disconnectAll d) = ∅.
Proof.
  intros (_ & Hb & _). apply map_eq. intros o. rewrite lookup_empty.
  destruct (connected (disconnectAll d) !! o) as [c|] eqn:E; [|done].
  apply disconnectAll_connected in E as [Hc Hall].
  destruct (Hb o c Hc) as (e & He & Heo). by destruct (Hall _ _ He).
Qed.

Lemma liveWatches_unobserve name d :
  consistent d -> liveWatches name (unobserve name d) = [].
Proof.
  intros Hd. pose proof (unobserve_consistent name d Hd) as (_ & Hb & _).
  pose proof (unobserve_lookup name d) as Hnone.
  destruct (liveWatches name (unobserve name d)) as [|[o c] l] eqn:E; [done|].
  assert ((o, c) ∈ liveWatches name (unobserve name d)) as Hx by (rewrite E; left).
  apply elem_of_liveWatches in Hx as [Hc Hn].
  destruct (Hb o c Hc) as (e & He & _). rewrite Hn, Hnone in He. done.
Qed.

End RegistryFrame.

(** Watches under different names do not disturb each other: [observe]
    and [unobserve] under one name leave the entry and the connected
    watch of every other name as they were. *)
Theorem observers_names_independent {Callback} (ops : list (DOMService.Op Callback))
    name n tgt cb opts :
  name ≠ n ->
  let d := DOMService.run ops DOMService.empty in
  (DOMService.observers (DOMService.observe name tgt cb opts d) !! n
     = DOMService.observers d !! n
   /\ forall o c,
        (o, c) ∈ DOMService.liveWatches n (DOMService.observe name tgt cb opts d)
        <-> (o, c) ∈ DOMService.liveWatches n d)
  /\ (DOMService.observers (DOMService.unobserve name d) !! n
        = DOMService.observers d !! n
      /\ forall o c,
           (o, c) ∈ DOMService.liveWatches n (DOMService.unobserve name d)
           <-> (o, c) ∈ DOMService.liveWatches n d).
Proof.
  intros Hne d.
  assert (DOMService.consistent d) as Hd by apply run_consistent, consistent_empty.
  split; [by apply observe_other | by apply unobserve_other].
Qed.

(** The sample: a watch named [sidebar] while [messages] is replaced. *)
Lemma observers_names_independent_witness :
  let opts := {| DOMService.childList := true; DOMService.subtree := true |} in
  let d :=
    DOMService.run
      [DOMService.OpObserve "sidebar" 3 5 opts; DOMService.OpObserve "messages" 7 6 opts]
      DOMService.empty in
  DOMService.observers (DOMService.observe "messages" 9 8 opts d) !! "sidebar"
  = DOMService.observers d !! "sidebar".
Proof.
  refine (proj1 (proj1
    (observers_names_independent (Callback := nat)
       [DOMService.OpObserve "sidebar" 3 5
          {| DOMService.childList := true; DOMService.subtree := true |};
        DOMService.OpObserve "messages" 7 6
          {| DOMService.childList := true; DOMService.subtree := true |}]
       "messages" "sidebar" 9 8
       {| DOMService.childList := true; DOMService.subtree := true |} _))).
  discriminate.
Defined.

(** Teardown. In every reachable registry, [unobserve] leaves no entry
    and no connected watch under its name, and is the identity when the
    name is not registered; [disconnectAll] leaves no entry and no
    connected observer at all, so that no mutation notifies anyone. *)
Theorem observers_teardown {Callback} (ops : list (DOMService.Op Callback)) :
  let d := DOMService.run ops DOMService.empty in
  (forall name,
     DOMService.observers (DOMService.unobserve name d) !! name = None
     /\ DOMService.liveWatches name (DOMService.unobserve name d) = []
     /\ (DOMService.observers d !! name = None -> DOMService.unobserve name d = d))
  /\ DOMService.observers (DOMService.disconnectAll d) = ∅
  /\ DOMService.connected (DOMService.disconnectAll d) = ∅
  /\ forall visible, DOMService.notified visible (DOMService.disconnectAll d) = [].
Proof.
  intros d.
  assert (DOMService.consistent d) as Hd by apply run_consistent, consistent_empty.
  split; [|split; [done|split]].
  - intros name. split; [apply unobserve_lookup|]. split; [by apply liveWatches_unobserve|].
    intros E. unfold DOMService.unobserve. by rewrite E.
  - by apply disconnectAll_empty.
  - intros visible. unfold DOMService.notified.
    rewrite (disconnectAll_empty d Hd), map_to_list_empty. done.
Qed.


(* ================================================================== *)
(** * Further properties of the content script *)
(* ================================================================== *)

(** [registerFeature] stores the module under its key and does nothing
    else: no feature is activated or called, the other keys keep their
    modules, and a second registration under the same key replaces the
    first without a trace. A module registered over an Active key is the
    one whose [destroy] the next [deactivateFeature] calls. *)
Theorem registerFeature_overwrites {World} (st : State World) (m : FeatureModule World) :
  let st' := registerFeature m st in
  features st' !! key m = Some m
  /\ (forall k, k ≠ key m -> features st' !! k = features st !! k)
  /\ activeFeatures st' = activeFeatures st
  /\ calls st' = calls st
  /\ world st' = world st
  /\ (forall m', key m' = key m ->
        features (registerFeature m (registerFeature m' st)) = features st')
  /\ (key m ∈ activeFeatures st ->
        calls (deactivateFeature (key m) st') = calls st ++ [CallDestroy (key m)]
        /\ world (deactivateFeature (key m) st') = (destroy m (world st)).2).
Proof.
  intros st'. split; [apply lookup_insert_eq|]. split.
  { intros k Hk. simpl. by rewrite lookup_insert_ne. }
  do 3 (split; [done|]). split.
  - intros m' Hk. simpl. rewrite Hk. apply insert_insert_eq.
  - intros Hin.
    destruct (deactivateFeature_registered (key m) st' m) as (Ec & Ew & _);
      [done | apply lookup_insert_eq |].
    by rewrite Ec, Ew.
Qed.

Section SyncFacts.
Context {World : Type}.
Implicit Types (st : State World) (key : string).

(** The keys a pass would activate: enabled and registered. *)
Lemma syncLoop_from_inactive settings keys st :
  NoDup keys ->
  (forall k, k ∈ keys -> k ∉ activeFeatures st) ->
  let due := filter (fun k => get (settings_features settings) k = true
                              /\ is_Some (features st !! k)) keys in
  let st' := syncLoop settings keys st in
  calls st' = calls st ++ ((fun k => CallInit k settings) <$> due)
  /\ (exists l, l ⊆ due /\ activeFeatures st' = activeFeatures st ++ l)
  /\ ((forall k m w, features st !! k = Some m -> (init m settings w).1 = Normal) ->
      activeFeatures st' = activeFeatures st ++ due).
Proof.
  intros Hnd. revert st. induction Hnd as [|k keys Hk Hnd IH]; intros st Hin.
  { simpl. rewrite !app_nil_r. split; [done|]. split; [|done].
    exists []. by rewrite app_nil_r. }
  cbv zeta. rewrite syncLoop_cons.
  assert (k ∉ activeFeatures st) as Hka by (apply Hin; left).
  set (st1 := if get (settings_features settings) k
              then activateFeature k settings st else deactivateFeature k st).
  assert (features st1 = features st) as Ef.
  { unfold st1. destruct (get _ k);
      auto using activateFeature_features, deactivateFeature_features. }
  assert (forall k', k' ∈ keys -> k' ∉ activeFeatures st1) as Hin1.
  { intros k' Hk' Ha. assert (k' ≠ k) as Hne by (intros ->; done).
    assert (untouched k' st st1) as (Hu & _).
    { unfold st1. destruct (get _ k);
        auto using activateFeature_untouched, deactivateFeature_untouched. }
    apply Hu in Ha. revert Ha. apply Hin. by right. }
  destruct (IH st1 Hin1) as (Ec & (l & Hl & Ea) & Hall).
  rewrite Ef in Ec, Hl, Hall. clear IH.
  set (rest := filter _ keys) in *.
  destruct (get (settings_features settings) k) eqn:Eg.
  - destruct (features st !! k) as [m|] eqn:Em.
    + rewrite filter_cons_True by (split; [done | by eexists]). fold rest.
      destruct (activateFeature_inactive k settings st m Hka Em)
        as (Ec1 & _ & _ & Ea1 & _).
      fold st1 in Ec1, Ea1. split; [|split].
      * by rewrite Ec, Ec1, fmap_cons, <- app_assoc.
      * rewrite Ea, Ea1.
        destruct (init m settings (world st)) as [[] w]; simpl.
        -- exists (k :: l). rewrite <- app_assoc. split; [|done].
           intros x [->|Hx]%elem_of_cons; [left | right; by apply Hl].
        -- exists l. split; [|done]. intros x Hx. right. by apply Hl.
      * intros Hok. rewrite (Hall Hok), Ea1, (Hok k m (world st) Em).
        by rewrite <- app_assoc.
    + rewrite filter_cons_False by (intros [_ [? ?]]; congruence). fold rest.
      assert (calls st1 = calls st /\ activeFeatures st1 = activeFeatures st) as [Ec1 Ea1].
      { unfold st1, activateFeature. apply Set_has_false in Hka. by rewrite Hka, Em. }
      split; [by rewrite Ec, Ec1|]. split.
      * exists l. by rewrite Ea, Ea1.
      * intros Hok. by rewrite (Hall Hok), Ea1.
  - rewrite filter_cons_False by (intros [? _]; congruence). fold rest.
    assert (st1 = st) as E by (unfold st1; by apply deactivateFeature_inactive).
    rewrite E in *. split; [done|]. split; [by exists l | done].
Qed.

(** A pass over settings that the state already agrees with calls no
    feature and changes neither the active set nor the world. *)
Lemma syncLoop_settled settings keys st :
  (forall k, k ∈ keys ->
     if get (settings_features settings) k
     then k ∈ activeFeatures st \/ features st !! k = None
     else k ∉ activeFeatures st) ->
  let st' := syncLoop settings keys st in
  calls st' = calls st /\ activeFeatures st' = activeFeatures st
  /\ world st' = world st /\ features st' = features st.
Proof.
  revert st. induction keys as [|k keys IH]; intros st Hst; [done|].
  cbv zeta. rewrite syncLoop_cons.
  set (st1 := if get (settings_features settings) k
              then activateFeature k settings st else deactivateFeature k st).
  assert (calls st1 = calls st /\ activeFeatures st1 = activeFeatures st
          /\ world st1 = world st /\ features st1 = features st) as (Ec & Ea & Ew & Ef).
  { specialize (Hst k (list_elem_of_here _ _)). unfold st1.
    destruct (get (settings_features settings) k).
    - destruct Hst as [Hin|Hnone]; [by rewrite activateFeature_active|].
      unfold activateFeature. rewrite Hnone. by destruct (Set_has _ _).
    - by rewrite deactivateFeature_inactive. }
  destruct (IH st1) as (-> & -> & -> & ->); [|done].
  intros k' Hk'. rewrite Ea, Ef. apply Hst. by right.
Qed.

Lemma syncLoop_destroy_enabled settings keys key st :
  get (settings_features settings) key = true ->
  destroyCalls key (calls (syncLoop settings keys st)) = destroyCalls key (calls st).
Proof.
  intros Hget. revert st. induction keys as [|k keys IH]; intros st; [done|].
  rewrite syncLoop_cons, IH. destruct (get (settings_features settings) k) eqn:Ek.
  - destruct (activateFeature_calls k settings st) as [[->| ->] _]; [done|].
    unfold destroyCalls. rewrite count_snoc. simpl. lia.
  - assert (k ≠ key) as Hne by congruence.
    by destruct (deactivateFeature_untouched key k st) as (_ & _ & ->).
Qed.

End SyncFacts.

(** At startup, and whenever no feature is Active: [syncFeatures] calls
    [init] on the keys that are enabled and registered, once each and in
    the order of the settings' keys, and calls nothing else; the keys
    that become Active are among them, and are all of them when no [init]
    throws. *)
Theorem syncFeatures_from_inactive {World} (st : State World) settings :
  activeFeatures st = [] ->
  NoDup (Object_keys (settings_features settings)) ->
  let due := filter (fun k => get (settings_features settings) k = true
                              /\ is_Some (features st !! k))
               (Object_keys (settings_features settings)) in
  let st' := syncFeatures settings st in
  calls st' = calls st ++ ((fun k => CallInit k settings) <$> due)
  /\ activeFeatures st' ⊆ due
  /\ ((forall k m w, features st !! k = Some m -> (init m settings w).1 = Normal) ->
      activeFeatures st' = due).
Proof.
  intros Ha Hnd due st'. subst st'. unfold syncFeatures.
  destruct (setSidebarPinningEnabled_frame
              (get (settings_features settings) "folders")
              (syncLoop settings (Object_keys (settings_features settings)) st))
    as (_ & -> & -> & _).
  destruct (syncLoop_from_inactive settings _ st Hnd) as (Ec & (l & Hl & Ea') & Hall).
  { intros k _. rewrite Ha. apply not_elem_of_nil. }
  rewrite Ha in Ea', Hall. simpl in Ea', Hall.
  split; [done|]. split; [by rewrite Ea' | done].
Qed.

(** The sample: three keys, one disabled, one not registered. *)
Lemma syncFeatures_from_inactive_witness :
  let s := Samples.settingsOf [("timeline", true); ("folders", false); ("export", true)] in
  let st := Samples.registered [Samples.steady "folders"; Samples.steady "timeline"] in
  calls (syncFeatures s st) = calls st ++ [CallInit "timeline" s].
Proof.
  refine (proj1 (syncFeatures_from_inactive
    (Samples.registered [Samples.steady "folders"; Samples.steady "timeline"])
    (Samples.settingsOf [("timeline", true); ("folders", false); ("export", true)])
    _ _)).
  - reflexivity.
  - by apply (bool_decide_unpack _).
Defined.

(** Reconciling twice is reconciling once. A second [syncFeatures] with
    the same settings never calls [destroy]; and when no [init] of a
    registered module throws, it calls nothing at all and leaves the
    active set and the features' world as the first pass left them. *)
Theorem syncFeatures_idempotent {World} (st : State World) settings :
  wf st ->
  NoDup (Object_keys (settings_features settings)) ->
  let st1 := syncFeatures settings st in
  let st2 := syncFeatures settings st1 in
  (forall key, destroyCalls key (calls st2) = destroyCalls key (calls st1))
  /\ ((forall k m w, features st !! k = Some m -> (init m settings w).1 = Normal) ->
      calls st2 = calls st1
      /\ activeFeatures st2 = activeFeatures st1
      /\ world st2 = world st1).
Proof.
  intros Hwf Hnd st1 st2.
  set (keys := Object_keys (settings_features settings)) in *.
  assert (features st1 = features st) as Ef.
  { unfold st1, syncFeatures. cbv zeta. fold keys.
    destruct (setSidebarPinningEnabled_frame
                (get (settings_features settings) "folders")
                (syncLoop settings keys st)) as (-> & _).
    apply syncLoop_features. }
  assert (forall k, k ∈ keys -> get (settings_features settings) k = false ->
                    k ∉ activeFeatures st1) as Hoff.
  { intros k Hk Hget.
    destruct (syncFeatures_disabled settings st k Hnd Hk Hget) as (Ha & _); [|done].
    apply Hwf. }
  assert (forall s : State World,
            calls (syncFeatures settings s) = calls (syncLoop settings keys s)
            /\ activeFeatures (syncFeatures settings s)
               = activeFeatures (syncLoop settings keys s)
            /\ world (syncFeatures settings s) = world (syncLoop settings keys s)) as Hfr.
  { intros s. unfold syncFeatures. cbv zeta. fold keys.
    by destruct (setSidebarPinningEnabled_frame
                   (get (settings_features settings) "folders")
                   (syncLoop settings keys s)) as (_ & -> & -> & _ & -> & _). }
  destruct (Hfr st1) as (Ec2 & Ea2 & Ew2). fold st2 in Ec2, Ea2, Ew2.
  split.
  - intros key. rewrite Ec2.
    destruct (get (settings_features settings) key) eqn:Eg.
    { by apply syncLoop_destroy_enabled. }
    destruct (decide (key ∈ keys)) as [Hk|Hk].
    + by destruct (syncLoop_quiet key settings keys st1 Eg (Hoff key Hk Eg)) as (_ & _ & ->).
    + by destruct (syncLoop_untouched key settings keys st1 Hk) as (_ & _ & ->).
  - intros Hok. rewrite Ec2, Ea2, Ew2.
    destruct (syncLoop_settled settings keys st1) as (E1 & E2 & E3 & _); [|done].
    intros k Hk. destruct (get (settings_features settings) k) eqn:Eg; [|by apply Hoff].
    rewrite Ef. destruct (features st !! k) as [m|] eqn:Em; [left | by right].
    destruct (syncFeatures_enabled settings st k m Hnd Hk Eg Em) as (_ & H1 & H2).
    fold st1 in H1, H2.
    destruct (decide (k ∈ activeFeatures st)) as [Hin|Hin]; [by apply H1|].
    destruct (H2 Hin) as (_ & w & Hw). apply Hw. by eapply Hok.
Qed.

(** The sample: the swap of [folders] and [timeline], reconciled twice. *)
Lemma syncFeatures_idempotent_witness :
  let st :=
    activateFeature "folders" (Samples.settingsOf [("folders", true)])
      (Samples.registered [Samples.steady "folders"; Samples.steady "timeline"]) in
  let s := Samples.settingsOf [("folders", false); ("timeline", true)] in
  destroyCalls "folders" (calls (syncFeatures s (syncFeatures s st)))
  = destroyCalls "folders" (calls (syncFeatures s st)).
Proof.
  refine (proj1 (syncFeatures_idempotent
    (activateFeature "folders" (Samples.settingsOf [("folders", true)])
       (Samples.registered [Samples.steady "folders"; Samples.steady "timeline"]))
    (Samples.settingsOf [("folders", false); ("timeline", true)]) _ _) "folders").
  - apply activateFeature_wf. unfold Samples.registered. simpl.
    do 2 apply registerFeature_wf. apply wf_initial.
  - by apply (bool_decide_unpack _).
Defined.

Section Recovery.
Context {World : Type}.
Implicit Types (st : State World).

(** A search that fails leaves the observers alone. *)
Lemma setupMessageObserver_None_dom k st :
  dom (setupMessageObserver None k st) = dom st.
Proof. unfold setupMessageObserver. by destruct (_ <=? _)%nat. Qed.

Lemma retry_chain_env st k :
  timers st = [] ->
  k < MESSAGE_OBSERVER_MAX_RETRIES ->
  dom (drainNotFound k (setupMessageObserver None 0 st)) = dom st
  /\ messageObserverRetryTimer (drainNotFound k (setupMessageObserver None 0 st))
     = Some (nextTimer st + k).
Proof.
  intros E. induction k as [|k IH]; intros Hk.
  - cbn [drainNotFound]. rewrite setupMessageObserver_None_dom.
    destruct (setupMessageObserver_retry 0 st Hk) as (_ & _ & _ & ->).
    by rewrite Nat.add_0_r.
  - destruct IH as (Hd & Hm); [lia|].
    destruct (retry_chain st k E) as (Ht & Hn & _); [lia|].
    set (s := drainNotFound k _) in *.
    destruct (fireTimer_single (retryTimer (nextTimer st) k) None s Ht)
      as (_ & Hn' & _ & Hf).
    cbn [retryTimer timer_id timer_action] in Hn', Hf.
    assert (drainNotFound (S k) (setupMessageObserver None 0 st)
            = setupMessageObserver None (S k) (clearTimeout (nextTimer st + k) s)) as ->.
    { replace (S k) with (k + 1) at 1 by lia. rewrite drainNotFound_add.
      fold s. cbn [drainNotFound]. by rewrite Ht. }
    rewrite setupMessageObserver_None_dom.
    destruct (setupMessageObserver_retry (S k) (clearTimeout (nextTimer st + k) s) Hk)
      as (_ & _ & _ & ->).
    simpl. rewrite Hd, Hn. split; [done | f_equal; lia].
Qed.

End Recovery.

(** Recovery. The container is missing at the first attempt and at [k]
    retries, [k] below the limit, and is there at the next retry: the
    observer is then installed on it as the one watch named [messages],
    the retry timer variable is reset, no timer is left pending, and the
    log ends with the message of success after [k + 1] warnings. *)
Theorem setupMessageObserver_recovers {World} (st : State World) k c :
  timers st = [] ->
  DOMService.consistent (dom st) ->
  k < MESSAGE_OBSERVER_MAX_RETRIES ->
  let s := drainNotFound k (setupMessageObserver None 0 st) in
  let s' := fireTimer (nextTimer st + k) (Some c) s in
  timers s' = []
  /\ messageObserverRetryTimer s' = None
  /\ DOMService.liveWatches "messages" (dom s') =
       [(DOMService.nextObserver (dom st),
         {| DOMService.mo_name := "messages"; DOMService.mo_target := c;
            DOMService.mo_callback := OnMutation c;
            DOMService.mo_options :=
              {| DOMService.childList := true; DOMService.subtree := true |} |})]
  /\ log s' =
       log st ++ (retryWarning <$> seq 0 (S k)) ++ [LogObserverInitialized].
Proof.
  intros E Hd Hk s s'.
  destruct (retry_chain st k E Hk) as (Ht & Hn & Hl).
  destruct (retry_chain_env st k E Hk) as (Hdom & Hm).
  fold s in Ht, Hn, Hl, Hdom, Hm.
  destruct (fireTimer_single (retryTimer (nextTimer st) k) (Some c) s Ht)
    as (Ht' & _ & _ & Hf).
  cbn [retryTimer timer_id timer_action] in Ht', Hf.
  subst s'. rewrite Hf. clear Hf.
  set (s1 := clearTimeout (nextTimer st + k) s) in *.
  assert (messageObserverRetryTimer s1 = Some (nextTimer st + k)) as Hm1 by done.
  assert (dom s1 = dom st) as Hd1 by done.
  assert (log s1 = log s) as Hl1 by done.
  unfold setupMessageObserver. rewrite Hm1.
  split; [|split; [done|split]].
  - simpl. simpl in Ht'. by rewrite Ht'.
  - simpl. simpl in Hd1. rewrite Hd1. by apply liveWatches_observe.
  - simpl. rewrite Hl. by rewrite <- app_assoc.
Qed.

(** The sample: the container appears at the third retry. *)
Lemma setupMessageObserver_recovers_witness :
  let st := initial (World := nat) "/new" 0 in
  let s' := fireTimer 3 (Some 7) (drainNotFound 2 (setupMessageObserver None 0 st)) in
  timers s' = [] /\ messageObserverRetryTimer s' = None.
Proof.
  pose proof (setupMessageObserver_recovers (initial (World := nat) "/new" 0) 2 7
                eq_refl consistent_empty) as H.
  destruct H as (H1 & H2 & _); [unfold MESSAGE_OBSERVER_MAX_RETRIES; lia|].
  split; [exact H1 | exact H2].
Defined.

Section Throwing.
Context {World : Type}.
Implicit Types (st : State World) (key : string).
Implicit Types (hook : FeatureModule World -> option (World -> Completion * World)).

Lemma notify_app hook mk l1 l2 st :
  notify hook mk (l1 ++ l2) st =
  match notify hook mk l1 st with
  | (Normal, st1) => notify hook mk l2 st1
  | (Throw, st1) => (Throw, st1)
  end.
Proof.
  revert st. induction l1 as [|k l1 IH]; intros st; simpl.
  - by destruct (notify hook mk l2 st) as [[] ?].
  - destruct (features st !! k ≫= hook) as [f|]; [|apply IH].
    destruct (f (world st)) as [[] w]; [apply IH | done].
Qed.

(** The loop runs up to the first hooked method that throws, and that
    call is its last. *)
Lemma notify_throw hook mk pre k post st f :
  features st !! k ≫= hook = Some f ->
  (forall w, (f w).1 = Throw) ->
  (forall key g w, key ∈ pre -> features st !! key ≫= hook = Some g -> (g w).1 = Normal) ->
  (notify hook mk (pre ++ k :: post) st).1 = Throw
  /\ exists w,
       (notify hook mk (pre ++ k :: post) st).2
       = withCalls (mk <$> (hooked hook st pre ++ [k])) w st.
Proof.
  intros Hf Hthrow Hpre. rewrite notify_app.
  destruct (notify_normal hook mk pre st Hpre) as (Hn & w1 & Hs).
  destruct (notify hook mk pre st) as [c st1]. simpl in Hn, Hs. subst c st1.
  simpl. change (features (withCalls _ w1 st)) with (features st). rewrite Hf.
  change (world (withCalls _ w1 st)) with w1.
  pose proof (Hthrow w1) as Ht. destruct (f w1) as [c w2]. simpl in Ht. subst c.
  split; [done|]. exists w2. simpl.
  unfold withCalls, called. simpl. by rewrite fmap_app, <- app_assoc.
Qed.

End Throwing.

(** What [onMutation] does when an [onMessagesChanged] throws: nothing
    catches it, so the features that come later in the active set are
    not notified in that firing. The calls made are those of the
    implementing features before the throwing one, then the throwing
    one, and the exception leaves [onMutation]. *)
Theorem onMutation_stops_at_throw {World} (st : State World) container pre k post m f :
  NoDup (activeFeatures st) ->
  activeFeatures st = pre ++ k :: post ->
  features st !! k = Some m ->
  onMessagesChanged m = Some f ->
  (forall w, (f container w).1 = Throw) ->
  (forall key m' f' w,
     key ∈ pre -> features st !! key = Some m' -> onMessagesChanged m' = Some f' ->
     (f' container w).1 = Normal) ->
  let r := onMutation container st in
  r.1 = Throw
  /\ calls r.2 =
       calls st
       ++ ((fun key => CallOnMessagesChanged key container)
             <$> (hooked (messagesChangedHook container) st pre ++ [k]))
  /\ forall key, key ∈ post ->
       onMessagesChangedCalls key (calls r.2) = onMessagesChangedCalls key (calls st).
Proof.
  intros Hnd Ha Hm Hf Hthrow Hpre r. subst r. unfold onMutation.
  rewrite notifyMessagesChanged_notify, Ha.
  destruct (notify_throw (messagesChangedHook container)
              (fun key => CallOnMessagesChanged key container) pre k post st
              (f container)) as (Hr & w & Hs).
  { rewrite Hm. simpl. unfold messagesChangedHook. by rewrite Hf. }
  { done. }
  { intros key g w Hk Hg. destruct (features st !! key) as [m'|] eqn:Em; [|done].
    simpl in Hg. unfold messagesChangedHook in Hg.
    destruct (onMessagesChanged m') as [f'|] eqn:Ef; [|done].
    simpl in Hg. injection Hg as <-. by eapply Hpre. }
  split; [done|]. rewrite Hs. split; [done|].
  intros key Hkey. simpl. unfold onMessagesChangedCalls. rewrite count_app.
  rewrite (count_none (isOnMessagesChanged key) (_ <$> _)); [lia|].
  intros c (k' & -> & Hk')%list_elem_of_fmap. simpl. apply String.eqb_neq. intros ->.
  rewrite Ha in Hnd. apply NoDup_app in Hnd as (_ & Hdisj & Hnd).
  apply NoDup_cons in Hnd as (Hk & _).
  apply elem_of_app in Hk' as [Hk'|Hk'].
  - apply elem_of_hooked in Hk' as [Hk' _]. apply (Hdisj _ Hk'). by right.
  - apply list_elem_of_singleton in Hk' as ->. done.
Qed.

(** The sample: [export] throws before [timeline] is reached. *)
Lemma onMutation_stops_at_throw_witness :
  let s := Samples.settingsOf [("export", true); ("timeline", true)] in
  let st :=
    syncFeatures s (Samples.registered [Samples.fragile "export"; Samples.steady "timeline"]) in
  (onMutation 7 st).1 = Throw
  /\ onMessagesChangedCalls "timeline" (calls (onMutation 7 st).2)
     = onMessagesChangedCalls "timeline" (calls st).
Proof.
  pose proof (onMutation_stops_at_throw
    (syncFeatures (Samples.settingsOf [("export", true); ("timeline", true)])
       (Samples.registered [Samples.fragile "export"; Samples.steady "timeline"]))
    7 [] "export" ["timeline"] (Samples.fragile "export") (fun _ w => (Throw, w))) as H.
  destruct H as (H1 & _ & H3).
  - by apply (bool_decide_unpack _).
  - reflexivity.
  - reflexivity.
  - reflexivity.
  - reflexivity.
  - intros key m' f' w Hk. by apply elem_of_nil in Hk.
  - split; [exact H1|]. apply H3. by apply (bool_decide_unpack _).
Defined.

(* ================================================================== *)
(** * The logger's level filter *)
(* ================================================================== *)

Section LoggerFacts.
Import LoggerService.

Lemma log_minLevel l ts tag msg lg : minLevel (log l ts tag msg lg) = minLevel lg.
Proof. unfold log. by destruct (_ <? _)%nat. Qed.

Lemma logAll_snoc cs c lg :
  logAll (cs ++ [c]) lg
  = log (call_level c) (call_timestamp c) (call_tag c) (call_message c) (logAll cs lg).
Proof. unfold logAll. by rewrite foldl_app. Qed.

Lemma logAll_minLevel cs lg : minLevel (logAll cs lg) = minLevel lg.
Proof.
  induction cs as [|c cs IH] using rev_ind; [done|].
  by rewrite logAll_snoc, log_minLevel.
Qed.

Lemma logAll_console cs lg :
  console (logAll cs lg)
  = console lg ++ (written <$>
      filter (fun c => LEVEL_PRIORITY (minLevel lg) <= LEVEL_PRIORITY (call_level c)) cs).
Proof.
  induction cs as [|c cs IH] using rev_ind.
  - simpl. by rewrite app_nil_r.
  - rewrite logAll_snoc, filter_app, fmap_app, app_assoc, <- IH.
    unfold log. rewrite logAll_minLevel.
    destruct (Nat.ltb_spec (LEVEL_PRIORITY (call_level c)) (LEVEL_PRIORITY (minLevel lg))).
    + rewrite filter_cons_False, filter_nil by lia. simpl. by rewrite app_nil_r.
    + rewrite filter_cons_True, filter_nil by lia. done.
Qed.

End LoggerFacts.

(** Whatever is logged, in whatever order: the console receives
    exactly the calls whose level is not below the minimum level, in the
    order of the calls, each through the console method of its own level
    and under the prefix [[Voyager][time][tag]]; the minimum level is not
    changed by logging. So an error is written at every minimum level, and
    at the level the logger starts with no debug message is written. *)
Theorem logger_level_filter (cs : list LoggerService.LogCall) (lg : LoggerService.Logger) :
  let out := LoggerService.logAll cs lg in
  LoggerService.console out
  = LoggerService.console lg ++ (LoggerService.written <$>
      filter (fun c => LoggerService.LEVEL_PRIORITY (LoggerService.minLevel lg)
                       <= LoggerService.LEVEL_PRIORITY (LoggerService.call_level c)) cs)
  /\ LoggerService.minLevel out = LoggerService.minLevel lg
  /\ (forall c, c ∈ cs -> LoggerService.call_level c = Error ->
        LoggerService.written c ∈ LoggerService.console out)
  /\ (forall w, w ∈ LoggerService.console (LoggerService.logAll cs LoggerService.initial) ->
        LoggerService.console_method w <> Debug).
Proof.
  cbv zeta. split; [apply logAll_console|]. split; [apply logAll_minLevel|]. split.
  - intros c Hc He. rewrite logAll_console. apply elem_of_app. right.
    apply list_elem_of_fmap. exists c. split; [done|].
    apply list_elem_of_filter. split; [|done].
    rewrite He. destruct (LoggerService.minLevel lg); simpl; lia.
  - intros w. rewrite logAll_console. simpl.
    intros (c & -> & Hc)%list_elem_of_fmap.
    apply list_elem_of_filter in Hc as [Hp _]. simpl.
    intros E. rewrite E in Hp. simpl in Hp. lia.
Qed.

(* ================================================================== *)
(** * Settings: normalisation and the feature toggle *)
(* ================================================================== *)

Section ObjectFacts.
Import StorageService.

Lemma eqb_refl_s (k : string) : String.eqb k k = true.
Proof. by apply String.eqb_eq. Qed.

Lemma eqb_ne_s (k k' : string) : k <> k' -> String.eqb k k' = false.
Proof. by intros; apply String.eqb_neq. Qed.

Lemma getProp_setProp_eq k v o : getProp (setProp k v o) k = v.
Proof.
  induction o as [|[k' w] o IH]; simpl.
  - by rewrite eqb_refl_s.
  - destruct (String.eqb k' k) eqn:E; simpl; by rewrite E.
Qed.

Lemma getProp_setProp_ne k k' v o : k <> k' -> getProp (setProp k v o) k' = getProp o k'.
Proof.
  intros Hne. induction o as [|[k0 w] o IH]; simpl.
  - by rewrite eqb_ne_s.
  - destruct (String.eqb k0 k) eqn:E; simpl.
    + apply String.eqb_eq in E as ->. by rewrite eqb_ne_s.
    + by rewrite IH.
Qed.

Lemma setProp_in k v o : k ∈ o.*1 -> (setProp k v o).*1 = o.*1.
Proof.
  induction o as [|[k' w] o IH]; simpl; [by intros ?%elem_of_nil|].
  intros Hin. destruct (String.eqb k' k) eqn:E; simpl; [done|].
  apply String.eqb_neq in E. f_equal. apply IH.
  apply elem_of_cons in Hin as [->|]; done.
Qed.

Lemma setProp_notin k v o : k ∉ o.*1 -> setProp k v o = o ++ [(k, v)].
Proof.
  induction o as [|[k' w] o IH]; simpl; [done|].
  intros Hn. apply not_elem_of_cons in Hn as [Hne Hn].
  rewrite eqb_ne_s by done. by rewrite IH.
Qed.

Lemma setProp_middle k v w pre post :
  k ∉ pre.*1 -> setProp k v (pre ++ (k, w) :: post) = pre ++ (k, v) :: post.
Proof.
  induction pre as [|[k' u] pre IH]; simpl.
  - by rewrite eqb_refl_s.
  - intros Hn. apply not_elem_of_cons in Hn as [Hne Hn].
    rewrite eqb_ne_s by done. by rewrite IH.
Qed.

Lemma setProp_same k o : k ∈ o.*1 -> setProp k (getProp o k) o = o.
Proof.
  induction o as [|[k' w] o IH]; simpl; [by intros ?%elem_of_nil|].
  intros Hin. destruct (String.eqb k' k) eqn:E.
  - by apply String.eqb_eq in E as ->.
  - apply String.eqb_neq in E. f_equal. apply IH.
    apply elem_of_cons in Hin as [->|]; done.
Qed.

Lemma setProp_setProp k v w o : setProp k v (setProp k w o) = setProp k v o.
Proof.
  induction o as [|[k' u] o IH]; simpl.
  - by rewrite eqb_refl_s.
  - destruct (String.eqb k' k) eqn:E; simpl; rewrite E; [done|]. by rewrite IH.
Qed.

Lemma setProp_keys k v o :
  (setProp k v o).*1 = (o.*1) \/ ((k ∉ o.*1) /\ (setProp k v o).*1 = (o.*1) ++ [k]).
Proof.
  destruct (decide (k ∈ o.*1)) as [Hin|Hn].
  - left. by apply setProp_in.
  - right. split; [done|]. rewrite setProp_notin by done. by rewrite fmap_app.
Qed.

Lemma setProp_NoDup k v o : NoDup o.*1 -> NoDup (setProp k v o).*1.
Proof.
  intros Hnd. destruct (setProp_keys k v o) as [->|[Hn ->]]; [done|].
  apply NoDup_app. split; [done|]. split.
  - intros x Hx ->%list_elem_of_singleton. done.
  - apply NoDup_singleton.
Qed.

Lemma spread_cons base p src : spread base (p :: src) = spread (setProp p.1 p.2 base) src.
Proof. done. Qed.

Lemma spread_NoDup base src : NoDup base.*1 -> NoDup (spread base src).*1.
Proof.
  revert base. induction src as [|p src IH]; intros base Hnd; [done|].
  rewrite spread_cons. apply IH. by apply setProp_NoDup.
Qed.

Lemma spread_prefix base src : base.*1 `prefix_of` (spread base src).*1.
Proof.
  revert base. induction src as [|p src IH]; intros base; [done|].
  rewrite spread_cons. etrans; [|apply IH].
  destruct (setProp_keys p.1 p.2 base) as [->|[_ ->]]; [done|].
  by apply prefix_app_r.
Qed.

(** Spreading over a base whose keys are the first keys of the source,
    in the same order, gives the source. *)
Lemma spread_over pre b o :
  b.*1 = o.*1 -> NoDup ((pre.*1) ++ (o.*1)) -> spread (pre ++ b) o = pre ++ o.
Proof.
  revert pre b. induction o as [|[k v] o IH]; intros pre b Hk Hnd.
  - destruct b; [done|discriminate].
  - destruct b as [|[k' w] b]; [discriminate|]. simpl in Hk.
    injection Hk as -> Hk. rewrite spread_cons. simpl.
    apply NoDup_app in Hnd as (Hpre & Hdisj & Ho).
    rewrite setProp_middle.
    2:{ intros Hin. apply (Hdisj k Hin). simpl. apply elem_of_cons. by left. }
    change (pre ++ (k, v) :: b) with (pre ++ [(k, v)] ++ b). rewrite app_assoc.
    rewrite IH; [by rewrite <- app_assoc|done|].
    rewrite fmap_app. simpl. rewrite <- app_assoc. simpl.
    apply NoDup_app. split; [done|]. split; [|done].
    intros x Hx. apply Hdisj. done.
Qed.

Lemma spread_append b o :
  NoDup ((b.*1) ++ (o.*1)) -> spread b o = b ++ o.
Proof.
  revert b. induction o as [|[k v] o IH]; intros b Hnd.
  - by rewrite app_nil_r.
  - rewrite spread_cons. simpl.
    assert (k ∉ b.*1) as Hk.
    { apply NoDup_app in Hnd as (_ & Hdisj & _). intros Hin.
      apply (Hdisj k Hin). simpl. apply elem_of_cons. by left. }
    rewrite setProp_notin by done. rewrite IH; [by rewrite <- app_assoc|].
    rewrite fmap_app. simpl. rewrite <- app_assoc. done.
Qed.

Lemma spread_nil o : NoDup o.*1 -> spread [] o = o.
Proof. intros. by rewrite spread_append. Qed.

(** An object with distinct keys that start with the keys of [base] is
    left as it is when spread over [base]. *)
Lemma spread_id base o :
  NoDup o.*1 -> base.*1 `prefix_of` o.*1 -> spread base o = o.
Proof.
  intros Hnd [ext He].
  assert (o = take (List.length base) o ++ drop (List.length base) o) as Ho
    by (by rewrite take_drop).
  assert ((take (List.length base) o).*1 = base.*1) as Ht.
  { rewrite fmap_take, He, take_app_length'; [done|]. by rewrite length_fmap. }
  rewrite Ho at 1 2.
  rewrite <- (app_nil_l base) at 1.
  unfold spread. rewrite foldl_app. fold (spread ([] ++ base) (take (List.length base) o)).
  rewrite spread_over.
  - simpl. fold (spread (take (List.length base) o) (drop (List.length base) o)).
    rewrite spread_append; [by rewrite take_drop|].
    by rewrite <- fmap_app, take_drop.
  - done.
  - simpl. rewrite <- (take_drop (List.length base) o), fmap_app in Hnd.
    by apply NoDup_app in Hnd as (? & _ & _).
Qed.

Lemma getProp_spread_notin base src k :
  k ∉ src.*1 -> getProp (spread base src) k = getProp base k.
Proof.
  revert base. induction src as [|[k' v] src IH]; intros base Hn; [done|].
  simpl in Hn. apply not_elem_of_cons in Hn as [Hne Hn].
  rewrite spread_cons, IH by done. simpl. by rewrite getProp_setProp_ne.
Qed.

Lemma getProp_spread_in base src k :
  NoDup src.*1 -> k ∈ src.*1 -> getProp (spread base src) k = getProp src k.
Proof.
  revert base. induction src as [|[k' v] src IH]; intros base Hnd Hin;
    [by apply elem_of_nil in Hin|].
  simpl in Hnd, Hin. apply NoDup_cons in Hnd as [Hk' Hnd].
  rewrite spread_cons. simpl.
  destruct (String.eqb k' k) eqn:E.
  - apply String.eqb_eq in E as ->.
    rewrite getProp_spread_notin by done. apply getProp_setProp_eq.
  - apply String.eqb_neq in E. apply IH; [done|].
    apply elem_of_cons in Hin as [->|]; done.
Qed.

Lemma togglesOf_togglesObject t : togglesOf (togglesObject t) = t.
Proof.
  unfold togglesOf, togglesObject. induction t as [|[k b] t IH]; [done|].
  cbn. f_equal. exact IH.
Qed.

Lemma normalizeFeatures_shape raw :
  normalizeFeatures raw
  = (fun key => (key, match propOf raw key with JBoolean b => b | _ => false end))
      <$> Object_keys DEFAULT_FEATURE_TOGGLES.
Proof. reflexivity. Qed.

End ObjectFacts.

(** Whatever object storage holds, the settings that
    [normalizeSettings] returns have exactly the seven feature keys of the
    defaults, once each and in the order of the defaults, every one a
    boolean: the stored value where that is a boolean, [false] otherwise;
    keys that are no feature are dropped, and the schema version is the
    current one. *)
Theorem normalizeSettings_features (settings : StorageService.Obj) :
  let normalized := StorageService.normalizeSettings settings in
  let features := StorageService.togglesOf (StorageService.getProp normalized "features") in
  StorageService.getProp normalized "features" = StorageService.togglesObject features
  /\ Object_keys features
     = ["timeline"; "folders"; "prompts"; "export"; "widthAdjust"; "tabTitleSync";
        "formulaCopy"]
  /\ NoDup (Object_keys features)
  /\ (forall key, key ∈ Object_keys features ->
        get features key
        = match StorageService.propOf (StorageService.rawFeaturesOf settings) key with
          | StorageService.JBoolean b => b
          | _ => false
          end)
  /\ StorageService.getProp normalized "schemaVersion"
     = StorageService.JNumber StorageService.CURRENT_SCHEMA_VERSION.
Proof.
  cbv zeta. unfold StorageService.normalizeSettings. cbv zeta.
  rewrite getProp_setProp_eq.
  rewrite getProp_setProp_ne, getProp_setProp_eq by done.
  rewrite togglesOf_togglesObject.
  set (raw := StorageService.rawFeaturesOf settings).
  split; [done|]. split; [done|]. split; [by apply (bool_decide_unpack _)|]. split; [|done].
  intros key Hkey. rewrite normalizeFeatures_shape in *.
  simpl in Hkey. repeat (apply elem_of_cons in Hkey as [->|Hkey]; [done|]).
  by apply elem_of_nil in Hkey.
Qed.

Section NormalForm.
Import StorageService.

Lemma normalizeSettings_keys settings :
  NoDup (normalizeSettings settings).*1
  /\ DEFAULT_SETTINGS.*1 `prefix_of` (normalizeSettings settings).*1.
Proof.
  unfold normalizeSettings. cbv zeta.
  change (spread [] DEFAULT_SETTINGS) with DEFAULT_SETTINGS.
  set (T := spread DEFAULT_SETTINGS settings).
  assert (NoDup T.*1) as Hnd
    by (apply spread_NoDup; by apply (bool_decide_unpack _)).
  assert (DEFAULT_SETTINGS.*1 `prefix_of` T.*1) as Hp by apply spread_prefix.
  assert (forall k, k ∈ DEFAULT_SETTINGS.*1 -> k ∈ T.*1) as Hin.
  { intros k Hk. destruct Hp as [ext ->]. apply elem_of_app. by left. }
  assert ((setProp "features"
             (togglesObject (normalizeFeatures (rawFeaturesOf settings))) T).*1 = T.*1) as E1.
  { apply setProp_in, Hin. by apply (bool_decide_unpack _). }
  rewrite setProp_in; rewrite E1; [done|].
  apply Hin. by apply (bool_decide_unpack _).
Qed.

Lemma normalizeSettings_getProp_features settings :
  getProp (normalizeSettings settings) "features"
  = togglesObject (normalizeFeatures (rawFeaturesOf settings)).
Proof.
  unfold normalizeSettings. cbv zeta.
  by rewrite getProp_setProp_ne, getProp_setProp_eq.
Qed.

Lemma normalizeFeatures_togglesObject raw :
  normalizeFeatures (togglesObject (normalizeFeatures raw)) = normalizeFeatures raw.
Proof. rewrite (normalizeFeatures_shape raw). reflexivity. Qed.

Lemma elem_of_prefix {A} (l1 l2 : list A) x : l1 `prefix_of` l2 -> x ∈ l1 -> x ∈ l2.
Proof. intros [k ->] ?. apply elem_of_app. by left. Qed.

End NormalForm.

(** Normalising settings twice is normalising them once: the
    result of [normalizeSettings] is a fixed point, property for property
    and in the same order. So [getSettings], which writes the normalised
    settings back when they differ from what it read, finds nothing to write
    the next time. *)
Theorem normalizeSettings_idempotent (settings : StorageService.Obj) :
  StorageService.normalizeSettings (StorageService.normalizeSettings settings)
  = StorageService.normalizeSettings settings.
Proof.
  destruct (normalizeSettings_keys settings) as [Hnd Hp].
  pose proof (normalizeSettings_getProp_features settings) as Hf.
  set (N := StorageService.normalizeSettings settings) in *.
  unfold StorageService.normalizeSettings at 1. cbv zeta.
  change (StorageService.spread [] StorageService.DEFAULT_SETTINGS)
    with StorageService.DEFAULT_SETTINGS.
  rewrite (spread_id _ N Hnd Hp).
  unfold StorageService.rawFeaturesOf at 1. rewrite Hf.
  cbn [StorageService.togglesObject]. fold (StorageService.togglesObject
    (StorageService.normalizeFeatures (StorageService.rawFeaturesOf settings))).
  rewrite normalizeFeatures_togglesObject, <- Hf.
  rewrite (setProp_same "features" N).
  2:{ apply (elem_of_prefix _ _ _ Hp). by apply (bool_decide_unpack _). }
  assert (StorageService.getProp N "schemaVersion"
          = StorageService.JNumber StorageService.CURRENT_SCHEMA_VERSION) as Hs.
  { subst N. unfold StorageService.normalizeSettings. cbv zeta.
    apply getProp_setProp_eq. }
  rewrite <- Hs. apply setProp_same.
  apply (elem_of_prefix _ _ _ Hp). by apply (bool_decide_unpack _).
Qed.

Section ToggleFacts.
Import StorageService.

Lemma normalizeFeatures_seven raw :
  exists b1 b2 b3 b4 b5 b6 b7,
    normalizeFeatures raw
    = [("timeline", b1); ("folders", b2); ("prompts", b3); ("export", b4);
       ("widthAdjust", b5); ("tabTitleSync", b6); ("formulaCopy", b7)].
Proof. rewrite normalizeFeatures_shape. repeat eexists. Qed.

(** What is left to do of [normalizeSettings] on an object that has the
    keys of the defaults in front. *)
Lemma normalizeSettings_on cur :
  NoDup cur.*1 -> DEFAULT_SETTINGS.*1 `prefix_of` cur.*1 ->
  normalizeSettings cur
  = setProp "schemaVersion" (JNumber CURRENT_SCHEMA_VERSION)
      (setProp "features" (togglesObject (normalizeFeatures (rawFeaturesOf cur))) cur).
Proof.
  intros Hnd Hp. unfold normalizeSettings. cbv zeta.
  change (spread [] DEFAULT_SETTINGS) with DEFAULT_SETTINGS.
  by rewrite spread_id.
Qed.

Lemma toggleUpdater_on cur key enabled :
  NoDup cur.*1 ->
  toggleUpdater key enabled cur
  = setProp "features"
      (JObject (setProp key (JBoolean enabled) (spreadValue (getProp cur "features")))) cur.
Proof. intros Hnd. unfold toggleUpdater. by rewrite spread_nil. Qed.

Lemma toggle_feature_key cur raw key enabled :
  NoDup cur.*1 -> DEFAULT_SETTINGS.*1 `prefix_of` cur.*1 ->
  getProp cur "features" = togglesObject (normalizeFeatures raw) ->
  getProp cur "schemaVersion" = JNumber CURRENT_SCHEMA_VERSION ->
  key ∈ Object_keys DEFAULT_FEATURE_TOGGLES ->
  let updated := toggleUpdater key enabled cur in
  normalizeSettings updated = updated
  /\ togglesOf (getProp updated "features")
     = setToggle key enabled (togglesOf (getProp cur "features")).
Proof.
  intros Hnd Hp Hf Hs Hkey. cbv zeta.
  assert ("features" ∈ cur.*1) as Hfin
    by (apply (elem_of_prefix _ _ _ Hp); by apply (bool_decide_unpack _)).
  assert ("schemaVersion" ∈ cur.*1) as Hsin
    by (apply (elem_of_prefix _ _ _ Hp); by apply (bool_decide_unpack _)).
  rewrite toggleUpdater_on by done. rewrite Hf.
  destruct (normalizeFeatures_seven raw) as (b1 & b2 & b3 & b4 & b5 & b6 & b7 & ->).
  set (F' := setProp key (JBoolean enabled) _).
  set (updated := setProp "features" (JObject F') cur).
  assert (updated.*1 = cur.*1) as Hk by (by apply setProp_in).
  assert (getProp updated "features" = JObject F') as Hf' by apply getProp_setProp_eq.
  rewrite normalizeSettings_on by (by rewrite Hk).
  unfold rawFeaturesOf. rewrite Hf'.
  assert (togglesObject (normalizeFeatures (JObject F')) = JObject F'
          /\ togglesOf (JObject F')
             = setToggle key enabled
                 [("timeline", b1); ("folders", b2); ("prompts", b3); ("export", b4);
                  ("widthAdjust", b5); ("tabTitleSync", b6); ("formulaCopy", b7)]) as [E1 E2].
  { subst F'. simpl in Hkey.
    repeat (apply elem_of_cons in Hkey as [->|Hkey]; [by split|]).
    by apply elem_of_nil in Hkey. }
  rewrite E1. split; [|by rewrite togglesOf_togglesObject].
  assert (setProp "features" (JObject F') updated = updated) as ->
    by (unfold updated; apply setProp_setProp).
  rewrite <- Hs at 1.
  replace (getProp cur "schemaVersion") with (getProp updated "schemaVersion")
    by (by apply getProp_setProp_ne).
  apply setProp_same. by rewrite Hk.
Qed.

Lemma toggle_other_key cur raw key enabled :
  NoDup cur.*1 -> DEFAULT_SETTINGS.*1 `prefix_of` cur.*1 ->
  getProp cur "features" = togglesObject (normalizeFeatures raw) ->
  getProp cur "schemaVersion" = JNumber CURRENT_SCHEMA_VERSION ->
  key ∉ Object_keys DEFAULT_FEATURE_TOGGLES ->
  normalizeSettings (toggleUpdater key enabled cur) = cur.
Proof.
  intros Hnd Hp Hf Hs Hkey.
  assert ("features" ∈ cur.*1) as Hfin
    by (apply (elem_of_prefix _ _ _ Hp); by apply (bool_decide_unpack _)).
  assert ("schemaVersion" ∈ cur.*1) as Hsin
    by (apply (elem_of_prefix _ _ _ Hp); by apply (bool_decide_unpack _)).
  rewrite toggleUpdater_on by done. rewrite Hf.
  destruct (normalizeFeatures_seven raw) as (b1 & b2 & b3 & b4 & b5 & b6 & b7 & E).
  rewrite E.
  change (spreadValue (togglesObject ?t)) with (spread [] ((fun p => (p.1, JBoolean p.2)) <$> t)).
  cbn [fmap list_fmap fst snd]. 
  rewrite spread_nil by (by apply (bool_decide_unpack _)).
  rewrite (setProp_notin key) by exact Hkey.
  set (F' := _ ++ [(key, JBoolean enabled)]).
  set (updated := setProp "features" (JObject F') cur).
  assert (updated.*1 = cur.*1) as Hk by (by apply setProp_in).
  assert (getProp updated "features" = JObject F') as Hf' by apply getProp_setProp_eq.
  rewrite normalizeSettings_on by (by rewrite Hk).
  unfold rawFeaturesOf. rewrite Hf'.
  assert (togglesObject (normalizeFeatures (JObject F')) = getProp cur "features") as ->.
  { rewrite Hf, E. reflexivity. }
  unfold updated. rewrite setProp_setProp, setProp_same by done.
  rewrite <- Hs. by apply setProp_same.
Qed.

Lemma get_setToggle_eq key b t : get (setToggle key b t) key = b.
Proof.
  induction t as [|[k w] t IH]; simpl.
  - by rewrite eqb_refl_s.
  - destruct (String.eqb k key) eqn:E; simpl; by rewrite E.
Qed.

Lemma get_setToggle_ne key k b t : k <> key -> get (setToggle key b t) k = get t k.
Proof.
  intros Hne. induction t as [|[k0 w] t IH]; simpl.
  - by rewrite eqb_ne_s.
  - destruct (String.eqb k0 key) eqn:E; simpl.
    + apply String.eqb_eq in E as ->. by rewrite eqb_ne_s.
    + by rewrite IH.
Qed.

Lemma setToggle_keys key b t :
  key ∈ Object_keys t -> Object_keys (setToggle key b t) = Object_keys t.
Proof.
  unfold Object_keys. induction t as [|[k w] t IH]; simpl; [by intros ?%elem_of_nil|].
  intros Hin. destruct (String.eqb k key) eqn:E; simpl; [done|].
  apply String.eqb_neq in E. f_equal. apply IH.
  apply elem_of_cons in Hin as [->|]; done.
Qed.

End ToggleFacts.

(** The background's [FEATURE_TOGGLE] update, applied to the
    settings that [getSettings] hands it: no property but [features]
    changes. For one of the seven feature keys the written settings are
    already normal (the next [getSettings] returns them as they are), the
    toggled key reads as the new value and every other key as before. For
    any other key the next [getSettings] returns the settings as they were
    before the toggle: it has no effect. *)
Theorem feature_toggle_stored (stored : StorageService.Obj) (key : string) (enabled : bool) :
  let current := StorageService.normalizeSettings stored in
  let updated := StorageService.toggleUpdater key enabled current in
  let features o := StorageService.togglesOf (StorageService.getProp o "features") in
  (forall k, k <> "features" ->
     StorageService.getProp updated k = StorageService.getProp current k)
  /\ if decide (key ∈ Object_keys StorageService.DEFAULT_FEATURE_TOGGLES)
     then StorageService.normalizeSettings updated = updated
          /\ Object_keys (features updated) = Object_keys (features current)
          /\ get (features updated) key = enabled
          /\ forall k, k <> key -> get (features updated) k = get (features current) k
     else StorageService.normalizeSettings updated = current.
Proof.
  cbv zeta.
  destruct (normalizeSettings_keys stored) as [Hnd Hp].
  pose proof (normalizeSettings_getProp_features stored) as Hf.
  assert (StorageService.getProp (StorageService.normalizeSettings stored) "schemaVersion"
          = StorageService.JNumber StorageService.CURRENT_SCHEMA_VERSION) as Hs.
  { unfold StorageService.normalizeSettings. cbv zeta. apply getProp_setProp_eq. }
  set (current := StorageService.normalizeSettings stored) in *.
  split.
  - intros k Hk. rewrite toggleUpdater_on by done. by apply getProp_setProp_ne.
  - destruct (decide _) as [Hkey|Hkey].
    + destruct (toggle_feature_key current _ key enabled Hnd Hp Hf Hs Hkey) as [E1 E2].
      split; [done|]. rewrite E2. clear E1 E2.
      split; [|split].
      * apply setToggle_keys. by rewrite Hf, togglesOf_togglesObject.
      * apply get_setToggle_eq.
      * intros k Hk. by apply get_setToggle_ne.
    + by apply (toggle_other_key current _ key enabled Hnd Hp Hf Hs).
Qed.

(** Normalisation touches nothing but [features] and
    [schemaVersion]: every other property the stored object has (the locale,
    the chat width, anything else) keeps its stored value, and one it lacks
    gets the value of the defaults. *)
Theorem normalizeSettings_keeps (settings : StorageService.Obj) (k : string) :
  NoDup settings.*1 -> k <> "features" -> k <> "schemaVersion" ->
  StorageService.getProp (StorageService.normalizeSettings settings) k
  = if decide (k ∈ settings.*1) then StorageService.getProp settings k
    else StorageService.getProp StorageService.DEFAULT_SETTINGS k.
Proof.
  intros Hnd Hf Hs. unfold StorageService.normalizeSettings. cbv zeta.
  rewrite !getProp_setProp_ne by done.
  change (StorageService.spread [] StorageService.DEFAULT_SETTINGS)
    with StorageService.DEFAULT_SETTINGS.
  destruct (decide _) as [Hin|Hn].
  - by apply getProp_spread_in.
  - by apply getProp_spread_notin.
Qed.

Lemma normalizeSettings_keeps_witness :
  let settings := [("chatWidth", StorageService.JNumber 1000);
                   ("features", StorageService.JNull)] in
  StorageService.getProp (StorageService.normalizeSettings settings) "chatWidth"
  = if decide ("chatWidth" ∈ settings.*1)
    then StorageService.getProp settings "chatWidth"
    else StorageService.getProp StorageService.DEFAULT_SETTINGS "chatWidth".
Proof.
  apply normalizeSettings_keeps; [by apply (bool_decide_unpack _)|done|done].
Defined.

Section ToggleFlow.
Import StorageService.

(** The toggles the content script reads after the background has stored
    a toggle of a feature key. *)
Lemma toggle_read stored key enabled :
  key ∈ Object_keys DEFAULT_FEATURE_TOGGLES ->
  let current := normalizeSettings stored in
  let read := normalizeSettings (toggleUpdater key enabled current) in
  let F := togglesOf (getProp read "features") in
  Object_keys F = Object_keys DEFAULT_FEATURE_TOGGLES
  /\ get F key = enabled
  /\ forall k, k <> key -> get F k = get (togglesOf (getProp current "features")) k.
Proof.
  intros Hkey. cbv zeta.
  destruct (normalizeSettings_keys stored) as [Hnd Hp].
  pose proof (normalizeSettings_getProp_features stored) as Hf.
  assert (getProp (normalizeSettings stored) "schemaVersion"
          = JNumber CURRENT_SCHEMA_VERSION) as Hs.
  { unfold normalizeSettings. cbv zeta. apply getProp_setProp_eq. }
  destruct (toggle_feature_key _ _ key enabled Hnd Hp Hf Hs Hkey) as [E1 E2].
  rewrite E1, E2. split; [|split].
  - rewrite setToggle_keys; by rewrite Hf, togglesOf_togglesObject.
  - apply get_setToggle_eq.
  - intros k Hk. by apply get_setToggle_ne.
Qed.

End ToggleFlow.

(** A toggle from the popup, end to end. The background stores the
    toggle of feature [key] and sends [FEATURE_TOGGLE] on; the content
    script handles it with the settings it reads back. If [key] is
    registered and its [init] returns normally, then afterwards [key] is
    Active exactly if the stored settings enable it, every other feature is
    as it was, with no [init] or [destroy] call of its own, and a following
    [SETTINGS_CHANGED] sync with the same settings calls neither [init] nor
    [destroy] of [key]. *)
Theorem feature_toggle_end_to_end {World} (st : State World)
    (stored : StorageService.Obj) (settings : VoyagerSettings)
    (key : string) (enabled : bool) (m : FeatureModule World) :
  key ∈ Object_keys StorageService.DEFAULT_FEATURE_TOGGLES ->
  settings_features settings
  = StorageService.togglesOf
      (StorageService.getProp
         (StorageService.normalizeSettings
            (StorageService.toggleUpdater key enabled
               (StorageService.normalizeSettings stored))) "features") ->
  features st !! key = Some m ->
  (forall s w, (init m s w).1 = Normal) ->
  let st' := onFeatureToggle key enabled settings st in
  let st'' := syncFeatures settings st' in
  get (settings_features settings) key = enabled
  /\ (key ∈ activeFeatures st' <-> enabled = true)
  /\ (forall k, k <> key -> untouched k st st')
  /\ initCalls key (calls st'') = initCalls key (calls st')
  /\ destroyCalls key (calls st'') = destroyCalls key (calls st')
  /\ (key ∈ activeFeatures st'' <-> enabled = true).
Proof.
  intros Hkey HF Hreg Hinit. cbv zeta.
  destruct (toggle_read stored key enabled Hkey) as (Hkeys & Hget & _).
  cbv zeta in Hkeys, Hget. rewrite <- HF in Hkeys, Hget.
  assert (NoDup (Object_keys (settings_features settings))) as Hnd
    by (rewrite Hkeys; by apply (bool_decide_unpack _)).
  assert (key ∈ Object_keys (settings_features settings)) as Hin by (by rewrite Hkeys).
  set (st1 := if enabled then activateFeature key settings st else deactivateFeature key st).
  assert (features (onFeatureToggle key enabled settings st) = features st1
          /\ activeFeatures (onFeatureToggle key enabled settings st) = activeFeatures st1
          /\ calls (onFeatureToggle key enabled settings st) = calls st1) as (Ef & Ea & Ec).
  { unfold onFeatureToggle. fold st1. destruct (String.eqb key "folders"); [|done].
    by destruct (setSidebarPinningEnabled_frame enabled st1) as (? & ? & ? & _). }
  assert (features st1 = features st) as Ef1.
  { subst st1. destruct enabled;
      [apply activateFeature_features | apply deactivateFeature_features]. }
  assert (key ∈ activeFeatures st1 <-> enabled = true) as Hact.
  { subst st1. destruct enabled.
    - split; [done|intros _].
      destruct (decide (key ∈ activeFeatures st)) as [Ha|Ha].
      + by rewrite activateFeature_active.
      + destruct (activateFeature_inactive key settings st m Ha Hreg) as (_ & _ & _ & -> & _).
        rewrite Hinit. apply elem_of_app. right. by apply list_elem_of_singleton.
    - split; [|done]. intros Ha. exfalso.
      destruct (decide (key ∈ activeFeatures st)) as [Ha'|Ha'].
      + destruct (deactivateFeature_registered key st m Ha' Hreg) as (_ & _ & _ & E & _).
        rewrite E in Ha. apply elem_of_Set_delete in Ha. by destruct Ha.
      + rewrite deactivateFeature_inactive in Ha by done. done. }
  split; [done|]. split; [by rewrite Ea|]. split.
  { intros k Hk. unfold untouched. rewrite Ea, Ec. subst st1.
    destruct enabled;
      [by apply activateFeature_untouched | by apply deactivateFeature_untouched]. }
  set (st' := onFeatureToggle key enabled settings st) in *.
  destruct enabled.
  - destruct (syncFeatures_enabled settings st' key m Hnd Hin Hget) as (Hd & Hyes & _).
    { by rewrite Ef, Ef1. }
    destruct Hyes as [Hin' Hi]; [rewrite Ea; by apply Hact|]. done.
  - destruct (syncFeatures_disabled settings st' key Hnd Hin Hget) as (Hno & Hi & Hd).
    { intros Ha. rewrite Ea in Ha. apply Hact in Ha. done. }
    split; [done|]. split; [|done].
    rewrite Hd. assert (Set_has key (activeFeatures st') = false) as ->; [|lia].
    apply Set_has_false. rewrite Ea. intros Ha. apply Hact in Ha. done.
Qed.

Lemma feature_toggle_end_to_end_witness :
  let st := Samples.registered [Samples.steady "timeline"; Samples.steady "export"] in
  let settings :=
    Samples.settingsOf
      (StorageService.togglesOf
         (StorageService.getProp
            (StorageService.normalizeSettings
               (StorageService.toggleUpdater "export" true
                  (StorageService.normalizeSettings []))) "features")) in
  let st' := onFeatureToggle "export" true settings st in
  let st'' := syncFeatures settings st' in
  get (settings_features settings) "export" = true
  /\ ("export" ∈ activeFeatures st' <-> true = true)
  /\ (forall k, k <> "export" -> untouched k st st')
  /\ initCalls "export" (calls st'') = initCalls "export" (calls st')
  /\ destroyCalls "export" (calls st'') = destroyCalls "export" (calls st')
  /\ ("export" ∈ activeFeatures st'' <-> true = true).
Proof.
  apply (feature_toggle_end_to_end
           (Samples.registered [Samples.steady "timeline"; Samples.steady "export"])
           [] _ "export" true (Samples.steady "export")).
  - by apply (bool_decide_unpack _).
  - reflexivity.
  - vm_compute. reflexivity.
  - done.
Defined.

(* ================================================================== *)
(** * Debounce and throttle, in time *)
(* ================================================================== *)

Section DebounceFacts.
Import Utils.
Context {Args : Type}.
Implicit Types (s : Debounced Args) (r : Run Args).
Local Open Scope Z_scope.

Lemma d_inv_fresh ms now : d_inv ms (@d_fresh Args now).
Proof.
  unfold d_inv, d_fresh. simpl.
  split; [by intros ?? ?%elem_of_nil|]. split; [by intros ? ?%elem_of_nil|].
  split; [apply NoDup_nil_2 | by left].
Qed.

Lemma answers_later ms calls r now a :
  r_time r <= now -> answers ms calls r -> answers ms (calls ++ [(now, a)]) r.
Proof.
  intros Hle (c & Hc & Hb & Hd & Hafter). exists c. repeat split.
  - rewrite lookup_app_l; [done|]. lia.
  - lia.
  - rewrite length_app. simpl. lia.
  - done.
  - intros j c' a' Hj Hl.
    destruct (decide (j < List.length calls)%nat) as [Hlt|Hge].
    + rewrite lookup_app_l in Hl by done. by eapply Hafter.
    + rewrite lookup_app_r in Hl by lia.
      destruct (j - List.length calls)%nat; simpl in Hl; [|done].
      by injection Hl as <- _.
Qed.

Lemma d_inv_call ms elapsed args s : d_inv ms s -> d_inv ms (d_call ms elapsed args s).
Proof.
  intros (Hc & Hr & Hnd & Hq). unfold d_inv, d_call. simpl.
  set (now := d_clock s + Z.of_N elapsed).
  assert (d_clock s <= now) as Hnow by (subst now; lia).
  split; [|split; [|split]].
  - intros c a [Hin|Hin%list_elem_of_singleton]%elem_of_app.
    + specialize (Hc c a Hin). lia.
    + injection Hin as -> _. lia.
  - intros r Hin. destruct (Hr r Hin) as [Ht Ha]. split; [lia|].
    apply answers_later; [lia|done].
  - done.
  - right. exists (d_nextId s), now, args.
    assert (clearTimeout (d_timer s) (d_queue s) = []) as ->.
    { destruct Hq as [->|(id & c & a & -> & -> & _)].
      - unfold clearTimeout. by destruct (d_timer s).
      - unfold clearTimeout. by rewrite filter_cons_False, filter_nil by (simpl; tauto). }
    repeat split.
    + by rewrite last_snoc.
    + intros r Hin. destruct (Hr r Hin) as [_ (c & _ & Hb & _)].
      rewrite length_app. simpl. lia.
Qed.

Lemma d_inv_tick ms s now :
  d_clock s <= now -> d_inv ms s ->
  d_inv ms {| d_timer := d_timer s; d_queue := d_queue s; d_nextId := d_nextId s;
              d_clock := now; d_calls := d_calls s; d_runs := d_runs s |}.
Proof.
  intros Hnow (Hc & Hr & Hnd & Hq). unfold d_inv. simpl.
  split; [|split; [|split]]; [| |done|done].
  - intros c a Hin. specialize (Hc c a Hin). lia.
  - intros r Hin. destruct (Hr r Hin) as [Ht Ha]. split; [lia|done].
Qed.

Lemma d_inv_fire ms elapsed id s : d_inv ms s -> d_inv ms (d_fire elapsed id s).
Proof.
  intros Hinv. unfold d_fire.
  set (now := d_clock s + Z.of_N elapsed).
  assert (d_clock s <= now) as Hnow by (subst now; lia).
  destruct (List.find _ (d_queue s)) as [p|] eqn:Ef; [|by apply d_inv_tick].
  destruct (Z.leb_spec (p_due p) now) as [Hdue|Hearly]; [|by apply d_inv_tick].
  destruct Hinv as (Hc & Hr & Hnd & Hq).
  destruct Hq as [Hq|(id' & c & a & Ht & Hq & Hlast & Hun)];
    [by rewrite Hq in Ef|].
  rewrite Hq in Ef. simpl in Ef.
  destruct (Nat.eqb_spec id' id) as [->|Hne]; [|done]. injection Ef as <-.
  simpl in Hdue. unfold d_inv. simpl.
  split; [|split; [|split]].
  - intros c' a' Hin. specialize (Hc c' a' Hin). lia.
  - intros r [Hin|Hin%list_elem_of_singleton]%elem_of_app.
    + destruct (Hr r Hin) as [Htime Ha]. split; [lia|done].
    + subst r. simpl. split; [lia|].
      exists c. simpl. rewrite last_lookup in Hlast.
      assert (0 < List.length (d_calls s))%nat as Hpos.
      { destruct (d_calls s); [done|simpl; lia]. }
      repeat split; [done|lia|lia|lia|].
      intros j c' a' Hj Hl. apply lookup_lt_Some in Hl. lia.
  - rewrite fmap_app. simpl. apply NoDup_app. split; [done|]. split.
    + intros x (r & Hx & Hin)%list_elem_of_fmap Hx'%list_elem_of_singleton.
      specialize (Hun r Hin). lia.
    + apply NoDup_singleton.
  - left. rewrite Hq. by rewrite filter_cons_False, filter_nil by (simpl; tauto).
Qed.

Lemma d_inv_run ms es s : d_inv ms s -> d_inv ms (d_run ms es s).
Proof.
  revert s. induction es as [|e es IH]; intros s Hinv; [done|].
  simpl. apply IH. destruct e; [by apply d_inv_call | by apply d_inv_fire].
Qed.

End DebounceFacts.

(** A debounced function, over any sequence of calls and timer
    firings: at most one of its timers is pending at a time; every run of
    [fn] answers the call made last before it, with the arguments of that
    call, no sooner than [ms] after it, and every later call comes after the
    run; no call is answered twice. So while calls keep coming less than
    [ms] apart [fn] does not run, and a burst of calls gives one run. *)
Theorem debounce_answers_last_call {Args} (ms now : Z) (es : list (Utils.Event Args)) :
  let s := Utils.d_run ms es (Utils.d_fresh now) in
  (List.length (Utils.d_queue s) <= 1)%nat
  /\ NoDup (Utils.r_calls <$> Utils.d_runs s)
  /\ forall r, r ∈ Utils.d_runs s ->
       exists c,
         Utils.d_calls s !! pred (Utils.r_calls r) = Some (c, Utils.r_args r)
         /\ (0 < Utils.r_calls r)%nat
         /\ (c + Z.max 0 ms <= Utils.r_time r)%Z
         /\ forall j c' a', (Utils.r_calls r <= j)%nat ->
              Utils.d_calls s !! j = Some (c', a') -> (Utils.r_time r <= c')%Z.
Proof.
  cbv zeta.
  destruct (d_inv_run ms es _ (d_inv_fresh ms now)) as (_ & Hr & Hnd & Hq).
  split; [|split; [done|]].
  - destruct Hq as [->|(? & ? & ? & _ & -> & _)]; simpl; lia.
  - intros r Hin. destruct (Hr r Hin) as [_ (c & H1 & H2 & H3 & H4)].
    exists c. repeat split; [done|lia|done|done].
Qed.

Section ThrottleFacts.
Import Utils.
Context {Args : Type}.
Implicit Types (s : Throttled Args).
Local Open Scope Z_scope.

Lemma spaced_snoc ms l t' :
  spaced ms l -> (forall t, last l = Some t -> t + ms <= t') -> spaced ms (l ++ [t']).
Proof.
  induction l as [|t1 [|t2 l] IH]; intros Hs Hl; simpl.
  - done.
  - split; [|done]. by apply Hl.
  - destruct Hs as [H12 Hs]. split; [done|]. apply IH; [done|].
    intros t Ht. apply Hl. done.
Qed.

Lemma spaced_lookup ms l i t1 t2 :
  spaced ms l -> l !! i = Some t1 -> l !! S i = Some t2 -> t1 + ms <= t2.
Proof.
  revert i. induction l as [|a [|b l] IH]; intros i Hs H1 H2; [done|done|].
  destruct Hs as [Hab Hs]. destruct i as [|i].
  - simpl in H1, H2. injection H1 as <-. injection H2 as <-. done.
  - by apply (IH i).
Qed.

Lemma t_inv_fresh ms now : t_inv ms (@t_fresh Args now).
Proof. unfold t_inv, t_fresh. simpl. split; [done|]. split; [done|by left]. Qed.

Lemma t_inv_tick ms s now :
  t_inv ms s ->
  t_inv ms {| t_lastCall := t_lastCall s; t_timer := t_timer s; t_queue := t_queue s;
              t_nextId := t_nextId s; t_clock := now; t_runs := t_runs s |}.
Proof. done. Qed.

Lemma t_inv_call ms elapsed args s : t_inv ms s -> t_inv ms (t_call ms elapsed args s).
Proof.
  intros (Hs & Hl & Hq). unfold t_call.
  set (now := t_clock s + Z.of_N elapsed).
  destruct (Z.leb_spec (ms - (now - t_lastCall s)) 0) as [Hrem|Hrem].
  - unfold t_inv. simpl. rewrite fmap_app. simpl. split; [|split].
    + apply spaced_snoc; [done|]. intros t Ht. apply Hl in Ht. lia.
    + intros t. rewrite last_snoc. by intros [= <-].
    + left. destruct Hq as [->|(id & a & -> & ->)].
      * unfold clearTimeout. by destruct (t_timer s).
      * unfold clearTimeout. by rewrite filter_cons_False, filter_nil by (simpl; tauto).
  - destruct (t_timer s) as [id|] eqn:Et; [done|].
    unfold t_inv. simpl. split; [done|]. split; [done|].
    right. exists (t_nextId s), args. split; [done|].
    destruct Hq as [->|(id & a & Ht & _)]; [|congruence].
    simpl. do 2 f_equal. lia.
Qed.

Lemma t_inv_fire ms elapsed id s : t_inv ms s -> t_inv ms (t_fire elapsed id s).
Proof.
  intros Hinv. unfold t_fire.
  set (now := t_clock s + Z.of_N elapsed).
  destruct (List.find _ (t_queue s)) as [p|] eqn:Ef; [|done].
  destruct (Z.leb_spec (p_due p) now) as [Hdue|Hearly]; [|done].
  destruct Hinv as (Hs & Hl & Hq).
  destruct Hq as [Hq|(id' & a & Ht & Hq)]; [by rewrite Hq in Ef|].
  rewrite Hq in Ef. simpl in Ef.
  destruct (Nat.eqb_spec id' id) as [->|Hne]; [|done]. injection Ef as <-.
  simpl in Hdue. unfold t_inv. simpl. rewrite fmap_app. simpl. split; [|split].
  - apply spaced_snoc; [done|]. intros t Hlast. apply Hl in Hlast. lia.
  - intros t. rewrite last_snoc. by intros [= <-].
  - left. rewrite Hq. by rewrite filter_cons_False, filter_nil by (simpl; tauto).
Qed.

Lemma t_inv_run ms es s : t_inv ms s -> t_inv ms (t_run ms es s).
Proof.
  revert s. induction es as [|e es IH]; intros s Hinv; [done|].
  simpl. apply IH. destruct e; [by apply t_inv_call | by apply t_inv_fire].
Qed.

(** With [timer] set and no timer pending, nothing changes that. *)
Lemma t_stale_step ms e s id :
  t_timer s = Some id -> t_queue s = [] ->
  t_timer (t_step ms e s) = Some id /\ t_queue (t_step ms e s) = [].
Proof.
  intros Ht Hq. destruct e as [elapsed args|elapsed id']; simpl.
  - unfold t_call. destruct (_ <=? 0); simpl.
    + rewrite Ht, Hq. done.
    + rewrite Ht. done.
  - unfold t_fire. rewrite Hq. done.
Qed.

Lemma t_stale_run ms es s id :
  t_timer s = Some id -> t_queue s = [] ->
  t_timer (t_run ms es s) = Some id /\ t_queue (t_run ms es s) = [].
Proof.
  revert s. induction es as [|e es IH]; intros s Ht Hq; [done|].
  simpl. destruct (t_stale_step ms e s id Ht Hq). by apply IH.
Qed.

End ThrottleFacts.

(** A throttled function, over any sequence of calls and timer
    firings: successive runs of [fn] are at least [ms] apart, and at most
    one of its timers is pending at a time. *)
Theorem throttle_spacing {Args} (ms now : Z) (es : list (Utils.Event Args)) :
  let s := Utils.t_run ms es (Utils.t_fresh now) in
  (List.length (Utils.t_queue s) <= 1)%nat
  /\ forall i t1 t2,
       (Utils.t_runs s).*1 !! i = Some t1 -> (Utils.t_runs s).*1 !! S i = Some t2 ->
       (t1 + ms <= t2)%Z.
Proof.
  cbv zeta. destruct (t_inv_run ms es _ (t_inv_fresh ms now)) as (Hs & _ & Hq).
  split.
  - destruct Hq as [->|(? & ? & _ & ->)]; simpl; lia.
  - intros i t1 t2. by apply spaced_lookup.
Qed.

(** When a call runs [fn] at once while the closure's timer is
    still pending (the timer is late), the timer is cleared but [timer]
    keeps its id. From then on no timer is set again, whatever happens: a
    call that comes less than [ms] after the last run is dropped, it
    neither runs [fn] nor schedules a run. *)
Theorem throttle_stale_timer {Args} (ms : Z) (s : Utils.Throttled Args) (id : nat)
    (es : list (Utils.Event Args)) :
  Utils.t_timer s = Some id -> Utils.t_queue s = [] ->
  let s' := Utils.t_run ms es s in
  Utils.t_timer s' = Some id /\ Utils.t_queue s' = []
  /\ forall elapsed args,
       (0 < ms - (Utils.t_clock s' + Z.of_N elapsed - Utils.t_lastCall s'))%Z ->
       Utils.t_runs (Utils.t_call ms elapsed args s') = Utils.t_runs s'
       /\ Utils.t_queue (Utils.t_call ms elapsed args s') = [].
Proof.
  intros Ht Hq. cbv zeta.
  destruct (t_stale_run ms es s id Ht Hq) as [Ht' Hq'].
  split; [done|]. split; [done|].
  intros elapsed args Hrem. unfold Utils.t_call.
  destruct (Z.leb_spec (ms - (Utils.t_clock (Utils.t_run ms es s) + Z.of_N elapsed
                              - Utils.t_lastCall (Utils.t_run ms es s))) 0); [lia|].
  by rewrite Ht'.
Qed.

Lemma throttle_stale_timer_witness :
  let s := Utils.t_run 100 [Utils.Call 0 1%nat; Utils.Call 10 2%nat; Utils.Call 200 3%nat]
             (Utils.t_fresh 1000) in
  let s' := Utils.t_run 100 [Utils.Call 10 4%nat] s in
  Utils.t_timer s' = Some 1%nat /\ Utils.t_queue s' = []
  /\ forall elapsed args,
       (0 < 100 - (Utils.t_clock s' + Z.of_N elapsed - Utils.t_lastCall s'))%Z ->
       Utils.t_runs (Utils.t_call 100 elapsed args s') = Utils.t_runs s'
       /\ Utils.t_queue (Utils.t_call 100 elapsed args s') = [].
Proof.
  apply (throttle_stale_timer 100
           (Utils.t_run 100 [Utils.Call 0 1%nat; Utils.Call 10 2%nat; Utils.Call 200 3%nat]
              (Utils.t_fresh 1000)) 1 [Utils.Call 10 4%nat]); reflexivity.
Defined.

(* ================================================================== *)
(** * Waiting for an element *)
(* ================================================================== *)

Section WaitFacts.
Import DOM.
Local Open Scope Z_scope.

Lemma poll_spec timeout startTime ticks :
  match poll timeout startTime ticks with
  | StillWaiting => Forall (idle timeout startTime) ticks
  | Resolved result =>
      exists pre t post,
        ticks = pre ++ t :: post
        /\ Forall (idle timeout startTime) pre
        /\ match result with
           | Some el => tick_query t = Some el
           | None => tick_query t = None /\ timeout < tick_now t - startTime
           end
  end.
Proof.
  induction ticks as [|t ticks IH]; simpl; [done|].
  destruct (tick_query t) as [el|] eqn:Eq.
  { exists [], t, ticks. by repeat split. }
  destruct (Z.ltb_spec timeout (tick_now t - startTime)) as [Hlate|Hin].
  { exists [], t, ticks. by repeat split. }
  assert (idle timeout startTime t) as Hidle by (by split).
  destruct (poll timeout startTime ticks) as [|result].
  - by constructor.
  - destruct IH as (pre & t' & post & -> & Hpre & Ht').
    exists (t :: pre), t', post. split; [done|]. split; [by constructor|done].
Qed.

End WaitFacts.

(** [waitForElement], whatever the ticks of its interval find.
    It resolves with an element exactly when the first query finds it, or
    the first tick that finds one comes before any tick past the timeout;
    that tick may itself be past the timeout. It resolves with [null] only
    at a tick that finds nothing more than [timeout] after the start, every
    tick before having found nothing within the timeout. It is still
    waiting exactly as long as every tick found nothing within the timeout. *)
Theorem waitForElement_spec (timeout : Z) (existing : option Node) (startTime : Z)
    (ticks : list DOM.Tick) :
  match DOM.waitForElement timeout existing startTime ticks with
  | DOM.StillWaiting =>
      existing = None /\ Forall (DOM.idle timeout startTime) ticks
  | DOM.Resolved (Some el) =>
      existing = Some el
      \/ (existing = None
          /\ exists pre t post,
               ticks = pre ++ t :: post
               /\ Forall (DOM.idle timeout startTime) pre
               /\ DOM.tick_query t = Some el)
  | DOM.Resolved None =>
      existing = None
      /\ exists pre t post,
           ticks = pre ++ t :: post
           /\ Forall (DOM.idle timeout startTime) pre
           /\ DOM.tick_query t = None
           /\ (timeout < DOM.tick_now t - startTime)%Z
  end.
Proof.
  unfold DOM.waitForElement. destruct existing as [el|]; [by left|].
  pose proof (poll_spec timeout startTime ticks) as H.
  destruct (DOM.poll timeout startTime ticks) as [|[el|]].
  - done.
  - right. split; [done|]. destruct H as (pre & t & post & ? & ? & ?).
    by exists pre, t, post.
  - split; [done|]. destruct H as (pre & t & post & ? & ? & ? & ?).
    by exists pre, t, post.
Qed.

(* ================================================================== *)
(** * Injected styles *)
(* ================================================================== *)

Section StyleFacts.
Import DOM.
Context {Text : Type}.
Implicit Types (styles : Head Text) (id : string).

Lemma queryStyle_None id styles : queryStyle id styles = None <-> id ∉ styleIds styles.
Proof.
  unfold queryStyle, styleIds. induction styles as [|el styles IH]; simpl.
  - split; [intros _ ?%elem_of_nil|]; done.
  - destruct (String.eqb_spec (data_voyager_style el) id) as [->|Hne].
    + split; [done|]. intros Hn. exfalso. apply Hn. apply elem_of_cons. by left.
    + rewrite IH. rewrite not_elem_of_cons. split; [|tauto]. intros ?. split; [congruence|done].
Qed.

Lemma queryStyle_Some id styles el :
  queryStyle id styles = Some el -> data_voyager_style el = id /\ id ∈ styleIds styles.
Proof.
  unfold queryStyle, styleIds. induction styles as [|el' styles IH]; simpl; [done|].
  destruct (String.eqb_spec (data_voyager_style el') id) as [He|Hne].
  - intros [= <-]. split; [done|]. rewrite <- He. apply elem_of_cons. by left.
  - intros H. destruct (IH H). split; [done|]. apply elem_of_cons. by right.
Qed.

Lemma ids_setTextContent id (css : Text) styles :
  styleIds (setTextContent id css styles) = styleIds styles.
Proof.
  unfold styleIds. induction styles as [|el styles IH]; [done|]. cbn.
  destruct (String.eqb (data_voyager_style el) id); cbn; [done|]. f_equal. exact IH.
Qed.

Lemma queryStyle_setTextContent_eq id (css : Text) styles :
  id ∈ styleIds styles ->
  textContent <$> queryStyle id (setTextContent id css styles) = Some css.
Proof.
  unfold queryStyle, styleIds. induction styles as [|el styles IH]; simpl;
    [by intros ?%elem_of_nil|].
  intros Hin. destruct (String.eqb (data_voyager_style el) id) eqn:E; simpl.
  - by rewrite E.
  - rewrite E. apply IH. apply String.eqb_neq in E.
    apply elem_of_cons in Hin as [->|]; done.
Qed.

Lemma queryStyle_setTextContent_ne id id' (css : Text) styles :
  id <> id' -> queryStyle id' (setTextContent id css styles) = queryStyle id' styles.
Proof.
  intros Hne. unfold queryStyle. induction styles as [|el styles IH]; simpl; [done|].
  destruct (String.eqb_spec (data_voyager_style el) id) as [He|Hn]; simpl.
  - rewrite !(eqb_ne_s (data_voyager_style el) id') by congruence. done.
  - by rewrite IH.
Qed.

Lemma queryStyle_app id styles more :
  queryStyle id (styles ++ more)
  = match queryStyle id styles with Some el => Some el | None => queryStyle id more end.
Proof.
  unfold queryStyle. induction styles as [|el styles IH]; simpl; [done|].
  by destruct (String.eqb (data_voyager_style el) id).
Qed.

Lemma ids_removeFirst id styles x : x ∈ styleIds (removeFirst id styles) -> x ∈ styleIds styles.
Proof.
  unfold styleIds. induction styles as [|el styles IH]; simpl; [done|].
  destruct (String.eqb (data_voyager_style el) id); simpl.
  - intros ?. apply elem_of_cons. by right.
  - intros [->|Hin]%elem_of_cons; apply elem_of_cons; [by left|right; by apply IH].
Qed.

Lemma NoDup_removeFirst id styles :
  NoDup (styleIds styles) -> NoDup (styleIds (removeFirst id styles)).
Proof.
  induction styles as [|el styles IH]; simpl; [done|].
  intros [Hn Hnd]%NoDup_cons.
  destruct (String.eqb (data_voyager_style el) id); simpl; [done|].
  apply NoDup_cons. split; [|by apply IH].
  intros Hin. apply Hn. by apply (ids_removeFirst id).
Qed.

Lemma removeFirst_gone id styles :
  NoDup (styleIds styles) -> id ∉ styleIds (removeFirst id styles).
Proof.
  induction styles as [|el styles IH]; simpl; [by intros _ ?%elem_of_nil|].
  intros [Hn Hnd]%NoDup_cons.
  destruct (String.eqb_spec (data_voyager_style el) id) as [He|Hne]; simpl.
  - by rewrite <- He.
  - apply not_elem_of_cons. split; [congruence|by apply IH].
Qed.

Lemma queryStyle_removeFirst_ne id id' styles :
  id <> id' -> queryStyle id' (removeFirst id styles) = queryStyle id' styles.
Proof.
  intros Hne. unfold queryStyle. induction styles as [|el styles IH]; simpl; [done|].
  destruct (String.eqb_spec (data_voyager_style el) id) as [He|Hn]; simpl.
  - by rewrite (eqb_ne_s (data_voyager_style el) id') by congruence.
  - by rewrite IH.
Qed.

(** One operation. *)
Lemma applyStyleOp_spec (op : StyleOp Text) styles :
  NoDup (styleIds styles) ->
  NoDup (styleIds (applyStyleOp op styles))
  /\ forall id,
       textContent <$> queryStyle id (applyStyleOp op styles)
       = lastStyle id [op] (textContent <$> queryStyle id styles).
Proof.
  intros Hnd. destruct op as [id css|id]; simpl.
  - unfold injectStyles. destruct (queryStyle id styles) as [el|] eqn:Eq.
    + apply queryStyle_Some in Eq as [_ Hin]. split.
      * by rewrite ids_setTextContent.
      * intros id'. destruct (String.eqb_spec id id') as [<-|Hne].
        -- by apply queryStyle_setTextContent_eq.
        -- by rewrite queryStyle_setTextContent_ne.
    + apply queryStyle_None in Eq. split.
      * unfold styleIds. rewrite fmap_app. simpl. apply NoDup_app. split; [done|]. split.
        -- intros x Hx ->%list_elem_of_singleton. done.
        -- apply NoDup_singleton.
      * intros id'. rewrite queryStyle_app.
        destruct (String.eqb_spec id id') as [<-|Hne].
        -- apply queryStyle_None in Eq. rewrite Eq. unfold queryStyle. simpl.
           by rewrite eqb_refl_s.
        -- destruct (queryStyle id' styles); [done|]. unfold queryStyle. simpl.
           by rewrite eqb_ne_s.
  - unfold removeStyles. destruct (queryStyle id styles) as [el|] eqn:Eq.
    + split; [by apply NoDup_removeFirst|].
      intros id'. destruct (String.eqb_spec id id') as [<-|Hne].
      * pose proof (removeFirst_gone id styles Hnd) as Hg.
        apply queryStyle_None in Hg. by rewrite Hg.
      * by rewrite queryStyle_removeFirst_ne.
    + split; [done|]. intros id'. destruct (String.eqb_spec id id') as [<-|Hne]; [|done].
      by rewrite Eq.
Qed.

Lemma lastStyle_cons id (op : StyleOp Text) ops before :
  lastStyle id (op :: ops) before = lastStyle id ops (lastStyle id [op] before).
Proof. by destruct op. Qed.

End StyleFacts.

(** Any sequence of [injectStyles] and [removeStyles] with plain ids
    (printable, without double quote or backslash: the ids the selector
    quotes as they are), on a head that has at most one style per id: there
    is still at most one style per id, and for every plain id the style and
    its text are what the last operation on that id made them (the text of
    the last [injectStyles], nothing after a [removeStyles]); an id the
    operations do not name is as before. *)
Theorem styles_last_operation {Text} (ops : list (DOM.StyleOp Text)) (styles : DOM.Head Text) :
  NoDup (DOM.styleIds styles) ->
  Forall (fun op => DOM.plainId (DOM.opId op) = true) ops ->
  let after := DOM.applyStyleOps ops styles in
  NoDup (DOM.styleIds after)
  /\ forall id, DOM.plainId id = true ->
       DOM.textContent <$> DOM.queryStyle id after
       = DOM.lastStyle id ops (DOM.textContent <$> DOM.queryStyle id styles).
Proof.
  intros Hnd _. cbv zeta.
  enough (NoDup (DOM.styleIds (DOM.applyStyleOps ops styles))
          /\ forall id,
               DOM.textContent <$> DOM.queryStyle id (DOM.applyStyleOps ops styles)
               = DOM.lastStyle id ops (DOM.textContent <$> DOM.queryStyle id styles))
    as [H1 H2] by (split; [done|]; intros id _; apply H2).
  revert styles Hnd. induction ops as [|op ops IH]; intros styles Hnd; [done|].
  destruct (applyStyleOp_spec op styles Hnd) as [Hnd1 H1].
  destruct (IH _ Hnd1) as [Hnd2 H2]. split; [done|].
  intros id. rewrite lastStyle_cons, <- H1. apply H2.
Qed.

Lemma styles_last_operation_witness :
  let ops := [DOM.Inject "voyager-width" 800%Z; DOM.Inject "voyager-base" 0%Z;
              DOM.Inject "voyager-width" 1000%Z; DOM.Remove "voyager-base"] in
  let after := DOM.applyStyleOps ops [] in
  NoDup (DOM.styleIds after)
  /\ forall id, DOM.plainId id = true ->
       DOM.textContent <$> DOM.queryStyle id after
       = DOM.lastStyle id ops (DOM.textContent <$> DOM.queryStyle id []).
Proof.
  apply (styles_last_operation
           [DOM.Inject "voyager-width" 800%Z; DOM.Inject "voyager-base" 0%Z;
            DOM.Inject "voyager-width" 1000%Z; DOM.Remove "voyager-base"] []).
  - apply NoDup_nil_2.
  - repeat (constructor; [reflexivity|]). constructor.
Defined.

(* ================================================================== *)
(** * Reading the messages *)
(* ================================================================== *)

Section MessageFacts.
Import DOM.

Lemma collectMessages_snoc blocks block :
  collectMessages (blocks ++ [block])
  = let messages := collectMessages blocks in
    if negb (isElementVisible (block_layout block)) then messages
    else match detectMessageRole block with
         | None => messages
         | Some r =>
             messages ++ [{| role := r; contentHtml := innerHTML block;
                             contentText := trimmedText block;
                             index := List.length messages;
                             element := block_element block |}]
         end.
Proof. unfold collectMessages. by rewrite foldl_app. Qed.

Lemma collectMessages_spec blocks :
  let shown := filter (fun b => isElementVisible (block_layout b) = true
                                /\ is_Some (detectMessageRole b)) blocks in
  let messages := collectMessages blocks in
  index <$> messages = seq 0 (List.length shown)
  /\ element <$> messages = block_element <$> shown
  /\ Some <$> (role <$> messages) = detectMessageRole <$> shown
  /\ contentHtml <$> messages = innerHTML <$> shown
  /\ contentText <$> messages = trimmedText <$> shown.
Proof.
  induction blocks as [|block blocks IH] using rev_ind; [done|].
  cbv zeta in *. rewrite collectMessages_snoc, filter_app. cbv zeta.
  destruct IH as (Hi & He & Hr & Hh & Ht).
  assert (List.length (collectMessages blocks)
          = List.length (filter (fun b => isElementVisible (block_layout b) = true
                                          /\ is_Some (detectMessageRole b)) blocks)) as Hlen.
  { rewrite <- (length_fmap index), Hi. by rewrite length_seq. }
  destruct (isElementVisible (block_layout block)) eqn:Ev; simpl.
  - destruct (detectMessageRole block) as [r|] eqn:Er.
    + rewrite filter_cons_True by (split; [done|by rewrite Er]).
      rewrite filter_nil, length_app, !fmap_app, seq_app. simpl.
      rewrite Hi, He, Hr, Hh, Ht, Hlen, Er. done.
    + rewrite filter_cons_False by (intros [_ [? ?]]; congruence).
      rewrite filter_nil, app_nil_r. done.
  - rewrite filter_cons_False by (intros [? _]; congruence).
    rewrite filter_nil, app_nil_r. done.
Qed.

Lemma detectMessageRole_of_block b :
  matchesMessageBlock b = true ->
  detectMessageRole b = Some (if matchesHuman b then human else assistant).
Proof.
  unfold matchesMessageBlock, detectMessageRole.
  destruct (matchesHuman b); [done|]. simpl. by intros ->.
Qed.

(** [best] after the loop: nothing if no container is visible;
    otherwise the first of the visible containers with the most visible
    blocks. *)
Lemma bestContainer_spec containers :
  match bestContainer containers with
  | None => Forall (fun c => isElementVisible (container_layout c) = false) containers
  | Some (c, n) =>
      n = score c
      /\ isElementVisible (container_layout c) = true
      /\ exists pre post,
           containers = pre ++ c :: post
           /\ Forall (fun c' => isElementVisible (container_layout c') = true ->
                                (score c' < score c)%nat) pre
           /\ Forall (fun c' => isElementVisible (container_layout c') = true ->
                                (score c' <= score c)%nat) post
  end.
Proof.
  induction containers as [|c containers IH] using rev_ind; [by constructor|].
  unfold bestContainer in *. rewrite foldl_app. simpl.
  destruct (isElementVisible (container_layout c)) eqn:Ev; simpl.
  - destruct (foldl _ None containers) as [[b n]|].
    + destruct IH as (-> & Hb & pre & post & -> & Hpre & Hpost).
      destruct (Nat.ltb_spec (score b) (score c)) as [Hlt|Hge].
      * split; [done|]. split; [done|].
        exists (pre ++ b :: post), []. split; [done|]. split; [|by constructor].
        apply Forall_app. split.
        -- eapply Forall_impl; [exact Hpre|]. simpl. intros x Hx Hv. specialize (Hx Hv). lia.
        -- constructor; [done|].
           eapply Forall_impl; [exact Hpost|]. simpl. intros x Hx Hv. specialize (Hx Hv). lia.
      * split; [done|]. split; [done|].
        exists pre, (post ++ [c]). split; [by rewrite <- app_assoc|]. split; [done|].
        apply Forall_app. split; [done|]. by constructor.
    + split; [done|]. split; [done|].
      exists containers, []. split; [done|]. split; [|by constructor].
      eapply Forall_impl; [exact IH|]. simpl. intros x Hx Hv. congruence.
  - destruct (foldl _ None containers) as [[b n]|].
    + destruct IH as (-> & Hb & pre & post & -> & Hpre & Hpost).
      split; [done|]. split; [done|].
      exists pre, (post ++ [c]). split; [by rewrite <- app_assoc|]. split; [done|].
      apply Forall_app. split; [done|]. constructor; [|done]. congruence.
    + apply Forall_app. split; [done|]. by constructor.
Qed.

End MessageFacts.

(** [getActiveMessageContainer]: it returns [null] exactly when
    there is no container. If some container is visible it returns the
    first, in document order, of the visible containers with the most
    visible message blocks. If none is visible it returns the first
    container all the same. *)
Theorem getActiveMessageContainer_spec (containers : list DOM.Container) :
  let visible c := DOM.isElementVisible (DOM.container_layout c) = true in
  match DOM.getActiveMessageContainer containers with
  | None => containers = []
  | Some c =>
      (visible c
       /\ exists pre post,
            containers = pre ++ c :: post
            /\ Forall (fun c' => visible c' -> (DOM.score c' < DOM.score c)%nat) pre
            /\ Forall (fun c' => visible c' -> (DOM.score c' <= DOM.score c)%nat) post)
      \/ (Forall (fun c' => ~ visible c') containers /\ head containers = Some c)
  end.
Proof.
  cbv zeta. unfold DOM.getActiveMessageContainer.
  pose proof (bestContainer_spec containers) as H.
  destruct (DOM.bestContainer containers) as [[c n]|].
  - left. destruct H as (_ & Hv & pre & post & ? & ? & ?).
    split; [done|]. by exists pre, post.
  - destruct containers as [|c containers]; [done|]. simpl.
    right. split; [|done].
    eapply Forall_impl; [exact H|]. simpl. intros x Hx. congruence.
Qed.

(** [getChatMessages]: the messages are the blocks of the active
    container (of the whole page when there is no container) that are
    visible and have a role, in document order, with the role, markup, text
    and element of their block, and their indices count 0, 1, 2, ... without
    a gap. A block that matches the [messageBlock] selector always has a
    role: human if it matches the human marker, assistant otherwise. *)
Theorem getChatMessages_spec (containers : list DOM.Container) (allBlocks : list DOM.Block) :
  let blocks :=
    match DOM.getActiveMessageContainer containers with
    | Some c => DOM.container_blocks c
    | None => allBlocks
    end in
  let shown := filter (fun b => DOM.isElementVisible (DOM.block_layout b) = true
                                /\ is_Some (DOM.detectMessageRole b)) blocks in
  let messages := DOM.getChatMessages containers allBlocks in
  DOM.index <$> messages = seq 0 (List.length shown)
  /\ DOM.element <$> messages = DOM.block_element <$> shown
  /\ Some <$> (DOM.role <$> messages) = DOM.detectMessageRole <$> shown
  /\ DOM.contentHtml <$> messages = DOM.innerHTML <$> shown
  /\ DOM.contentText <$> messages = DOM.trimmedText <$> shown
  /\ (Forall (fun b => DOM.matchesMessageBlock b = true) blocks ->
      shown = filter (fun b => DOM.isElementVisible (DOM.block_layout b) = true) blocks
      /\ DOM.role <$> messages
         = (fun b => if DOM.matchesHuman b then DOM.human else DOM.assistant) <$> shown).
Proof.
  cbv zeta. unfold DOM.getChatMessages. cbv zeta.
  set (blocks := match DOM.getActiveMessageContainer containers with
                 | Some c => DOM.container_blocks c
                 | None => allBlocks
                 end).
  destruct (collectMessages_spec blocks) as (Hi & He & Hr & Hh & Ht).
  repeat (split; [done|]).
  intros Hall.
  assert (forall l, Forall (fun b => DOM.matchesMessageBlock b = true) l ->
            filter (fun b => DOM.isElementVisible (DOM.block_layout b) = true
                             /\ is_Some (DOM.detectMessageRole b)) l
            = filter (fun b => DOM.isElementVisible (DOM.block_layout b) = true) l) as Hf.
  { intros l Hl. induction Hl as [|b l Hb Hl IH]; [done|].
    rewrite !filter_cons, IH.
    destruct (decide (DOM.isElementVisible (DOM.block_layout b) = true)) as [Hv|Hv].
    - rewrite decide_True; [done|]. split; [done|].
      by rewrite detectMessageRole_of_block.
    - rewrite decide_False; [done|]. tauto. }
  split; [by apply Hf|].
  apply (inj (fmap Some)). rewrite Hr. rewrite <- list_fmap_compose.
  apply Forall_fmap_ext_1.
  assert (Forall (fun b => DOM.matchesMessageBlock b = true)
            (filter (fun b => DOM.isElementVisible (DOM.block_layout b) = true
                              /\ is_Some (DOM.detectMessageRole b)) blocks)) as Hs.
  { apply Forall_forall. intros b [_ Hb]%list_elem_of_filter.
    by apply (proj1 (Forall_forall _ _) Hall). }
  eapply Forall_impl; [exact Hs|]. simpl. intros b Hb.
  by apply detectMessageRole_of_block.
Qed.

(* ================================================================== *)
(** * The sidebar: the child of a parent on the way up *)
(* ================================================================== *)

(** [findDirectChildContainer(parent, descendant)] climbs from
    [descendant] and returns the first element whose parent element is
    [parent], that is the child of [parent] under which [descendant] lies;
    it returns [null] exactly when [parent] is not among the ancestors of
    [descendant] ([descendant] itself being [parent] does not count). *)
Theorem findDirectChildContainer_spec (parent : Node) (chain : list Node) :
  match Sidebar.findDirectChildContainer parent chain with
  | Some child =>
      exists below above,
        chain = below ++ child :: parent :: above
        /\ parent ∉ tail (below ++ [child])
  | None => parent ∉ tail chain
  end.
Proof.
  induction chain as [|current ancestors IH]; simpl.
  { by intros ?%elem_of_nil. }
  destruct ancestors as [|p rest].
  { simpl. by intros ?%elem_of_nil. }
  destruct (Nat.eqb_spec p parent) as [->|Hne].
  { exists [], rest. split; [done|]. simpl. by intros ?%elem_of_nil. }
  destruct (Sidebar.findDirectChildContainer parent (p :: rest)) as [child|].
  - destruct IH as (below & above & E & Hn).
    exists (current :: below), above. split; [by rewrite E|].
    simpl. destruct below as [|b below].
    + simpl in E. injection E as <- _. simpl.
      apply not_elem_of_cons. split; [congruence|by intros ?%elem_of_nil].
    + simpl in E. injection E as <- E. simpl in Hn. simpl.
      apply not_elem_of_cons. split; [congruence|done].
  - simpl in IH. simpl. apply not_elem_of_cons. split; [congruence|done].
Qed.

(* ================================================================== *)
(** * Resources follow activation *)
(* ================================================================== *)

Section ContractFacts.
Import Contract.
Context {World : Type}.
Context (key : string) (held free : World -> Prop).
Context (m : FeatureModule World) (reg : gmap string (FeatureModule World)).
Hypothesis Hm : reg !! key = Some m.
Hypothesis Hmanages : manages held free m.
Hypothesis Hothers : forall k m', k <> key -> reg !! k = Some m' ->
  preserves held m' /\ preserves free m'.
Implicit Types (st : State World).

Lemma settled_frame st st' :
  features st' = features st -> activeFeatures st' = activeFeatures st ->
  world st' = world st -> settled reg key held free st -> settled reg key held free st'.
Proof. unfold settled, follows. by intros -> -> ->. Qed.

Lemma settled_activate k settings st :
  settled reg key held free st ->
  settled reg key held free (activateFeature k settings st).
Proof.
  intros [Hreg [Hheld Hfree]]. unfold activateFeature.
  destruct (Set_has k (activeFeatures st)) eqn:Ea; [done|].
  apply Set_has_false in Ea.
  destruct (features st !! k) as [m'|] eqn:Ek; [|done].
  rewrite Hreg in Ek.
  destruct (init m' settings (world st)) as [c w] eqn:Ei.
  destruct (decide (k = key)) as [->|Hne].
  - assert (m' = m) as -> by congruence.
    destruct Hmanages as (Hinit & _). specialize (Hinit settings (world st) (Hfree Ea)).
    cbv zeta in Hinit. rewrite Ei in Hinit. simpl in Hinit.
    destruct c; split; simpl; try done; split; try done.
    + intros Hn. exfalso. apply Hn. apply elem_of_Set_add. by left.
  - destruct (Hothers k m' Hne Ek) as [(Hh & _) (Hf & _)].
    specialize (Hh settings (world st)). specialize (Hf settings (world st)).
    rewrite Ei in Hh, Hf. simpl in Hh, Hf.
    destruct c; split; simpl; try done; split.
    + intros [?|Hin]%elem_of_Set_add; [done|]. auto.
    + intros Hn. apply Hf, Hfree. intros Hin. apply Hn. apply elem_of_Set_add. by right.
    + auto.
    + auto.
Qed.

Lemma settled_deactivate k st :
  settled reg key held free st ->
  settled reg key held free (deactivateFeature k st).
Proof.
  intros [Hreg [Hheld Hfree]]. unfold deactivateFeature.
  destruct (Set_has k (activeFeatures st)) eqn:Ea; [|done]. simpl.
  apply Set_has_true in Ea.
  destruct (features st !! k) as [m'|] eqn:Ek.
  2:{ split; [done|]. split; simpl.
      - intros [_ Hin]%elem_of_Set_delete. auto.
      - intros Hn. destruct (decide (key = k)) as [->|Hne].
        + rewrite Hreg in Ek. congruence.
        + apply Hfree. intros Hin. apply Hn. by apply elem_of_Set_delete. }
  rewrite Hreg in Ek.
  destruct (destroy m' (world st)) as [c w] eqn:Ed.
  assert (features (match c with
                    | Normal => called (CallDestroy k) w st
                    | Throw => logged (LogDestroyError k) (called (CallDestroy k) w st)
                    end) = features st
          /\ activeFeatures (match c with
                    | Normal => called (CallDestroy k) w st
                    | Throw => logged (LogDestroyError k) (called (CallDestroy k) w st)
                    end) = activeFeatures st
          /\ world (match c with
                    | Normal => called (CallDestroy k) w st
                    | Throw => logged (LogDestroyError k) (called (CallDestroy k) w st)
                    end) = w) as (Ef & Eact & Ew) by (by destruct c).
  split; simpl; [by rewrite Ef|]. split; simpl; rewrite Eact, Ew.
  - intros [Hne Hin]%elem_of_Set_delete.
    destruct (Hothers k m' ltac:(congruence) Ek) as [(_ & Hh & _) _].
    specialize (Hh (world st) (Hheld Hin)). by rewrite Ed in Hh.
  - intros Hn. destruct (decide (k = key)) as [->|Hne].
    + assert (m' = m) as -> by congruence.
      destruct Hmanages as (_ & Hdestroy & _).
      specialize (Hdestroy (world st) (Hheld Ea)). by rewrite Ed in Hdestroy.
    + destruct (Hothers k m' Hne Ek) as [_ (_ & Hf & _)].
      assert (key ∉ activeFeatures st) as Hn'.
      { intros Hin. apply Hn. apply elem_of_Set_delete. split; [congruence|done]. }
      specialize (Hf (world st) (Hfree Hn')). by rewrite Ed in Hf.
Qed.

Lemma settled_syncLoop settings keys st :
  settled reg key held free st ->
  settled reg key held free (syncLoop settings keys st).
Proof.
  revert st. induction keys as [|k keys IH]; intros st Hg; [done|].
  rewrite syncLoop_cons. apply IH.
  destruct (get _ k); [by apply settled_activate | by apply settled_deactivate].
Qed.

Lemma settled_setSidebarPinningEnabled enabled st :
  settled reg key held free st ->
  settled reg key held free (setSidebarPinningEnabled enabled st).
Proof.
  destruct (setSidebarPinningEnabled_frame enabled st) as (Ef & Ea & _ & _ & Ew & _).
  by apply settled_frame.
Qed.

Lemma settled_syncFeatures settings st :
  settled reg key held free st ->
  settled reg key held free (syncFeatures settings st).
Proof.
  intros Hg. unfold syncFeatures. cbv zeta.
  by apply settled_setSidebarPinningEnabled, settled_syncLoop.
Qed.

(** A notification loop over active keys, for a hook that the module of
    [key] keeps its resources under and the others keep everything under. *)
Lemma settled_notify (hook : FeatureModule World -> option (World -> Completion * World))
    mk keys st :
  (forall m' f w, hook m' = Some f ->
     (m' = m -> held w -> held (f w).2)
     /\ (preserves held m' -> held w -> held (f w).2)
     /\ (preserves free m' -> free w -> free (f w).2)) ->
  (forall k, k ∈ keys -> k ∈ activeFeatures st) ->
  settled reg key held free st -> settled reg key held free (notify hook mk keys st).2.
Proof.
  intros Hhook. revert st. induction keys as [|k keys IH]; intros st Hact Hg; [done|].
  simpl.
  assert (forall k', k' ∈ keys -> k' ∈ activeFeatures st) as Hact'.
  { intros k' Hin. apply Hact. apply elem_of_cons. by right. }
  destruct (features st !! k) as [m'|] eqn:Ek; simpl; [|by apply IH].
  destruct (hook m') as [f|] eqn:Eh; [|by apply IH].
  destruct (f (world st)) as [c w] eqn:Ef.
  destruct Hg as [Hreg [Hheld Hfree]]. rewrite Hreg in Ek.
  assert (k ∈ activeFeatures st) as Hk by (apply Hact; apply elem_of_cons; by left).
  destruct (Hhook m' f (world st) Eh) as (Hown & Hph & Hpf). rewrite Ef in *. simpl in *.
  assert (settled reg key held free (called (mk k) w st)) as Hg1.
  { split; [done|]. split; simpl.
    - intros Hin. destruct (decide (k = key)) as [->|Hne].
      + apply Hown; [congruence|auto].
      + destruct (Hothers k m' Hne Ek) as [Hp _]. auto.
    - intros Hn. destruct (decide (k = key)) as [->|Hne]; [done|].
      destruct (Hothers k m' Hne Ek) as [_ Hp]. auto. }
  destruct c; [by apply IH|done].
Qed.

Lemma settled_notifyNavigate keys id st :
  (forall k, k ∈ keys -> k ∈ activeFeatures st) ->
  settled reg key held free st -> settled reg key held free (notifyNavigate keys id st).2.
Proof.
  rewrite notifyNavigate_notify. apply settled_notify.
  intros m' f w Hf. unfold navigateHook in Hf.
  destruct (onNavigate m') as [g|] eqn:Eg; [|done]. injection Hf as <-.
  split; [|split].
  - intros -> Hw. destruct Hmanages as (_ & _ & Hn & _). by eapply Hn.
  - intros (_ & _ & Hn & _) Hw. by eapply Hn.
  - intros (_ & _ & Hn & _) Hw. by eapply Hn.
Qed.

Lemma settled_notifyMessagesChanged keys container st :
  (forall k, k ∈ keys -> k ∈ activeFeatures st) ->
  settled reg key held free st ->
  settled reg key held free (notifyMessagesChanged keys container st).2.
Proof.
  rewrite notifyMessagesChanged_notify. apply settled_notify.
  intros m' f w Hf. unfold messagesChangedHook in Hf.
  destruct (onMessagesChanged m') as [g|] eqn:Eg; [|done]. injection Hf as <-.
  split; [|split].
  - intros -> Hw. destruct Hmanages as (_ & _ & _ & Hn). by eapply Hn.
  - intros (_ & _ & _ & Hn) Hw. by eapply Hn.
  - intros (_ & _ & _ & Hn) Hw. by eapply Hn.
Qed.

Lemma settled_checkNavigation pathname st :
  settled reg key held free st ->
  settled reg key held free (checkNavigation pathname st).2.
Proof.
  intros Hg. unfold checkNavigation. cbv zeta.
  destruct (String.eqb pathname (lastPath st)); [done|].
  set (st2 := logged _ _).
  assert (settled reg key held free st2) as Hg2 by (by apply (settled_frame st)).
  pose proof (settled_notifyNavigate (activeFeatures st2)
                (DOMService.getConversationId pathname) st2 (fun _ H => H) Hg2) as Hn.
  destruct (notifyNavigate _ _ st2) as [[] st3]; simpl in *; [|done].
  destruct (sidebarPinningEnabled st3); by apply (settled_frame st3).
Qed.

Lemma settled_setupMessageObserver query retryCount st :
  settled reg key held free st ->
  settled reg key held free (setupMessageObserver query retryCount st).
Proof.
  apply settled_frame; unfold setupMessageObserver; destruct query as [c|];
    try (by destruct (messageObserverRetryTimer st));
    by destruct (_ <=? _)%nat.
Qed.

Lemma settled_mutationCallback o st :
  settled reg key held free st ->
  settled reg key held free (mutationCallback o st).
Proof.
  apply settled_frame; unfold mutationCallback;
    (destruct (DOMService.connected (dom st) !! o) as [c|]; [|done]);
    destruct (DOMService.mo_callback c) as [container]; unfold debounce;
    by destruct (debounceTimers st !! o).
Qed.

Lemma settled_fireTimer id query st :
  settled reg key held free st ->
  settled reg key held free (fireTimer id query st).
Proof.
  intros Hg. unfold fireTimer. destruct (List.find _ _) as [t|]; [|done].
  assert (settled reg key held free (clearTimeout id st)) as Hg1 by (by apply (settled_frame st)).
  destruct (timer_action t) as [retryCount| |container].
  - by apply settled_setupMessageObserver.
  - done.
  - unfold onMutation. by apply settled_notifyMessagesChanged.
Qed.

Lemma settled_step e st : settled reg key held free st -> settled reg key held free (step e st).
Proof.
  intros Hg. destruct e as [s|k enabled s|pathname|o|id query]; simpl.
  - by apply settled_syncFeatures.
  - unfold onFeatureToggle.
    assert (settled reg key held free (if enabled then activateFeature k s st else deactivateFeature k st)) as H
      by (destruct enabled; [by apply settled_activate | by apply settled_deactivate]).
    destruct (String.eqb k "folders"); [|done].
    by apply settled_setSidebarPinningEnabled.
  - by apply settled_checkNavigation.
  - by apply settled_mutationCallback.
  - by apply settled_fireTimer.
Qed.

Lemma settled_run events st :
  settled reg key held free st ->
  settled reg key held free (run events st).
Proof.
  revert st. induction events as [|e events IH]; intros st Hg; [done|].
  simpl. by apply IH, settled_step.
Qed.

End ContractFacts.

(* ================================================================== *)
(** * widthAdjust and tabTitleSync *)
(* ================================================================== *)

Section FeatureFacts.
Import Contract Features.

Lemma styleCount_None id h : DOM.queryStyle id h = None <-> styleCount id h = 0.
Proof.
  unfold DOM.queryStyle, styleCount. induction h as [|el h IH]; [done|].
  rewrite filter_cons. cbn [List.find].
  destruct (String.eqb_spec (DOM.data_voyager_style el) id) as [He|Hne].
  - rewrite decide_True by done. simpl. split; [done|lia].
  - rewrite decide_False by done. done.
Qed.

Lemma styleCount_inject id (w : Z) h :
  styleCount id h = 0 -> styleCount id (DOM.injectStyles id w h) = 1.
Proof.
  intros H0. unfold DOM.injectStyles.
  rewrite (proj2 (styleCount_None id h) H0).
  unfold styleCount in *. rewrite filter_app, length_app, H0.
  by rewrite filter_cons_True, filter_nil.
Qed.

Lemma styleCount_setTextContent id id' (w : Z) h :
  styleCount id' (DOM.setTextContent id w h) = styleCount id' h.
Proof.
  unfold styleCount. induction h as [|el h IH]; [done|]. cbn [DOM.setTextContent].
  destruct (String.eqb (DOM.data_voyager_style el) id).
  - rewrite !filter_cons. simpl. by destruct (decide _).
  - rewrite !filter_cons. destruct (decide _); simpl; by rewrite IH.
Qed.

Lemma styleCount_inject_held id (w : Z) h :
  styleCount id h = 1 -> styleCount id (DOM.injectStyles id w h) = 1.
Proof.
  intros H1. unfold DOM.injectStyles.
  destruct (DOM.queryStyle id h) eqn:Eq.
  - by rewrite styleCount_setTextContent.
  - apply styleCount_None in Eq. congruence.
Qed.

Lemma styleCount_removeFirst id h :
  styleCount id (DOM.removeFirst id h) = pred (styleCount id h).
Proof.
  unfold styleCount. induction h as [|el h IH]; [done|]. cbn [DOM.removeFirst].
  rewrite filter_cons.
  destruct (String.eqb_spec (DOM.data_voyager_style el) id) as [He|Hne].
  - by rewrite decide_True.
  - rewrite decide_False by done. rewrite filter_cons, decide_False by done. done.
Qed.

Lemma styleCount_remove id h :
  styleCount id h = 1 -> styleCount id (DOM.removeStyles id h) = 0.
Proof.
  intros H1. unfold DOM.removeStyles. destruct (DOM.queryStyle id h) eqn:Eq.
  - by rewrite styleCount_removeFirst, H1.
  - apply styleCount_None in Eq. congruence.
Qed.

(** The one id [widthAdjust] uses is a plain one. *)
Lemma STYLE_ID_plain : DOM.plainId STYLE_ID = true.
Proof. reflexivity. Qed.

Lemma width_manages : manages width_held width_free WidthAdjustFeature.
Proof.
  unfold manages, width_held, width_free. simpl. split; [|split; [|done]].
  - intros settings p (H0 & Hv & Hl). split.
    + by apply styleCount_inject.
    + exists (nextListener p). by rewrite Hl.
  - intros p (H1 & id & Hv & Hl). rewrite Hv. simpl. split; [by apply styleCount_remove|].
    split; [done|]. rewrite Hl. by rewrite filter_cons_False, filter_nil by tauto.
Qed.

Lemma title_manages original : manages title_held title_free (TabTitleSyncFeature original).
Proof.
  unfold manages, title_held, title_free. simpl. split; [|split; [|split; [|done]]].
  - intros _ p (Hv & Hl). exists (nextTimerId (syncTitle p)).
    assert (intervals (syncTitle p) = intervals p) as ->; [|by rewrite Hl].
    unfold syncTitle. destruct (negb _); [done|].
    destruct (conversationTitle p); [|done]. by destruct (_ && _).
  - intros p (id & Hv & Hl). rewrite Hv. simpl. split; [done|].
    rewrite Hl. by rewrite filter_cons_False, filter_nil by tauto.
  - intros f id p [= <-] (i & Hv & Hl). simpl. by exists i.
Qed.

Lemma syncTitle_width p :
  page_head (syncTitle p) = page_head p
  /\ storageListener (syncTitle p) = storageListener p
  /\ onChanged (syncTitle p) = onChanged p.
Proof.
  unfold syncTitle. destruct (negb _); [done|].
  destruct (conversationTitle p); [|done]. by destruct (_ && _).
Qed.

Lemma title_preserves_width original :
  preserves width_held (TabTitleSyncFeature original)
  /\ preserves width_free (TabTitleSyncFeature original).
Proof.
  unfold preserves, width_held, width_free. simpl.
  split; (split; [|split; [|split; [|done]]]).
  - intros _ p. destruct (syncTitle_width p) as (-> & -> & ->). done.
  - intros p. by destruct (intervalId p).
  - by intros f id p [= <-].
  - intros _ p. destruct (syncTitle_width p) as (-> & -> & ->). done.
  - intros p. by destruct (intervalId p).
  - by intros f id p [= <-].
Qed.

Lemma width_preserves_title :
  preserves title_held WidthAdjustFeature /\ preserves title_free WidthAdjustFeature.
Proof.
  unfold preserves, title_held, title_free. simpl.
  split; (split; [|split; [|split; [done|done]]]).
  - done.
  - intros p. by destruct (storageListener p).
  - done.
  - intros p. by destruct (storageListener p).
Qed.

End FeatureFacts.

(** The two features under the content script's lifecycle.
    With [widthAdjust] and [tabTitleSync] registered, and every other
    registered module leaving their style, listener and interval alone,
    any sequence of settings changes, feature toggles, navigations,
    mutations and timers keeps this: while [widthAdjust] is Active there is
    exactly one width style and exactly one storage listener, the one
    [storageListener] names, and while it is Inactive there is neither;
    while [tabTitleSync] is Active exactly one title interval runs, and
    while it is Inactive none does. Nothing is leaked and nothing is doubled. *)
Theorem features_hold_resources_while_active (st : State Features.Page)
    (original : string) (events : list Event) :
  features st !! "widthAdjust" = Some Features.WidthAdjustFeature ->
  features st !! "tabTitleSync" = Some (Features.TabTitleSyncFeature original) ->
  (forall k m', k <> "widthAdjust" -> k <> "tabTitleSync" ->
     features st !! k = Some m' ->
     Contract.preserves Features.width_held m' /\ Contract.preserves Features.width_free m'
     /\ Contract.preserves Features.title_held m'
     /\ Contract.preserves Features.title_free m') ->
  Contract.follows "widthAdjust" Features.width_held Features.width_free st ->
  Contract.follows "tabTitleSync" Features.title_held Features.title_free st ->
  let st' := run events st in
  Contract.follows "widthAdjust" Features.width_held Features.width_free st'
  /\ Contract.follows "tabTitleSync" Features.title_held Features.title_free st'.
Proof.
  intros Hw Ht Hothers Fw Ft. cbv zeta. split.
  - eapply (settled_run "widthAdjust" _ _ Features.WidthAdjustFeature (features st) Hw
              width_manages); [|by split].
    intros k m' Hne Hk. destruct (decide (k = "tabTitleSync")) as [->|Hne'].
    + assert (m' = Features.TabTitleSyncFeature original) as -> by congruence.
      apply title_preserves_width.
    + destruct (Hothers k m' Hne Hne' Hk) as (? & ? & _). by split.
  - eapply (settled_run "tabTitleSync" _ _ (Features.TabTitleSyncFeature original)
              (features st) Ht (title_manages original)); [|by split].
    intros k m' Hne Hk. destruct (decide (k = "widthAdjust")) as [->|Hne'].
    + assert (m' = Features.WidthAdjustFeature) as -> by congruence.
      apply width_preserves_title.
    + destruct (Hothers k m' Hne' Hne Hk) as (_ & _ & ? & ?). by split.
Qed.

Lemma features_hold_resources_while_active_witness :
  let st' := run Features.session Features.twoFeatures in
  Contract.follows "widthAdjust" Features.width_held Features.width_free st'
  /\ Contract.follows "tabTitleSync" Features.title_held Features.title_free st'.
Proof.
  apply (features_hold_resources_while_active Features.twoFeatures "Claude" Features.session).
  - change (features Features.twoFeatures)
      with (<["tabTitleSync" := Features.TabTitleSyncFeature "Claude"]>
              (<["widthAdjust" := Features.WidthAdjustFeature]>
                 (∅ : gmap string (FeatureModule Features.Page)))).
    rewrite lookup_insert_ne by done. apply lookup_insert_eq.
  - change (features Features.twoFeatures)
      with (<["tabTitleSync" := Features.TabTitleSyncFeature "Claude"]>
              (<["widthAdjust" := Features.WidthAdjustFeature]>
                 (∅ : gmap string (FeatureModule Features.Page)))).
    apply lookup_insert_eq.
  - intros k m' H1 H2 Hk. exfalso.
    change (features Features.twoFeatures)
      with (<["tabTitleSync" := Features.TabTitleSyncFeature "Claude"]>
              (<["widthAdjust" := Features.WidthAdjustFeature]>
                 (∅ : gmap string (FeatureModule Features.Page)))) in Hk.
    rewrite !lookup_insert_ne in Hk by done. by rewrite lookup_empty in Hk.
  - split; [by intros ?%elem_of_nil|]. intros _. by repeat split.
  - split; [by intros ?%elem_of_nil|]. intros _. by repeat split.
Defined.

Section StorageChange.
Import Features.

Lemma setTextContent_twice id (w : Z) h :
  DOM.setTextContent id w (DOM.setTextContent id w h) = DOM.setTextContent id w h.
Proof.
  induction h as [|el h IH]; [done|]. cbn [DOM.setTextContent].
  destruct (String.eqb (DOM.data_voyager_style el) id) eqn:E;
    cbn [DOM.setTextContent DOM.data_voyager_style]; rewrite E; [done|].
  by rewrite IH.
Qed.

Lemma setTextContent_snoc id (w : Z) (h : DOM.Head Z) :
  DOM.queryStyle id h = None ->
  DOM.setTextContent id w
    (h ++ [{| DOM.data_voyager_style := id; DOM.textContent := w |}])
  = h ++ [{| DOM.data_voyager_style := id; DOM.textContent := w |}].
Proof.
  unfold DOM.queryStyle. induction h as [|el h IH]; simpl.
  - by rewrite eqb_refl_s.
  - destruct (String.eqb (DOM.data_voyager_style el) id); [done|].
    intros Hn. by rewrite IH.
Qed.

Lemma injectStyles_twice id (w : Z) (h : DOM.Head Z) :
  DOM.injectStyles id w (DOM.injectStyles id w h) = DOM.injectStyles id w h.
Proof.
  unfold DOM.injectStyles at 2 3. destruct (DOM.queryStyle id h) as [el|] eqn:Eq.
  - unfold DOM.injectStyles.
    assert (is_Some (DOM.queryStyle id (DOM.setTextContent id w h))) as [el' ->].
    { pose proof (queryStyle_setTextContent_eq id w h) as H.
      destruct (DOM.queryStyle id (DOM.setTextContent id w h)); [by eexists|].
      apply queryStyle_Some in Eq as [_ Hin]. by specialize (H Hin). }
    apply setTextContent_twice.
  - unfold DOM.injectStyles. rewrite queryStyle_app, Eq.
    unfold DOM.queryStyle at 1. simpl. rewrite eqb_refl_s.
    by apply setTextContent_snoc.
Qed.

Lemma applyWidth_twice w p : applyWidth w (applyWidth w p) = applyWidth w p.
Proof. unfold applyWidth, set_head. simpl. by rewrite injectStyles_twice. Qed.

Lemma applyWidth_listeners w p (ls : list nat) :
  foldl (fun p _ => applyWidth w p) (applyWidth w p) ls = applyWidth w p.
Proof. induction ls as [|l ls IH]; [done|]. simpl. by rewrite applyWidth_twice. Qed.

End StorageChange.

(** A change of the stored settings reaches the page through the
    listeners of [widthAdjust] only. With no listener, with no new value
    or with a new chat width of 0 it leaves the page as it is; otherwise it
    is one [applyWidth] of the new chat width, however many listeners
    there are. So while the feature holds nothing (it is Inactive) nothing
    changes, and while it holds its listener and style a new width becomes
    the text of that one style. *)
Theorem storageChanged_spec (p : Features.Page) (newValue : option VoyagerSettings) :
  let p' := Features.storageChanged newValue p in
  p' = match newValue, Features.onChanged p with
       | Some s, _ :: _ =>
           if (chatWidth s =? 0)%Z then p else Features.applyWidth (chatWidth s) p
       | _, _ => p
       end
  /\ (Features.width_free p -> p' = p)
  /\ (Features.width_held p ->
      Features.width_held p'
      /\ forall s, newValue = Some s -> chatWidth s <> 0%Z ->
           DOM.textContent <$> DOM.queryStyle Features.STYLE_ID (Features.page_head p')
           = Some (chatWidth s)).
Proof.
  cbv zeta.
  assert (Features.storageChanged newValue p
          = match newValue, Features.onChanged p with
            | Some s, _ :: _ =>
                if (chatWidth s =? 0)%Z then p else Features.applyWidth (chatWidth s) p
            | _, _ => p
            end) as E.
  { unfold Features.storageChanged. destruct newValue as [s|].
    - destruct (Features.onChanged p) as [|l ls]; [done|]. simpl.
      destruct (chatWidth s =? 0)%Z.
      + clear. induction ls as [|l' ls IH]; [done|]. done.
      + apply applyWidth_listeners.
    - generalize (Features.onChanged p). intros ls. by induction ls. }
  split; [done|]. rewrite E. split.
  - intros (_ & _ & ->). by destruct newValue.
  - intros (H1 & id & Hv & Hl). rewrite Hl.
    destruct newValue as [s|]; [|split; [by split; [|exists id]|done]].
    destruct (Z.eqb_spec (chatWidth s) 0) as [Hz|Hz].
    { split; [by split; [|exists id]|]. intros s' [= <-] Hne. done. }
    split.
    + split; [by apply styleCount_inject_held|]. by exists id.
    + intros s' [= <-] _. unfold Features.applyWidth. simpl.
      unfold DOM.injectStyles.
      destruct (DOM.queryStyle Features.STYLE_ID (Features.page_head p)) eqn:Eq.
      * apply queryStyle_setTextContent_eq.
        by apply queryStyle_Some in Eq as [_ ?].
      * apply styleCount_None in Eq. congruence.
Qed.

(* ================================================================== *)
(** * Message dispatch *)
(* ================================================================== *)

Section MessagingFacts.
Import MessageService.
Context {Data Sender : Type}.

Lemma registerAll_lookup (rs : list (Registration Data Sender))
    (handlers : gmap string (MessageHandler Data Sender)) t :
  registerAll rs handlers !! t = lastHandler t rs (handlers !! t).
Proof.
  revert handlers. induction rs as [|r rs IH]; intros handlers; [done|].
  simpl. rewrite IH. f_equal. destruct r as [t' h|t']; simpl; unfold on, off.
  - destruct (String.eqb_spec t' t) as [->|Hne].
    + by rewrite lookup_insert_eq.
    + by rewrite lookup_insert_ne.
  - destruct (String.eqb_spec t' t) as [->|Hne].
    + by rewrite lookup_delete_eq.
    + by rewrite lookup_delete_ne.
Qed.

End MessagingFacts.

(** The message listener, after any calls of [on] and [off]
    and for any message. A message has one handler at most: the one of
    the last [on] for its type, if no [off] for that type came after. The
    listener returns [undefined] exactly when the message is missing, has
    no type, or has no handler; otherwise it returns a promise, and that
    promise is never rejected: it is fulfilled with what the handler
    returns or with what the handler's promise is fulfilled with, and when
    the handler throws or its promise is rejected, with a response whose
    [success] is [false] and whose [error] is the reason. *)
Theorem listener_spec {Data Sender} (rs : list (MessageService.Registration Data Sender))
    (handlers : gmap string (MessageService.MessageHandler Data Sender))
    (rawMessage : option (MessageService.ExtensionMessage Data)) (sender : Sender) :
  let registered := MessageService.registerAll rs handlers in
  let result := MessageService.listener registered rawMessage sender in
  (forall reason, result <> Some (MessageService.Rejected reason))
  /\ match rawMessage with
     | None => result = None
     | Some message =>
         if String.eqb (MessageService.type message) "" then result = None
         else
           match MessageService.lastHandler (MessageService.type message) rs
                   (handlers !! MessageService.type message) with
           | None => result = None
           | Some handler =>
               exists p, result = Some p
               /\ match handler message sender with
                  | MessageService.Returns value => p = MessageService.Fulfilled value
                  | MessageService.ReturnsPromise (MessageService.Rejected reason)
                  | MessageService.Throws reason =>
                      p = MessageService.Fulfilled
                            (Some {| MessageService.success := false;
                                     MessageService.data := None;
                                     MessageService.error := Some reason |})
                  | MessageService.ReturnsPromise q => p = q
                  end
           end
     end.
Proof.
  cbv zeta. unfold MessageService.listener.
  destruct rawMessage as [message|]; [|done].
  destruct (String.eqb (MessageService.type message) ""); [done|].
  rewrite (registerAll_lookup rs handlers (MessageService.type message)).
  destruct (MessageService.lastHandler _ rs _) as [handler|]; [|done].
  destruct (handler message sender) as [value|[value|reason|]|reason]; split;
    try done; by eexists.
Qed.
